(** * libpkg/pkg_solve.c: the SAT encoding of package jobs and its solver

    A shallow embedding of [pkg_solve.c].  Pointers are indices: a
    [struct pkg_solve_variable *] is a slot number of [problem->variables],
    a [struct pkg_solve_item *] naming a clause is the number of the clause
    in [problem->rules], a [struct pkg_job_universe_item *] is the number of
    the unit in the universe walk.  Allocation is taken to succeed, so the
    [malloc]/[calloc] failure branches are not part of the model.  The C
    [int] counters are integers of [Z]; signed overflow is undefined in C
    and no counter of a problem that fits in memory reaches it. *)

From Stdlib Require Import ZArith Lia Bool Ascii String.
From stdpp Require Import base numbers list strings.

Local Open Scope Z_scope.

(** ** Collaborators declared in [pkg.h] and [private/pkg_jobs.h] *)

(** Modelled from the spec: [pkg_t] of [pkg.h], which is not among the
    sources; the solver only tests [PKG_INSTALLED] (the Unit attribute
    [is_installed]). *)
Inductive pkg_t := PKG_FILE | PKG_REMOTE | PKG_INSTALLED.

Definition pkg_t_eqb (a b : pkg_t) : bool :=
  match a, b with
  | PKG_FILE, PKG_FILE | PKG_REMOTE, PKG_REMOTE
  | PKG_INSTALLED, PKG_INSTALLED => true
  | _, _ => false
  end.

(** Modelled from the spec: [pkg_jobs_t] of [pkg.h], the job type reported
    by the Request Source. *)
Inductive pkg_jobs_t :=
| PKG_JOBS_INSTALL | PKG_JOBS_DEINSTALL | PKG_JOBS_FETCH
| PKG_JOBS_AUTOREMOVE | PKG_JOBS_UPGRADE.

Definition pkg_jobs_t_eqb (a b : pkg_jobs_t) : bool :=
  match a, b with
  | PKG_JOBS_INSTALL, PKG_JOBS_INSTALL | PKG_JOBS_DEINSTALL, PKG_JOBS_DEINSTALL
  | PKG_JOBS_FETCH, PKG_JOBS_FETCH | PKG_JOBS_AUTOREMOVE, PKG_JOBS_AUTOREMOVE
  | PKG_JOBS_UPGRADE, PKG_JOBS_UPGRADE => true
  | _, _ => false
  end.

(** Modelled from the spec: the kind of a declared conflict, an enumeration
    of [private/pkg.h].  The code tests for the two kinds of the spec and
    treats any other value as unfiltered. *)
Inductive pkg_conflict_t :=
| PKG_CONFLICT_ALL | PKG_CONFLICT_REMOTE_LOCAL | PKG_CONFLICT_REMOTE_REMOTE.

Record pkg_conflict := mk_conflict {
  conflict_uniqueid : string;
  conflict_type : pkg_conflict_t
}.

(** Modelled from the spec: [struct pkg] of [private/pkg.h], reduced to the
    attributes of a Unit that the solver reads through [pkg_get],
    [pkg->deps], [pkg->conflicts] and [pkg_shlibs_required]. *)
Record pkg := mk_pkg {
  pkg_name : string;
  pkg_uniqueid : string;
  pkg_digest : string;
  pkg_type : pkg_t;
  pkg_deps : list string;
  pkg_conflicts : list pkg_conflict;
  pkg_shlibs_required : list string
}.

(** Modelled from the spec: [struct pkg_job_universe_item] of
    [private/pkg_jobs.h], one candidate of a unique-id chain.  [un_addr] is the address of the item itself; [un_next]
    and [un_prev] are the utlist links ([prev] of the head is the tail). *)
Record pkg_job_universe_item := mk_unit {
  un_pkg : pkg;
  un_addr : nat;
  un_next : option nat;
  un_prev : nat
}.

(** Modelled from the spec: [struct pkg_jobs_universe] of
    [private/pkg_jobs.h].  The universe is the sequence of unique-id chains
    in the iteration order of [j->universe->items], each with at least one
    unit, and the Provides index from a shared-library name to the units
    ([pr->un]) that provide it. *)
Record pkg_jobs_universe := mk_universe {
  items : list (pkg * list pkg);
  provides : list (string * list nat)
}.

Inductive pkg_solved_t :=
| PKG_SOLVED_INSTALL | PKG_SOLVED_DELETE | PKG_SOLVED_UPGRADE | PKG_SOLVED_FETCH.

(** Modelled from the spec: a JobRecord, [struct pkg_solved] of
    [private/pkg_jobs.h]. *)
Record pkg_solved := mk_solved {
  solved_type : pkg_solved_t;
  solved_items0 : option pkg_job_universe_item;
  solved_items1 : option pkg_job_universe_item
}.

(** Modelled from the spec: [struct pkg_jobs] of [private/pkg_jobs.h], with
    the requests (keyed by unit address) and the job list that the emitter
    appends to. *)
Record pkg_jobs := mk_jobs {
  jobs_type : pkg_jobs_t;
  universe : pkg_jobs_universe;
  request_add : list nat;
  request_delete : list nat;
  jobs : list pkg_solved;
  count : Z
}.

(** The units of one chain, laid out from address [base]. *)
Fixpoint chain_units (base tail : nat) (k : nat) (c : list pkg)
  : list pkg_job_universe_item :=
  match c with
  | [] => []
  | x :: c' =>
      mk_unit x (base + k)%nat
        (match c' with [] => None | _ => Some (base + k + 1)%nat end)
        (match k with O => tail | S k' => (base + k')%nat end)
      :: chain_units base tail (S k) c'
  end.

Definition chain_of (base : nat) (c : pkg * list pkg)
  : list pkg_job_universe_item :=
  chain_units base (base + length (snd c))%nat 0 (fst c :: snd c).

Fixpoint universe_chains (base : nat) (l : list (pkg * list pkg))
  : list (list pkg_job_universe_item) :=
  match l with
  | [] => []
  | c :: l' => chain_of base c :: universe_chains (base + S (length (snd c))) l'
  end.

(** [j->universe->nitems] *)
Definition universe_nitems (u : pkg_jobs_universe) : nat :=
  length (concat (universe_chains 0 (items u))).

(** The unit behind an address, and the head of its chain (the walk
    [while (un->prev->next != NULL) un = un->prev]). *)
Definition universe_unit (u : pkg_jobs_universe) (a : nat)
  : option pkg_job_universe_item :=
  concat (universe_chains 0 (items u)) !! a.

Definition universe_head (u : pkg_jobs_universe) (a : nat)
  : option pkg_job_universe_item :=
  match List.find (fun c => existsb (fun x => Nat.eqb (un_addr x) a) c)
          (universe_chains 0 (items u)) with
  | Some (h :: _) => Some h
  | _ => None
  end.

(** ** The solver's own structures *)

Record pkg_solve_item := mk_item {
  it_nitems : Z;
  it_nresolved : Z;
  it_var : nat;
  it_inverse : bool
}.

(** A clause is the list of its items from the head, the item that the
    rule references of the variables point to. *)
Definition pkg_solve_rule := list pkg_solve_item.

Record pkg_solve_variable := mk_var {
  var_unit : pkg_job_universe_item;
  var_to_install : bool;
  var_priority : Z;
  var_digest : string;
  var_uid : string;
  var_resolved : bool;
  var_rules : list nat;
  var_nrules : Z;
  var_next : option nat;
  var_prev : nat
}.

(** [rules] lists the clauses in the order of their creation, so that a
    clause keeps its number; [problem->rules], built with [LL_PREPEND], is
    this list read from its end.  [variables_by_uid] keeps the insertion
    order that [HASH_ITER] follows. *)
Record pkg_solve_problem := mk_problem {
  j : pkg_jobs;
  rules_count : Z;
  rules : list pkg_solve_rule;
  variables_by_uid : list (string * nat);
  variables : list pkg_solve_variable
}.

(** [problem->nvars] is the allocated length of [problem->variables]. *)
Definition nvars (p : pkg_solve_problem) : nat := length (variables p).

Definition set_to_install (b : bool) (v : pkg_solve_variable) :=
  mk_var (var_unit v) b (var_priority v) (var_digest v) (var_uid v)
         (var_resolved v) (var_rules v) (var_nrules v) (var_next v) (var_prev v).

Definition set_resolved (b : bool) (v : pkg_solve_variable) :=
  mk_var (var_unit v) (var_to_install v) (var_priority v) (var_digest v)
         (var_uid v) b (var_rules v) (var_nrules v) (var_next v) (var_prev v).

Definition set_rules (r : list nat) (n : Z) (v : pkg_solve_variable) :=
  mk_var (var_unit v) (var_to_install v) (var_priority v) (var_digest v)
         (var_uid v) (var_resolved v) r n (var_next v) (var_prev v).

Definition set_next (n : option nat) (v : pkg_solve_variable) :=
  mk_var (var_unit v) (var_to_install v) (var_priority v) (var_digest v)
         (var_uid v) (var_resolved v) (var_rules v) (var_nrules v) n (var_prev v).

Definition set_prev (n : nat) (v : pkg_solve_variable) :=
  mk_var (var_unit v) (var_to_install v) (var_priority v) (var_digest v)
         (var_uid v) (var_resolved v) (var_rules v) (var_nrules v) (var_next v) n.

Definition with_variables (vs : list pkg_solve_variable) (p : pkg_solve_problem) :=
  mk_problem (j p) (rules_count p) (rules p) (variables_by_uid p) vs.

Definition with_rules (rs : list pkg_solve_rule) (p : pkg_solve_problem) :=
  mk_problem (j p) (rules_count p) rs (variables_by_uid p) (variables p).

Definition with_j (j' : pkg_jobs) (p : pkg_solve_problem) :=
  mk_problem j' (rules_count p) (rules p) (variables_by_uid p) (variables p).

(** [var->to_install = b; var->resolved = true] *)
Definition assign (b : bool) (v : pkg_solve_variable) : pkg_solve_variable :=
  set_resolved true (set_to_install b v).

Definition assign_var (p : pkg_solve_problem) (var : nat) (b : bool)
  : pkg_solve_problem :=
  with_variables (alter (assign b) var (variables p)) p.

Definition is_installed (v : pkg_solve_variable) : bool :=
  pkg_t_eqb (pkg_type (un_pkg (var_unit v))) PKG_INSTALLED.

(** The head item carries the clause's [nitems] and [nresolved]. *)
Definition rule_nitems (c : pkg_solve_rule) : Z :=
  match c with [] => 0 | it :: _ => it_nitems it end.

Definition rule_nresolved (c : pkg_solve_rule) : Z :=
  match c with [] => 0 | it :: _ => it_nresolved it end.

(** A reference that leaves the table reads as the empty clause; the
    builder never makes one. *)
Definition rule_at (p : pkg_solve_problem) (r : nat) : pkg_solve_rule :=
  default [] (rules p !! r).

(** [rul->rule->nresolved ++] *)
Definition nresolved_incr (c : pkg_solve_rule) : pkg_solve_rule :=
  match c with
  | [] => []
  | it :: c' =>
      mk_item (it_nitems it) (it_nresolved it + 1) (it_var it) (it_inverse it) :: c'
  end.

(** [PKG_SOLVE_CHECK_ITEM] *)
Definition PKG_SOLVE_CHECK_ITEM (p : pkg_solve_problem) (it : pkg_solve_item) : bool :=
  match variables p !! it_var it with
  | Some v => xorb (var_to_install v) (it_inverse it)
  | None => false
  end.

Definition item_resolved (p : pkg_solve_problem) (it : pkg_solve_item) : bool :=
  match variables p !! it_var it with
  | Some v => var_resolved v
  | None => false
  end.

(** [PKG_SOLVE_VAR_NEXT(a, e)], with [None] for the null pointer and
    [Some i] for [&a[i]]: the successor of a non-null cursor is [e + 1]. *)
Definition PKG_SOLVE_VAR_NEXT (e : option nat) : option nat :=
  match e with
  | None => Some O
  | Some i => Some (S i)
  end.

Definition pkg_solve_update_var_resolved (p : pkg_solve_problem) (var : nat)
  : pkg_solve_problem :=
  match variables p !! var with
  | None => p
  | Some v =>
      with_rules
        (fold_left (fun rs r => alter nresolved_incr r rs) (var_rules v) (rules p)) p
  end.

(** [DL_APPEND] on the implication graph of a level. *)
Definition pkg_solve_add_implication_graph (graph : list nat) (var : nat) : list nat :=
  graph ++ [var].

(** ** Outcomes of the loops

    [Abort] is a failed [assert] or a dereference of the null pointer;
    [Fuel] only says that the bound given to a loop of the model was too
    small and is no behaviour of the program. *)
Inductive run (A : Type) : Type :=
| Ret (a : A)
| Abort
| Fuel.
Arguments Ret {A} a.
Arguments Abort {A}.
Arguments Fuel {A}.

Definition run_bind {A B} (m : run A) (k : A -> run B) : run B :=
  match m with
  | Ret a => k a
  | Abort => Abort
  | Fuel => Fuel
  end.

Notation "'do' x <- m ; k" := (run_bind m (fun x => k))
  (at level 10, x pattern, m at level 100, k at level 200).

(** ** Unit propagation *)

(** The inner test of both sweeps: some resolved literal of the clause holds. *)
Definition rule_has_true_item (p : pkg_solve_problem) (c : pkg_solve_rule) : bool :=
  existsb (fun it => item_resolved p it && PKG_SOLVE_CHECK_ITEM p it) c.

(** First sweep: a fully resolved clause of the variable without a true literal. *)
Definition var_has_conflict (p : pkg_solve_problem) (v : pkg_solve_variable) : bool :=
  existsb (fun r => let c := rule_at p r in
                    (rule_nresolved c =? rule_nitems c) && negb (rule_has_true_item p c))
          (var_rules v).

(** Second sweep: the first clause of the variable that is a unit. *)
Definition var_find_unit (p : pkg_solve_problem) (v : pkg_solve_variable)
  : option pkg_solve_rule :=
  List.find (fun c => (rule_nresolved c =? rule_nitems c - 1)
                      && negb (rule_has_true_item p c))
            (map (rule_at p) (var_rules v)).

Record propagation := mk_propagation {
  pr_problem : pkg_solve_problem;
  pr_propagated : option Z;
  pr_graph : option (list nat);
  pr_solved_vars : Z
}.

(** The body of the [for] loop for one variable, from the label
    [check_again]; the flag [false] is the [return (false)] of a conflict.
    [propagated] and [graph] are [None] when the caller passes [NULL]. *)
Fixpoint pkg_solve_check_again (fuel : nat) (s : propagation) (var : nat)
  : run (bool * propagation) :=
  match fuel with
  | O => Fuel
  | S fuel' =>
      let p := pr_problem s in
      match variables p !! var with
      | None => Abort
      | Some v =>
          if var_has_conflict p v then Ret (false, s)
          else
            match var_find_unit p v with
            | None => Ret (true, s)
            | Some c =>
                match List.find (fun it => negb (item_resolved p it)) c with
                | None => Abort                      (* assert(resolved > 0) *)
                | Some it =>
                    let p1 := assign_var p (it_var it) (negb (it_inverse it)) in
                    let p2 := pkg_solve_update_var_resolved p1 (it_var it) in
                    match pr_propagated s with
                    | None => Abort                  (* propagated is NULL *)
                    | Some n =>
                        pkg_solve_check_again fuel'
                          (mk_propagation p2 (Some (n + 1))
                             (option_map (fun g => pkg_solve_add_implication_graph g (it_var it))
                                         (pr_graph s))
                             (pr_solved_vars s + 1))
                          var
                    end
                end
            end
      end
  end.

(** [for (i = 0; i < problem->nvars; i ++)] over the slots [slots]. *)
Fixpoint pkg_solve_propagate_pass (fuel : nat) (s : propagation) (slots : list nat)
  : run (bool * propagation) :=
  match slots with
  | [] => Ret (true, s)
  | i :: slots' =>
      do r <- pkg_solve_check_again fuel s i;
      match r with
      | (false, s') => Ret (false, s')
      | (true, s') => pkg_solve_propagate_pass fuel s' slots'
      end
  end.

(** [do { ... } while (solved_vars > 0)] *)
Fixpoint pkg_solve_propagate_loop (fuel : nat) (s : propagation)
  : run (bool * propagation) :=
  match fuel with
  | O => Fuel
  | S fuel' =>
      let s0 := mk_propagation (pr_problem s) (pr_propagated s) (pr_graph s) 0 in
      do r <- pkg_solve_propagate_pass (S (nvars (pr_problem s))) s0
                (seq 0 (nvars (pr_problem s)));
      match r with
      | (false, s') => Ret (false, s')
      | (true, s') =>
          if 0 <? pr_solved_vars s' then pkg_solve_propagate_loop fuel' s'
          else Ret (true, s')
      end
  end.

(** Every restart of a sweep and every further pass follows an assignment
    of a variable that was unresolved, so [nvars + 1] rounds are enough. *)
Definition pkg_solve_propagate_units (p : pkg_solve_problem)
    (propagated : option Z) (graph : option (list nat)) (top_level : bool)
  : run (bool * propagation) :=
  pkg_solve_propagate_loop (S (nvars p)) (mk_propagation p propagated graph 0).

(** ** Pure clauses *)

(** One rule reference of the [LL_FOREACH] of [pkg_solve_propagate_pure]. *)
Definition pkg_solve_pure_rule (p : pkg_solve_problem) (r : nat) : pkg_solve_problem :=
  match rule_at p r with
  | [] => p
  | it :: _ =>
      if (it_nitems it =? 1) && (it_nresolved it =? 0) then
        pkg_solve_update_var_resolved
          (assign_var p (it_var it) (negb (it_inverse it))) (it_var it)
      else p
  end.

Definition pkg_solve_pure_var (p : pkg_solve_problem) (i : nat) : run pkg_solve_problem :=
  match variables p !! i with
  | None => Abort
  | Some v =>
      if var_nrules v =? 0 then
        match var_rules v with
        | [] =>
            Ret (assign_var p i (is_installed v))
        | _ :: _ => Abort                            (* assert (var->rules == NULL) *)
        end
      else Ret (fold_left pkg_solve_pure_rule (var_rules v) p)
  end.

Fixpoint pkg_solve_pure_loop (p : pkg_solve_problem) (slots : list nat)
  : run pkg_solve_problem :=
  match slots with
  | [] => Ret p
  | i :: slots' => do p' <- pkg_solve_pure_var p i; pkg_solve_pure_loop p' slots'
  end.

Definition pkg_solve_propagate_pure (p : pkg_solve_problem) : run pkg_solve_problem :=
  pkg_solve_pure_loop p (seq 0 (nvars p)).

(** ** The search *)

Definition pkg_solve_initial_guess (p : pkg_solve_problem) (v : pkg_solve_variable) : bool :=
  let u := var_unit v in
  let alone := match un_next u with None => Nat.eqb (un_prev u) (un_addr u) | Some _ => false end in
  if pkg_jobs_t_eqb (jobs_type (j p)) PKG_JOBS_UPGRADE then
    if is_installed v then alone else negb alone
  else is_installed v.

(** [DL_FOREACH_SAFE] clears [resolved] along the graph, which is then cut
    back to its head node. *)
Definition pkg_solve_undo_guess (p : pkg_solve_problem) (graph : list nat)
  : run (pkg_solve_problem * list nat) :=
  match graph with
  | [] => Abort                                      (* graph->next = NULL *)
  | head :: _ =>
      Ret (with_variables
             (fold_left (fun vs cur => alter (set_resolved false) cur vs) graph (variables p)) p,
           [head])
  end.

Record _solver_tree_elt := mk_elt {
  elt_var : nat;
  elt_guess : Z;
  elt_inverses : Z;
  elt_graph : list nat
}.

Record dpll := mk_dpll {
  d_problem : pkg_solve_problem;
  d_tree : list _solver_tree_elt;
  d_elt : option nat;
  d_tvar : option nat;
  d_backtrack : bool
}.

Definition bool_int (b : bool) : Z := if b then 1 else 0.

(** One turn of the [for] loop of [pkg_solve_sat_problem] on an unresolved
    slot [i].  The result is either the verdict of a [return] or the state
    and the counter [i] with which the loop goes on; the counter is a
    [size_t] that [i --] may wrap at zero, which the increment that always
    follows undoes, so it is an integer of [Z] here. *)
Definition pkg_solve_dpll_turn (s : dpll) (i : Z)
  : run (bool * pkg_solve_problem + dpll * Z) :=
  do (var, i, backtrack) <-
       (if d_backtrack s then
          match d_tvar s with
          | Some t => Ret (t, i - 1, false)
          | None => Abort
          end
        else Ret (Z.to_nat i, i, false));
  let ' (e, tree) :=
    match d_elt s with
    | None => (length (d_tree s), d_tree s ++ [mk_elt var (-1) 0 []])
    | Some e => (e, d_tree s)
    end in
  match tree !! e with
  | None => Abort
  | Some elt =>
      if negb (Nat.eqb var (elt_var elt)) then Abort (* assert (var == elt->var) *)
      else
        match variables (d_problem s) !! var with
        | None => Abort
        | Some v =>
            let free_var := elt_guess elt =? -1 in
            let guess := if free_var then pkg_solve_initial_guess (d_problem s) v
                         else elt_guess elt =? 0 in
            let inverses := if free_var then elt_inverses elt else elt_inverses elt + 1 in
            let p1 := assign_var (d_problem s) var guess in
            let graph := pkg_solve_add_implication_graph (elt_graph elt) var in
            do (ok, r) <- pkg_solve_propagate_units p1 None (Some graph) false;
            let finish (p : pkg_solve_problem) (g : list nat) :=
              match variables p !! var with
              | None => Abort
              | Some v' =>
                  Ret (inr (mk_dpll p
                              (<[e := mk_elt (elt_var elt) (bool_int (var_to_install v'))
                                         inverses g]> tree)
                              (if decide (S e < length tree)%nat then Some (S e) else None)
                              (d_tvar s) backtrack,
                            i + 1))
              end in
            if ok then finish (pr_problem r) (default [] (pr_graph r))
            else
              do (p2, g2) <- pkg_solve_undo_guess (pr_problem r) (default [] (pr_graph r));
              do (rc, p3, g3) <-
                   (if free_var then
                      let p2' := with_variables
                                   (alter (fun x => set_to_install (negb (var_to_install x)) x)
                                          var (variables p2)) p2 in
                      do (rc, r') <- pkg_solve_propagate_units p2' None (Some g2) false;
                      Ret (rc, pr_problem r', default [] (pr_graph r'))
                    else Ret (false, p2, g2));
              if rc then finish p3 g3
              else
                match e with
                | O => Ret (inl (false, p3))         (* elt->prev->next == NULL *)
                | S e' =>
                    match tree !! e' with
                    | None => Abort
                    | Some prev =>
                        Ret (inr (mk_dpll p3
                                    (<[e := mk_elt (elt_var elt) (-1) 0 []]> tree)
                                    (Some e') (Some (elt_var prev)) true,
                                  i + 1))
                    end
                end
        end
  end.

Fixpoint pkg_solve_dpll_loop (fuel : nat) (s : dpll) (i : Z)
  : run (bool * pkg_solve_problem) :=
  match fuel with
  | O => Fuel
  | S fuel' =>
      if i <? Z.of_nat (nvars (d_problem s)) then
        match variables (d_problem s) !! Z.to_nat i with
        | None => Abort
        | Some v =>
            if var_resolved v then pkg_solve_dpll_loop fuel' s (i + 1)
            else
              do r <- pkg_solve_dpll_turn s i;
              match r with
              | inl verdict => Ret verdict
              | inr (s', i') => pkg_solve_dpll_loop fuel' s' i'
              end
        end
      else Ret (true, d_problem s)
  end.

(** [fuel] bounds the turns of the search loop. *)
Definition pkg_solve_sat_problem (fuel : nat) (p : pkg_solve_problem)
  : run (bool * pkg_solve_problem) :=
  if rules_count p =? 0 then Ret (true, p)           (* Obvious case *)
  else
    do p1 <- pkg_solve_propagate_pure p;
    do (ok, r) <- pkg_solve_propagate_units p1 (Some 0) None true;
    if negb ok then Ret (false, pr_problem r)
    else pkg_solve_dpll_loop fuel (mk_dpll (pr_problem r) [] None None false) 0.

(** ** Building the problem *)

(** [calloc]'ed item with [var] set. *)
Definition pkg_solve_item_new (var : nat) : pkg_solve_item := mk_item 0 0 var false.

Definition item_inverse (b : bool) (it : pkg_solve_item) : pkg_solve_item :=
  mk_item (it_nitems it) (it_nresolved it) (it_var it) b.

Definition RULE_ITEM_PREPEND (rule : pkg_solve_rule) (it : pkg_solve_item) : pkg_solve_rule :=
  mk_item (match rule with [] => 1 | h :: _ => it_nitems h + 1 end)
          (it_nresolved it) (it_var it) (it_inverse it) :: rule.

(** [HASH_FIND_STR(problem->variables_by_uid, uid, var)] *)
Fixpoint hash_find_str {A} (h : list (string * A)) (uid : string) : option A :=
  match h with
  | [] => None
  | (k, v) :: h' => if String.eqb k uid then Some v else hash_find_str h' uid
  end.

(** The variables met by [LL_FOREACH(var, curvar)], following [next].  A
    chain has no more members than the table has slots. *)
Fixpoint var_chain (fuel : nat) (vs : list pkg_solve_variable) (cur : option nat)
  : list nat :=
  match fuel, cur with
  | S fuel', Some i =>
      match vs !! i with
      | Some v => i :: var_chain fuel' vs (var_next v)
      | None => []
      end
  | _, _ => []
  end.

Definition chain_from (p : pkg_solve_problem) (var : option nat) : list nat :=
  var_chain (nvars p) (variables p) var.

Definition attach_rule (rule : nat) (nrules : Z) (v : pkg_solve_variable) :=
  set_rules (rule :: var_rules v) (var_nrules v + nrules) v.

Definition pkg_solve_add_var_rules (p : pkg_solve_problem) (var : nat)
    (rule : nat) (nrules : Z) (iterate_vars : bool) : pkg_solve_problem :=
  let targets := if iterate_vars then chain_from p (Some var) else [var] in
  with_variables
    (fold_left (fun vs tvar => alter (attach_rule rule nrules) tvar vs) targets (variables p)) p.

(** [LL_PREPEND(problem->rules, rule); problem->rules_count ++], the new
    clause taking the next number. *)
Definition problem_add_rule (p : pkg_solve_problem) (rule : pkg_solve_rule)
  : pkg_solve_problem :=
  mk_problem (j p) (rules_count p + 1) (rules p ++ [rule]) (variables_by_uid p) (variables p).

(** The literals that a walk over a chain prepends to a clause. *)
Definition prepend_chain (rule : pkg_solve_rule) (chain : list nat) (inverse : bool)
  : pkg_solve_rule :=
  fold_left (fun r cur => RULE_ITEM_PREPEND r (item_inverse inverse (pkg_solve_item_new cur)))
            chain rule.

(** A provide entry is the address of a unit of the universe; an address
    that names no unit finds no chain. *)
Definition pkg_solve_handle_provide (p : pkg_solve_problem) (pr : nat)
    (rule : pkg_solve_rule) (cnt : Z) : pkg_solve_rule * Z :=
  let var := match universe_head (universe (j p)) pr with
             | Some un => hash_find_str (variables_by_uid p) (pkg_uniqueid (un_pkg un))
             | None => None
             end in
  let chain := chain_from p var in
  (prepend_chain rule chain false, cnt + Z.of_nat (length chain)).

Inductive epkg := EPKG_OK | EPKG_END | EPKG_FATAL.

Definition pkg_solve_add_depend_rule (p : pkg_solve_problem) (var : nat) (dep : string)
  : epkg * pkg_solve_problem :=
  match hash_find_str (variables_by_uid p) dep with
  | None => (EPKG_END, p)
  | Some depvar =>
      let chain := chain_from p (Some depvar) in
      let rule := prepend_chain
                    (RULE_ITEM_PREPEND [] (item_inverse true (pkg_solve_item_new var)))
                    chain false in
      let cnt := 1 + Z.of_nat (length chain) in
      let r := length (rules p) in
      let p1 := pkg_solve_add_var_rules p depvar r cnt true in
      let p2 := pkg_solve_add_var_rules p1 var r cnt false in
      (EPKG_OK, problem_add_rule p2 rule)
  end.

(** The clause [(!A | !B)] of the conflict and chain rules, attached to
    [B] and then to [A]. *)
Definition add_binary_conflict (p : pkg_solve_problem) (var curvar : nat)
  : pkg_solve_problem :=
  let rule := RULE_ITEM_PREPEND
                (RULE_ITEM_PREPEND [] (item_inverse true (pkg_solve_item_new var)))
                (item_inverse true (pkg_solve_item_new curvar)) in
  let r := length (rules p) in
  let p1 := problem_add_rule p rule in
  let p2 := pkg_solve_add_var_rules p1 curvar r 2 false in
  pkg_solve_add_var_rules p2 var r 2 false.

(** The [continue] tests of [pkg_solve_add_conflict_rule]. *)
Definition conflict_skips (t : pkg_conflict_t) (pkg_installed cur_installed : bool) : bool :=
  match t with
  | PKG_CONFLICT_REMOTE_LOCAL =>
      if pkg_installed then cur_installed else negb cur_installed
  | PKG_CONFLICT_REMOTE_REMOTE => pkg_installed || cur_installed
  | PKG_CONFLICT_ALL => false
  end.

Definition pkg_solve_add_conflict_rule (p : pkg_solve_problem) (pk : pkg) (var : nat)
    (conflict : pkg_conflict) : epkg * pkg_solve_problem :=
  match hash_find_str (variables_by_uid p) (conflict_uniqueid conflict) with
  | None => (EPKG_END, p)
  | Some confvar =>
      (EPKG_OK,
       fold_left
         (fun q curvar =>
            match variables q !! curvar with
            | None => q
            | Some cv =>
                if conflict_skips (conflict_type conflict)
                     (pkg_t_eqb (pkg_type pk) PKG_INSTALLED) (is_installed cv)
                then q
                else add_binary_conflict q var curvar
            end)
         (chain_from p (Some confvar)) p)
  end.

Definition pkg_solve_add_require_rule (p : pkg_solve_problem) (var : nat) (shlib : string)
  : pkg_solve_problem :=
  match hash_find_str (provides (universe (j p))) shlib with
  | Some prhead =>
      let '(rule, cnt) :=
        fold_left (fun rc pr => pkg_solve_handle_provide p pr (fst rc) (snd rc)) prhead
                  (RULE_ITEM_PREPEND [] (item_inverse true (pkg_solve_item_new var)), 1) in
      if 1 <? cnt then
        problem_add_rule (pkg_solve_add_var_rules p var (length (rules p)) cnt false) rule
      else p                                          (* Missing dependencies... *)
  | None => p
  end.

Definition pkg_solve_add_unary_rule (p : pkg_solve_problem) (var : nat) (inverse : bool)
  : pkg_solve_problem :=
  let rule := RULE_ITEM_PREPEND [] (item_inverse inverse (pkg_solve_item_new var)) in
  problem_add_rule (pkg_solve_add_var_rules p var (length (rules p)) 1 false) rule.

Definition pkg_solve_add_chain_rule (p : pkg_solve_problem) (var : nat) : pkg_solve_problem :=
  match variables p !! var with
  | None => p
  | Some v =>
      fold_left (fun q curvar => add_binary_conflict q var curvar)
                (chain_from p (var_next v)) p
  end.

(** [HASH_FIND_PTR] on a request table, keyed by the address of the unit. *)
Definition hash_find_ptr (h : list nat) (un : pkg_job_universe_item) : bool :=
  existsb (Nat.eqb (un_addr un)) h.

(** The body of the [LL_FOREACH(var, cur_var)] of
    [pkg_solve_process_universe_variable], with the flag [chain_added]. *)
Definition process_cur_var (s : pkg_solve_problem * bool) (cur_var : nat)
  : pkg_solve_problem * bool :=
  let '(p, chain_added) := s in
  match variables p !! cur_var with
  | None => s
  | Some v =>
      let pk := un_pkg (var_unit v) in
      let p1 := fold_left (fun q dep => snd (pkg_solve_add_depend_rule q cur_var dep))
                          (pkg_deps pk) p in
      let p2 := fold_left (fun q c => snd (pkg_solve_add_conflict_rule q pk cur_var c))
                          (pkg_conflicts pk) p1 in
      let p3 := if pkg_t_eqb (pkg_type pk) PKG_INSTALLED then p2
                else fold_left (fun q sh => pkg_solve_add_require_rule q cur_var sh)
                               (pkg_shlibs_required pk) p2 in
      let p4 := if hash_find_ptr (request_add (j p3)) (var_unit v)
                then pkg_solve_add_unary_rule p3 cur_var false else p3 in
      let p5 := if hash_find_ptr (request_delete (j p4)) (var_unit v)
                then pkg_solve_add_unary_rule p4 cur_var true else p4 in
      if negb chain_added && bool_decide (var_next v <> None)
      then (pkg_solve_add_chain_rule p5 cur_var, true)
      else (p5, chain_added)
  end.

Definition pkg_solve_process_universe_variable (p : pkg_solve_problem) (var : nat)
  : pkg_solve_problem :=
  fst (fold_left process_cur_var (chain_from p (Some var)) (p, false)).

(** [pkg_solve_variable_set] on the next free slot [n] of the table.  The
    table is filled front to back, [n] counting the slots in use; the model
    keeps the slots filled so far, which are all of them when the walk of
    the universe ends, [nvars] being the size of the universe. *)
Definition pkg_solve_variable_set (n : nat) (item : pkg_job_universe_item)
  : pkg_solve_variable :=
  mk_var item false 0 (pkg_digest (un_pkg item)) (pkg_uniqueid (un_pkg item))
         false [] 0 None n.

(** [DL_APPEND(tvar, var)] on the chain links of the table. *)
Definition DL_APPEND_var (vs : list pkg_solve_variable) (tvar var : nat)
  : list pkg_solve_variable :=
  match vs !! tvar with
  | None => vs
  | Some h =>
      let tail := var_prev h in
      let vs1 := alter (set_prev tail) var vs in
      let vs2 := alter (set_next (Some var)) tail vs1 in
      let vs3 := alter (set_prev var) tvar vs2 in
      alter (set_next None) var vs3
  end.

Definition add_variable_step (s : pkg_solve_problem * option nat)
    (ucur : pkg_job_universe_item) : pkg_solve_problem * option nat :=
  let '(p, tvar) := s in
  let n := length (variables p) in
  let var := pkg_solve_variable_set n ucur in
  let vs := variables p ++ [var] in
  match tvar with
  | None =>
      (mk_problem (j p) (rules_count p) (rules p)
                  (variables_by_uid p ++ [(var_uid var, n)]) vs, Some n)
  | Some t => (with_variables (DL_APPEND_var vs t n) p, tvar)
  end.

Definition pkg_solve_add_variable (un : list pkg_job_universe_item)
    (p : pkg_solve_problem) : pkg_solve_problem :=
  fst (fold_left add_variable_step un (p, None)).

(** The second [HASH_ITER] of [pkg_solve_jobs_to_sat]; [None] is the
    [goto err] of a unique id without a variable. *)
Fixpoint add_universe_rules (p : pkg_solve_problem)
    (uni : list (list pkg_job_universe_item)) : option pkg_solve_problem :=
  match uni with
  | [] => Some p
  | [] :: uni' => add_universe_rules p uni'
  | (un :: _) :: uni' =>
      match hash_find_str (variables_by_uid p) (pkg_uniqueid (un_pkg un)) with
      | None => None
      | Some var => add_universe_rules (pkg_solve_process_universe_variable p var) uni'
      end
  end.

(** The first [HASH_ITER] of [pkg_solve_jobs_to_sat], on the [calloc]'ed
    problem. *)
Definition add_universe_variables (jb : pkg_jobs) : pkg_solve_problem :=
  fold_left (fun q un => pkg_solve_add_variable un q)
            (universe_chains 0 (items (universe jb))) (mk_problem jb 0 [] [] []).

Definition pkg_solve_jobs_to_sat (jb : pkg_jobs) : option pkg_solve_problem :=
  add_universe_rules (add_universe_variables jb)
                     (universe_chains 0 (items (universe jb))).

(** ** Emitting the jobs *)

(** What [pkg_emit_error] is called with:
    ["internal solver error: more than two packages to install(%d) from the
    same uid: %s"] and ["cannot parse sat solver output"]. *)
Inductive event :=
| Err_more_than_two (seen_add : Z) (uid : string)
| Err_cannot_parse.

Definition is_add (v : pkg_solve_variable) : bool :=
  var_to_install v && negb (is_installed v).

Definition is_del (v : pkg_solve_variable) : bool :=
  negb (var_to_install v) && is_installed v.

Record seen := mk_seen {
  add_var : option nat;
  seen_add : Z;
  del_var : option nat;
  seen_del : Z
}.

(** The first [LL_FOREACH(var, cur_var)] of [pkg_solve_insert_res_job]. *)
Definition classify (p : pkg_solve_problem) (s : seen) (cur_var : nat) : seen :=
  match variables p !! cur_var with
  | None => s
  | Some v =>
      if is_add v then mk_seen (Some cur_var) (seen_add s + 1) (del_var s) (seen_del s)
      else if is_del v then mk_seen (add_var s) (seen_add s) (Some cur_var) (seen_del s + 1)
      else s
  end.

Definition unit_of (p : pkg_solve_problem) (var : option nat)
  : option pkg_job_universe_item :=
  match var with
  | Some i => var_unit <$> variables p !! i
  | None => None
  end.

(** [DL_APPEND(j->jobs, res); j->count ++] *)
Definition jobs_append (jb : pkg_jobs) (res : pkg_solved) : pkg_jobs :=
  mk_jobs (jobs_type jb) (universe jb) (request_add jb) (request_delete jb)
          (jobs jb ++ [res]) (count jb + 1).

(** The second [LL_FOREACH(var, cur_var)], which schedules the deletions. *)
Definition schedule_delete (p : pkg_solve_problem) (s : seen) (jb : pkg_jobs)
    (cur_var : nat) : pkg_jobs :=
  match variables p !! cur_var with
  | None => jb
  | Some v =>
      if is_del v then
        if (0 <? seen_add s) && bool_decide (Some cur_var = del_var s) then jb
        else jobs_append jb (mk_solved PKG_SOLVED_DELETE (Some (var_unit v)) None)
      else jb
  end.

Definition pkg_solve_insert_res_job (var : nat) (p : pkg_solve_problem)
  : pkg_solve_problem * list event :=
  let chain := chain_from p (Some var) in
  let s := fold_left (classify p) chain (mk_seen None 0 None 0) in
  if 1 <? seen_add s then
    (p, [Err_more_than_two (seen_add s)
           (default EmptyString (var_uid <$> variables p !! var))])
  else if negb (seen_add s =? 0) || negb (seen_del s =? 0) then
    let j1 :=
      if 0 <? seen_add s then
        if seen_del s =? 0 then
          jobs_append (j p)
            (mk_solved (if pkg_jobs_t_eqb (jobs_type (j p)) PKG_JOBS_FETCH
                        then PKG_SOLVED_FETCH else PKG_SOLVED_INSTALL)
                       (unit_of p (add_var s)) None)
        else
          jobs_append (j p)
            (mk_solved PKG_SOLVED_UPGRADE (unit_of p (add_var s)) (unit_of p (del_var s)))
      else j p in
    (with_j (fold_left (schedule_delete p s) chain j1) p, [])
  else (p, []).

(** An index outside the table, which the builder never stores, reads as a
    variable that is not resolved. *)
Definition head_resolved (p : pkg_solve_problem) (var : nat) : bool :=
  match variables p !! var with
  | Some v => var_resolved v
  | None => false
  end.

(** [HASH_ITER(hh, problem->variables_by_uid, var, tvar)] *)
Fixpoint sat_to_jobs_iter (heads : list nat) (p : pkg_solve_problem) (log : list event)
  : epkg * pkg_solve_problem * list event :=
  match heads with
  | [] => (EPKG_OK, p, log)
  | var :: heads' =>
      if negb (head_resolved p var) then (EPKG_FATAL, p, log)
      else
        let '(p', ev) := pkg_solve_insert_res_job var p in
        sat_to_jobs_iter heads' p' (log ++ ev)
  end.

Definition pkg_solve_sat_to_jobs (p : pkg_solve_problem)
  : epkg * pkg_solve_problem * list event :=
  sat_to_jobs_iter (map snd (variables_by_uid p)) p [].

(** ** Walking the variable table with [PKG_SOLVE_VAR_NEXT]

    [while ((var = PKG_SOLVE_VAR_NEXT(problem->variables, var)))] of the
    export, the import and the teardown, on the table of a problem, which
    is not null ([pkg_solve_jobs_to_sat] returns no problem when [calloc]
    fails).  [Walk_done] is the loop leaving
    through its condition, [Walk_overrun] its body reaching a slot that is
    not in the table, [Walk_fuel] the bound of the model. *)
Inductive walk :=
| Walk_done (visited : list nat)
| Walk_overrun (visited : list nat) (slot : nat)
| Walk_fuel.

Fixpoint pkg_solve_var_walk (fuel : nat) (p : pkg_solve_problem) (var : option nat)
    (visited : list nat) : walk :=
  match fuel with
  | O => Walk_fuel
  | S fuel' =>
      match PKG_SOLVE_VAR_NEXT var with
      | None => Walk_done visited
      | Some i =>
          if decide (i < nvars p)%nat
          then pkg_solve_var_walk fuel' p (Some i) (visited ++ [i])
          else Walk_overrun visited i
      end
  end.

(** The table [ordered_variables] of the import, keyed by [order]: the
    body of the walk gives the ordinals [nord->order = cur_ord ++], from 1
    on, to the slots in the order in which the cursor visits them. *)
Definition ordered_variables (visited : list nat) : list (Z * nat) :=
  imap (fun k var => (Z.of_nat k + 1, var)) visited.

(** [HASH_FIND_INT(ordered_variables, &cur_ord, nord)] *)
Fixpoint hash_find_int {A} (h : list (Z * A)) (k : Z) : option A :=
  match h with
  | [] => None
  | (k', v) :: h' => if k' =? k then Some v else hash_find_int h' k
  end.

(** ** Reading the output of an external solver *)

Definition NUL : ascii := Ascii.zero.
Definition LF : ascii := "010"%char.
Definition TAB : ascii := "009"%char.

(** The C string that starts a buffer: the bytes before the first NUL. *)
Fixpoint cstr (s : string) : string :=
  match s with
  | EmptyString => EmptyString
  | String c s' => if Ascii.eqb c NUL then EmptyString else String c (cstr s')
  end.

(** The lines that the successive calls of [getline] return, each with its
    newline when it has one. *)
Fixpoint getlines (f : string) : list string :=
  match f with
  | EmptyString => []
  | String c f' =>
      if Ascii.eqb c LF then String c EmptyString :: getlines f'
      else match getlines f' with
           | [] => [String c EmptyString]
           | l :: ls => String c l :: ls
           end
  end.

(** The tokens that the successive calls of [strsep(&begin, " \t")] return
    until [begin] is [NULL]. *)
Fixpoint strsep_tokens (s : string) : list string :=
  match s with
  | EmptyString => [EmptyString]
  | String c s' =>
      if Ascii.eqb c " "%char || Ascii.eqb c TAB then EmptyString :: strsep_tokens s'
      else match strsep_tokens s' with
           | [] => [String c EmptyString]
           | t :: ts => String c t :: ts
           end
  end.

Definition isdigit (c : ascii) : bool :=
  (48 <=? Z.of_N (N_of_ascii c)) && (Z.of_N (N_of_ascii c) <=? 57).

Fixpoint strtol_digits (acc : Z) (s : string) : Z :=
  match s with
  | EmptyString => acc
  | String c s' =>
      if isdigit c then strtol_digits (10 * acc + (Z.of_N (N_of_ascii c) - 48)) s'
      else acc
  end.

Definition LONG_MAX : Z := 2 ^ 63 - 1.
Definition LONG_MIN : Z := - 2 ^ 63.

(** [strtol(var_str, NULL, 10)] on a token that begins with a digit or with
    ['-'], for a 64-bit [long]: the digits that follow the sign, clamped. *)
Definition strtol (s : string) : Z :=
  match s with
  | String "-"%char s' => Z.max LONG_MIN (- strtol_digits 0 s')
  | _ => Z.min LONG_MAX (strtol_digits 0 s)
  end.

(** The conversion of the [long] to the [int] parameter of [abs], and [abs]
    itself, which leaves [INT_MIN] as it is. *)
Definition int_of_long (x : Z) : Z := (x + 2 ^ 31) mod 2 ^ 32 - 2 ^ 31.

Definition abs_int (x : Z) : Z := int_of_long (Z.abs x).

Definition first_char (s : string) : ascii :=
  match s with
  | EmptyString => NUL
  | String c _ => c
  end.

(** The [do ... while (begin != NULL)] loop over the tokens of a line; the
    flag of the result is [done] set by the [break]. *)
Fixpoint parse_tokens (ord : list (Z * nat)) (p : pkg_solve_problem) (toks : list string)
  : pkg_solve_problem * bool :=
  match toks with
  | [] => (p, false)
  | var_str :: toks' =>
      if negb (isdigit (first_char var_str)) && negb (Ascii.eqb (first_char var_str) "-"%char)
      then parse_tokens ord p toks'
      else
        let cur_ord := abs_int (int_of_long (strtol var_str)) in
        if cur_ord =? 0 then (p, true)
        else
          match hash_find_int ord cur_ord with
          | None => parse_tokens ord p toks'
          | Some var =>
              parse_tokens ord
                (assign_var p var (negb (Ascii.eqb (first_char var_str) "-"%char)))
                toks'
          end
  end.

Record parser := mk_parser {
  ps_problem : pkg_solve_problem;
  got_sat : bool;
  done : bool
}.

(** The body of the [getline] loop. *)
Definition parse_line (ord : list (Z * nat)) (s : parser) (buf : string) : parser :=
  let line := cstr buf in
  if String.prefix "SAT" line then mk_parser (ps_problem s) true (done s)
  else if got_sat s then
    let '(p, d) := parse_tokens ord (ps_problem s) (strsep_tokens line) in
    mk_parser p true (done s || d)
  else if String.prefix "v " line then
    let '(p, d) := parse_tokens ord (ps_problem s)
                     (strsep_tokens (String.substring 2 (String.length line - 2) line)) in
    mk_parser p false (done s || d)
  else s.

(** The import from its [getline] loop on, with the table [ord] that the
    walk before it has filled. *)
Definition parse_sat_output_lines (ord : list (Z * nat)) (f : string)
    (p : pkg_solve_problem) : epkg * pkg_solve_problem * list event :=
  let s := fold_left (parse_line ord) (getlines f) (mk_parser p false false) in
  if done s then pkg_solve_sat_to_jobs (ps_problem s)
  else (EPKG_FATAL, ps_problem s, [Err_cannot_parse]).

(** [pkg_solve_parse_sat_output] opens with the walk that orders the
    variables and reads the first line only when that walk has left through
    its condition; [fuel] bounds the walk.  The result is on the right what
    the function returns, and on the left the outcome of a walk that has
    not ended. *)
Definition pkg_solve_parse_sat_output (fuel : nat) (f : string) (p : pkg_solve_problem)
  : walk + epkg * pkg_solve_problem * list event :=
  match pkg_solve_var_walk fuel p None [] with
  | Walk_done visited => inr (parse_sat_output_lines (ordered_variables visited) f p)
  | w => inl w
  end.

(** ** Notions used by the statements *)

Definition is_walk_done (w : walk) : bool :=
  match w with Walk_done _ => true | _ => false end.

(** The import has returned to its caller. *)
Definition import_returns (r : walk + epkg * pkg_solve_problem * list event) : bool :=
  match r with inr _ => true | inl _ => false end.

(** The number of resolved variables among the literals of a clause. *)
Definition count_resolved (p : pkg_solve_problem) (c : pkg_solve_rule) : Z :=
  Z.of_nat (length (List.filter (item_resolved p) c)).


(** The literals of a clause, from its head. *)
Definition literals (c : pkg_solve_rule) : list (nat * bool) :=
  map (fun it => (it_var it, it_inverse it)) c.

(** The arities of the clauses that a variable references. *)
Definition rules_arity (rs : list pkg_solve_rule) (v : pkg_solve_variable) : Z :=
  foldr Z.add 0 (map (fun r => rule_nitems (default [] (rs !! r))) (var_rules v)).

Definition add_at (p : pkg_solve_problem) (i : nat) : bool :=
  match variables p !! i with Some v => is_add v | None => false end.

Definition del_at (p : pkg_solve_problem) (i : nat) : bool :=
  match variables p !! i with Some v => is_del v | None => false end.

(** The record of a deletion, and the members that the second walk of
    [pkg_solve_insert_res_job] schedules for deletion. *)
Definition delete_record (p : pkg_solve_problem) (i : nat) : pkg_solved :=
  mk_solved PKG_SOLVED_DELETE (unit_of p (Some i)) None.

Definition kept_del (p : pkg_solve_problem) (s : seen) (i : nat) : bool :=
  del_at p i && negb ((0 <? seen_add s) && bool_decide (Some i = del_var s)).

(** The emission of the chains of [heads], one after the other. *)
Definition emit_chains (heads : list nat) (p : pkg_solve_problem) (log : list event)
  : pkg_solve_problem * list event :=
  fold_left (fun s var => let '(p', ev) := pkg_solve_insert_res_job var (fst s) in
                          (p', snd s ++ ev))
            heads (p, log).

(** The chain members behind the provide entries of a shared library, in
    the order in which [pkg_solve_handle_provide] meets them. *)
Definition require_providers (p : pkg_solve_problem) (shlib : string) : list nat :=
  match hash_find_str (provides (universe (j p))) shlib with
  | None => []
  | Some prhead =>
      concat (map (fun pr =>
                     chain_from p
                       (match universe_head (universe (j p)) pr with
                        | Some un => hash_find_str (variables_by_uid p)
                                       (pkg_uniqueid (un_pkg un))
                        | None => None
                        end))
                  prhead)
  end.

(** A variable whose counter is the sum of the arities of the clauses
    that it references, all of them clauses of the problem. *)
Definition var_counts (rs : list pkg_solve_rule) (v : pkg_solve_variable) : Prop :=
  var_nrules v = rules_arity rs v
  /\ Forall (fun r => (r < length rs)%nat) (var_rules v).

Definition counted (p : pkg_solve_problem) : Prop :=
  Forall (var_counts (rules p)) (variables p).

(** The states of a problem from the end of clause building on: as built,
    and after each later call of the solver, of the emitter and of the
    import, the latter taken from its [getline] loop on with whatever
    table the walk before it has filled. *)
Inductive after_building : pkg_solve_problem -> Prop :=
| after_build jb p :
    pkg_solve_jobs_to_sat jb = Some p -> after_building p
| after_solve fuel p b p' :
    after_building p -> pkg_solve_sat_problem fuel p = Ret (b, p') -> after_building p'
| after_emit p e p' log :
    after_building p -> pkg_solve_sat_to_jobs p = (e, p', log) -> after_building p'
| after_import ord f p e p' log :
    after_building p -> parse_sat_output_lines ord f p = (e, p', log) ->
    after_building p'.

(** A variable none of whose clauses is a conflict or a unit for the two
    sweeps of [pkg_solve_propagate_units], and a problem all of whose
    variables are so: the propagation has nothing to do on it. *)
Definition var_quiet (p : pkg_solve_problem) (v : pkg_solve_variable) : Prop :=
  var_has_conflict p v = false /\ var_find_unit p v = None.

Definition quiet (p : pkg_solve_problem) : Prop :=
  Forall (var_quiet p) (variables p).

(** The search between two levels when no level was ever refuted. *)
Definition dpll_quiet (s : dpll) : Prop :=
  quiet (d_problem s) /\ d_elt s = None /\ d_backtrack s = false.

(** ** Scenarios *)

Module Scenario.
Local Open Scope string_scope.

Definition A_local := mk_pkg "A" "A" "1" PKG_INSTALLED [] [] [].
Definition A_local' := mk_pkg "A" "A" "0" PKG_INSTALLED [] [] [].
Definition A_remote := mk_pkg "A" "A" "2" PKG_REMOTE [] [] [].
Definition A_remote' := mk_pkg "A" "A" "3" PKG_REMOTE [] [] [].
Definition A_needs_B := mk_pkg "A" "A" "1" PKG_REMOTE ["B"] [] [].
Definition B_remote := mk_pkg "B" "B" "1" PKG_REMOTE [] [] [].
Definition A_needs_libz := mk_pkg "A" "A" "1" PKG_REMOTE [] [] ["libz"].
Definition P_remote := mk_pkg "P" "P" "1" PKG_REMOTE [] [] [].
Definition Q_remote := mk_pkg "Q" "Q" "1" PKG_REMOTE [] [] [].

Definition job (t : pkg_jobs_t) (chains : list (pkg * list pkg)) : pkg_jobs :=
  mk_jobs t (mk_universe chains []) [] [] [] 0.

(** S1: one installed package, no request. *)
Definition independent := job PKG_JOBS_INSTALL [(A_local, [])].

(** An installed package with one remote candidate. *)
Definition upgrade_one := job PKG_JOBS_UPGRADE [(A_local, [A_remote])].

(** An installed package with two remote candidates, as two repositories
    give for one unique id. *)
Definition upgrade_two := job PKG_JOBS_UPGRADE [(A_local, [A_remote; A_remote'])].

(** Two installed packages of one unique id and a remote candidate. *)
Definition replace_two := job PKG_JOBS_UPGRADE [(A_local', [A_local; A_remote])].

(** A-1 depends on B, both remote, no request. *)
Definition depends := job PKG_JOBS_INSTALL [(A_needs_B, []); (B_remote, [])].

(** S6: A requires libz, which P and Q provide. *)
Definition requires :=
  mk_jobs PKG_JOBS_INSTALL
    (mk_universe [(A_needs_libz, []); (P_remote, []); (Q_remote, [])]
                 [("libz", [1; 2]%nat)])
    [0%nat] [] [] 0.

Definition build (jb : pkg_jobs) : pkg_solve_problem :=
  default (mk_problem jb 0 [] [] []) (pkg_solve_jobs_to_sat jb).

Definition solved (jb : pkg_jobs) : pkg_solve_problem :=
  match pkg_solve_sat_problem 16 (build jb) with
  | Ret (_, p) => p
  | _ => build jb
  end.

(** An installed package with a remote candidate; the installation and
    the deletion of the installed one are both requested. *)
Definition conflicting : pkg_jobs :=
  mk_jobs PKG_JOBS_INSTALL (mk_universe [(A_local, [A_remote])] [])
    [0%nat] [0%nat] [] 0.

(** An installed package beside a remote one whose installation is
    requested. *)
Definition beside_request : pkg_jobs :=
  mk_jobs PKG_JOBS_INSTALL (mk_universe [(A_local, []); (B_remote, [])] [])
    [1%nat] [] [] 0.
End Scenario.

(** ** Notions used by the further properties *)

(** The variable that [pkg_solve_add_variable] makes of a unit once its
    chain is complete: the links of the variable are those of the unit. *)
Definition var_of_unit (u : pkg_job_universe_item) : pkg_solve_variable :=
  mk_var u false 0 (pkg_digest (un_pkg u)) (pkg_uniqueid (un_pkg u))
         false [] 0 (un_next u) (un_prev u).

(** The variables of the first units [us] of a chain laid out from slot
    [base], while the chain is being appended to. *)
Definition partial_chain (base : nat) (us : list pkg_job_universe_item)
  : list pkg_solve_variable :=
  imap (fun k u =>
          mk_var u false 0 (pkg_digest (un_pkg u)) (pkg_uniqueid (un_pkg u))
                 false [] 0
                 (if decide (S k < length us)%nat then Some (base + S k)%nat else None)
                 (match k with O => (base + length us - 1)%nat | S k' => (base + k')%nat end))
       us.

(** The entry of the unique-id index for a chain of units. *)
Definition index_entry (c : list pkg_job_universe_item) : list (string * nat) :=
  match c with
  | [] => []
  | u :: _ => [(pkg_uniqueid (un_pkg u), un_addr u)]
  end.

(** What the clause builder leaves of a problem when the rule references
    are put aside: the table without [rules] and [nrules], the unique-id
    index and the jobs. *)
Definition table (p : pkg_solve_problem)
  : list pkg_solve_variable * list (string * nat) * pkg_jobs :=
  (map (set_rules [] 0) (variables p), variables_by_uid p, j p).

(** The items of a clause numbered as [RULE_ITEM_PREPEND] numbers them:
    each item holds the number of items from itself to the end. *)
Fixpoint numbered (c : pkg_solve_rule) : Prop :=
  match c with
  | [] => True
  | it :: c' => it_nitems it = Z.of_nat (S (length c')) /\ numbered c'
  end.

(** A clause as the builder leaves it, for a table of [n] slots. *)
Definition rule_built (n : nat) (c : pkg_solve_rule) : Prop :=
  c <> [] /\ numbered c
  /\ Forall (fun it => it_nresolved it = 0 /\ (it_var it < n)%nat) c.

(** The rule references of the variable of slot [i] name clauses of the
    problem that hold a literal of that variable. *)
Definition var_mentioned (rs : list pkg_solve_rule) (i : nat) (v : pkg_solve_variable)
  : Prop :=
  Forall (fun r => exists c it, rs !! r = Some c /\ In it c /\ it_var it = i)
         (var_rules v).

Definition clauses_built (p : pkg_solve_problem) : Prop :=
  Forall (rule_built (nvars p)) (rules p)
  /\ rules_count p = Z.of_nat (length (rules p))
  /\ forall i v, variables p !! i = Some v -> var_mentioned (rules p) i v.

(** What the solver never writes: of an item everything but [nresolved],
    of a variable everything but [to_install] and [resolved], and the rest
    of the problem. *)
Definition item_frame (it : pkg_solve_item) : Z * nat * bool :=
  (it_nitems it, it_var it, it_inverse it).

Definition var_frame (v : pkg_solve_variable) : pkg_solve_variable :=
  set_resolved false (set_to_install false v).

Definition frame (p : pkg_solve_problem) :=
  (map (map item_frame) (rules p), map var_frame (variables p),
   variables_by_uid p, rules_count p, j p).

(** The sense of the first clause of one literal among the clauses that a
    variable references, in the order of its rule list. *)
Definition unary_of (rs : list pkg_solve_rule) (v : pkg_solve_variable) : option bool :=
  match List.find (fun c => rule_nitems c =? 1)
                  (map (fun r => default [] (rs !! r)) (var_rules v)) with
  | Some (it :: _) => Some (it_inverse it)
  | _ => None
  end.

(** The state in which the propagation of pure clauses leaves a variable. *)
Definition pure_seed (rs : list pkg_solve_rule) (v : pkg_solve_variable)
  : pkg_solve_variable :=
  if var_nrules v =? 0 then assign (is_installed v) v
  else match unary_of rs v with
       | Some inverse => assign (negb inverse) v
       | None => v
       end.

(** The pass of [pkg_solve_propagate_pure] before slot [k], on a problem
    that was [p0]. *)
Definition pure_before (p0 : pkg_solve_problem) (k : nat) (q : pkg_solve_problem) : Prop :=
  frame q = frame p0
  /\ (forall i, (k <= i)%nat -> variables q !! i = variables p0 !! i)
  /\ (forall i, (i < k)%nat ->
        variables q !! i = pure_seed (rules p0) <$> variables p0 !! i)
  /\ (forall r it c, rule_at q r = it :: c -> it_nitems it = 1 -> (k <= it_var it)%nat ->
        it_nresolved it = 0).

(** [q] is [p] with some of the variables that [p] leaves unresolved
    assigned. *)
Definition extends (p q : pkg_solve_problem) : Prop :=
  forall i,
    match variables p !! i with
    | Some v =>
        exists v', variables q !! i = Some v'
                   /\ (v' = v \/ (var_resolved v = false /\ exists b, v' = assign b v))
    | None => variables q !! i = None
    end.

(** The number of variables that are not resolved. *)
Definition unresolved (p : pkg_solve_problem) : nat :=
  length (List.filter (fun v => negb (var_resolved v)) (variables p)).

(** Every literal names a variable of the table. *)
Definition lits_valid (p : pkg_solve_problem) : Prop :=
  Forall (Forall (fun it => (it_var it < nvars p)%nat)) (rules p).

(** Scenarios with a request. *)
Module Requested.
(** A depends on B, both remote, and the installation of A is requested. *)
Definition depends : pkg_jobs :=
  mk_jobs PKG_JOBS_INSTALL
    (mk_universe [(Scenario.A_needs_B, []); (Scenario.B_remote, [])] [])
    [0%nat] [] [] 0.

(** An installed package whose addition and deletion are both requested. *)
Definition both : pkg_jobs :=
  mk_jobs PKG_JOBS_INSTALL (mk_universe [(Scenario.A_local, [])] [])
    [0%nat] [0%nat] [] 0.

Definition seeded (jb : pkg_jobs) : pkg_solve_problem :=
  match pkg_solve_propagate_pure (Scenario.build jb) with
  | Ret p => p
  | _ => Scenario.build jb
  end.

Definition propagated (jb : pkg_jobs) : propagation :=
  match pkg_solve_propagate_units (seeded jb) (Some 0) None true with
  | Ret (_, s) => s
  | _ => mk_propagation (seeded jb) (Some 0) None 0
  end.
End Requested.

(** What the search makes of a variable: one that the first propagation
    left unresolved takes its initial guess. *)
Definition guessed (p : pkg_solve_problem) (v : pkg_solve_variable) : pkg_solve_variable :=
  if var_resolved v then v else assign (pkg_solve_initial_guess p v) v.

(** [jb'] is [jb] with the records [added] appended and counted. *)
Definition jobs_grow (jb jb' : pkg_jobs) (added : list pkg_solved) : Prop :=
  jobs jb' = jobs jb ++ added
  /\ count jb' = count jb + Z.of_nat (length added)
  /\ jobs_type jb' = jobs_type jb /\ universe jb' = universe jb
  /\ request_add jb' = request_add jb /\ request_delete jb' = request_delete jb.

(** The chain members against which a declared conflict of a package gives
    a clause: those that the [continue] tests let through. *)
Definition conflict_kept (p : pkg_solve_problem) (pk : pkg) (conflict : pkg_conflict)
    (curvar : nat) : bool :=
  match variables p !! curvar with
  | Some cv =>
      negb (conflict_skips (conflict_type conflict)
              (pkg_t_eqb (pkg_type pk) PKG_INSTALLED) (is_installed cv))
  | None => false
  end.

(** The body of the [LL_FOREACH(confvar, curvar)] of
    [pkg_solve_add_conflict_rule]. *)
Definition conflict_step (pk : pkg) (var : nat) (conflict : pkg_conflict)
    (q : pkg_solve_problem) (curvar : nat) : pkg_solve_problem :=
  match variables q !! curvar with
  | None => q
  | Some cv =>
      if conflict_skips (conflict_type conflict)
           (pkg_t_eqb (pkg_type pk) PKG_INSTALLED) (is_installed cv)
      then q
      else add_binary_conflict q var curvar
  end.

(** A scenario with a declared conflict: the remote A conflicts with the
    unique id B, which has an installed and a remote candidate. *)
Module Conflicting.
Definition A := mk_pkg "A" "A" "1" PKG_REMOTE [] [mk_conflict "B" PKG_CONFLICT_REMOTE_LOCAL] [].
Definition B_local := mk_pkg "B" "B" "1" PKG_INSTALLED [] [] [].
Definition jb : pkg_jobs :=
  mk_jobs PKG_JOBS_INSTALL
    (mk_universe [(A, []); (B_local, [Scenario.B_remote])] []) [] [] [] 0.
End Conflicting.

(** The sense of the request on a unit, as the clause of one literal that
    the propagation of pure clauses meets first: the clause of a deletion
    is added after that of an addition, and so comes first in the rule
    list. *)
Definition requested (jb : pkg_jobs) (u : pkg_job_universe_item) : option bool :=
  if hash_find_ptr (request_delete jb) u then Some true
  else if hash_find_ptr (request_add jb) u then Some false
  else None.

(** The clauses of one literal of the variables are those that [F] tells. *)
Definition unary_is (F : nat -> pkg_job_universe_item -> option bool)
    (p : pkg_solve_problem) : Prop :=
  forall i v, variables p !! i = Some v -> unary_of (rules p) v = F i (var_unit v).

(** The variables in [seen] have the clauses of their requests, the others
    have no clause of one literal. *)
Definition unary_known (seen : list nat) (i : nat) (u : pkg_job_universe_item)
    (jb : pkg_jobs) : option bool :=
  if existsb (Nat.eqb i) seen then requested jb u else None.

(** The index names slots of the table. *)
Definition index_valid (p : pkg_solve_problem) : Prop :=
  Forall (fun e : string * nat => (snd e < nvars p)%nat) (variables_by_uid p).

(** The state of the second walk of [pkg_solve_jobs_to_sat]: the table is
    [T] and the clauses of one literal are those that [F] tells. *)
Definition building (T : list pkg_solve_variable * list (string * nat) * pkg_jobs)
    (F : nat -> pkg_job_universe_item -> option bool) (p : pkg_solve_problem) : Prop :=
  table p = T /\ index_valid p /\ counted p /\ unary_is F p.

(** The number of literals of a clause on the variable of slot [i]. *)
Definition lit_count (c : pkg_solve_rule) (i : nat) : nat :=
  length (List.filter (fun it => Nat.eqb (it_var it) i) c).

(** Every variable of the table references the clause [r] as often as the
    clause has literals on it: so do the clauses of dependencies, of
    conflicts, of chains and of requests, and not those of required shared
    libraries, which only the requiring variable references. *)
Definition rule_complete (p : pkg_solve_problem) (r : nat) : bool :=
  forallb (fun i => match variables p !! i with
                    | Some v => Nat.eqb (count_occ Nat.eq_dec (var_rules v) r)
                                        (lit_count (rule_at p r) i)
                    | None => true
                    end)
          (seq 0 (nvars p)).

(** [nresolved] of every such clause is the number of its literals whose
    variable is resolved. *)
Definition nresolved_exact (p : pkg_solve_problem) : Prop :=
  forall r, rule_complete p r = true ->
            rule_nresolved (rule_at p r) = count_resolved p (rule_at p r).

(** * Properties *)

(** ** The walk of the variable table *)

Lemma var_walk_not_done fuel p var visited :
  is_walk_done (pkg_solve_var_walk fuel p var visited) = false.
Proof.
  revert var visited. induction fuel as [|fuel IH]; intros var visited; simpl; [done|].
  destruct var as [i|]; simpl; case_decide; auto.
Qed.

Lemma var_walk_S fuel p var visited :
  pkg_solve_var_walk (S fuel) p var visited
  = match PKG_SOLVE_VAR_NEXT var with
    | None => Walk_done visited
    | Some i =>
        if decide (i < nvars p)%nat
        then pkg_solve_var_walk fuel p (Some i) (visited ++ [i])
        else Walk_overrun visited i
    end.
Proof. reflexivity. Qed.

Lemma var_walk_overrun p n :
  forall var i visited,
    PKG_SOLVE_VAR_NEXT var = Some i -> (i + n = nvars p)%nat ->
    pkg_solve_var_walk (S n) p var visited
    = Walk_overrun (visited ++ seq i n) (nvars p).
Proof.
  induction n as [|n IH]; intros var i visited Hnext Hi.
  - rewrite var_walk_S, Hnext. case_decide; [lia|].
    rewrite app_nil_r. f_equal. lia.
  - rewrite var_walk_S, Hnext. case_decide; [|lia].
    rewrite (IH (Some i) (S i) (visited ++ [i])); [|done|lia].
    by rewrite <- app_assoc.
Qed.

(** C10 (code does not meet it): the loops on [PKG_SOLVE_VAR_NEXT] never
    leave through their condition, since the macro never yields the null
    pointer; after the [nvars] slots of the table, in order, the cursor is
    moved to the slot past the end of the array and the body runs on it. *)
Theorem pkg_solve_var_walk_overruns (p : pkg_solve_problem) :
  pkg_solve_var_walk (S (nvars p)) p None []
  = Walk_overrun (seq 0 (nvars p)) (nvars p)
  /\ forall fuel var visited,
       is_walk_done (pkg_solve_var_walk fuel p var visited) = false.
Proof.
  split.
  - by rewrite (var_walk_overrun p (nvars p) None 0%nat []).
  - intros. apply var_walk_not_done.
Qed.

(** ** The solver and the emitter on small universes *)

(** C3 (code does not meet it): for an installed package with two remote
    candidates and an upgrade job, the builder emits the mutex of the head
    with each successor and none between the successors; the solver succeeds
    and both remote candidates are install candidates of the chain. *)
Theorem chain_of_three_installs_two :
  exists p p',
    pkg_solve_jobs_to_sat Scenario.upgrade_two = Some p
    /\ map literals (rules p)
       = [[(1, true); (0, true)]; [(2, true); (0, true)]]%nat
    /\ pkg_solve_sat_problem 16 p = Ret (true, p')
    /\ chain_from p' (Some 0%nat) = [0; 1; 2]%nat
    /\ List.filter (add_at p') (chain_from p' (Some 0%nat)) = [1; 2]%nat.
Proof. do 2 eexists. repeat (split; [vm_compute; reflexivity|]); vm_compute; reflexivity. Qed.

(** Against C2 as stated: the chain head of [Scenario.upgrade_two] holds two
    rule references and its [nrules] is 4. *)
Lemma nrules_counts_arity :
  exists p v,
    pkg_solve_jobs_to_sat Scenario.upgrade_two = Some p
    /\ variables p !! 0%nat = Some v
    /\ var_nrules v = 4 /\ length (var_rules v) = 2%nat.
Proof. do 2 eexists. repeat (split; [vm_compute; reflexivity|]); vm_compute; reflexivity. Qed.

(** Against C4 as stated: for two installed packages and one remote
    candidate of one unique id, the del candidates are the slots 0 and 1 in
    chain order and the upgrade record pairs the add candidate with slot 1,
    the last of them; slot 0, the first, gets the delete record. *)
Lemma upgrade_takes_last_del :
  let p := Scenario.solved Scenario.replace_two in
  let chain := chain_from p (Some 0%nat) in
  List.filter (add_at p) chain = [2%nat]
  /\ List.filter (del_at p) chain = [0; 1]%nat
  /\ map (fun r => (solved_type r, un_addr <$> solved_items0 r, un_addr <$> solved_items1 r))
         (jobs (j (fst (pkg_solve_insert_res_job 0 p))))
     = [(PKG_SOLVED_UPGRADE, Some 2, Some 1); (PKG_SOLVED_DELETE, Some 0, None)]%nat.
Proof. repeat (split; [vm_compute; reflexivity|]); vm_compute; reflexivity. Qed.

(** Against C6 as stated: the requests on [Scenario.conflicting] cannot be
    met and the solver answers false at its first propagation, with the
    head of the chain resolved by its request and the other member of the
    chain not resolved; the emitter, called on that state, schedules the
    deletion of the head and returns OK. *)
Lemma unresolved_member_not_fatal :
  exists p p' p'' v,
    pkg_solve_jobs_to_sat Scenario.conflicting = Some p
    /\ map literals (rules p)
       = [[(0, false)]; [(0, true)]; [(1, true); (0, true)]]%nat
    /\ pkg_solve_sat_problem 16 p = Ret (false, p')
    /\ map (fun x => (var_resolved x, var_to_install x)) (variables p')
       = [(true, false); (false, false)]
    /\ variables p' !! 1%nat = Some v /\ var_resolved v = false
    /\ pkg_solve_sat_to_jobs p' = (EPKG_OK, p'', [])
    /\ map (fun r => (solved_type r, un_addr <$> solved_items0 r)) (jobs (j p''))
       = [(PKG_SOLVED_DELETE, Some 0%nat)].
Proof. do 4 eexists. repeat (split; [vm_compute; reflexivity|]); vm_compute; reflexivity. Qed.

(** Against C7 as stated: with two install candidates in the chain, the
    emitter reports the error and returns OK. *)
Lemma two_candidates_not_fatal :
  let p := Scenario.solved Scenario.upgrade_two in
  List.filter (add_at p) (chain_from p (Some 0%nat)) = [1; 2]%nat
  /\ pkg_solve_sat_to_jobs p = (EPKG_OK, p, [Err_more_than_two 2 "A"]).
Proof. repeat (split; [vm_compute; reflexivity|]); vm_compute; reflexivity. Qed.

(** C5 (code does not meet it): for a universe of a single installed
    package, without dependencies, conflicts or requests, the builder makes
    one variable and no clause; the solver succeeds at once through its
    [rules_count == 0] test and leaves the variable unresolved with
    [to_install] false, although the pure-clause seed would, if it ran,
    resolve the variable (whose [nrules] is 0) to its installed state; the
    emitter adds no job record and returns FATAL, the variable being
    unresolved. *)
Theorem independent_package_left_unresolved
    (name uid digest : string) (shlibs : list string) (t : pkg_jobs_t)
    (prov : list (string * list nat)) (fuel : nat) :
  let A := mk_pkg name uid digest PKG_INSTALLED [] [] shlibs in
  let jb := mk_jobs t (mk_universe [(A, [])] prov) [] [] [] 0 in
  exists p v,
    pkg_solve_jobs_to_sat jb = Some p
    /\ rules_count p = 0 /\ variables p = [v]
    /\ var_nrules v = 0 /\ is_installed v = true
    /\ var_resolved v = false /\ var_to_install v = false
    /\ pkg_solve_sat_problem fuel p = Ret (true, p)
    /\ pkg_solve_propagate_pure p = Ret (assign_var p 0 true)
    /\ pkg_solve_sat_to_jobs p = (EPKG_FATAL, p, [])
    /\ jobs (j p) = [].
Proof.
  intros A jb.
  assert (Hb : pkg_solve_jobs_to_sat jb
               = Some (mk_problem jb 0 [] [(uid, 0%nat)]
                         [mk_var (mk_unit A 0 None 0) false 0 digest uid false [] 0 None 0])).
  { unfold pkg_solve_jobs_to_sat. cbn.
    rewrite String.eqb_refl. reflexivity. }
  do 2 eexists. split; [exact Hb|].
  repeat split; reflexivity.
Qed.

(** Beside a request the same independent package is seeded: the problem
    of [Scenario.beside_request] has the clause of the request, the seed
    runs and resolves the installed package, whose [nrules] is 0, to its
    installed state, and the emitter returns OK with the one requested
    installation. *)
Lemma independent_package_seeded_beside_request :
  exists p p' p'' v,
    pkg_solve_jobs_to_sat Scenario.beside_request = Some p
    /\ rules_count p = 1
    /\ variables p !! 0%nat = Some v /\ var_nrules v = 0 /\ is_installed v = true
    /\ pkg_solve_sat_problem 16 p = Ret (true, p')
    /\ map (fun x => (var_resolved x, var_to_install x)) (variables p')
       = [(true, true); (true, true)]
    /\ pkg_solve_sat_to_jobs p' = (EPKG_OK, p'', [])
    /\ map (fun r => (solved_type r, un_addr <$> solved_items0 r)) (jobs (j p''))
       = [(PKG_SOLVED_INSTALL, Some 1%nat)].
Proof. do 4 eexists. repeat (split; [vm_compute; reflexivity|]); vm_compute; reflexivity. Qed.

(** ** The job emitter *)

Ltac conjuncts := repeat split; first [reflexivity | lia | done].

Section Emitter.
Variable p : pkg_solve_problem.

Lemma add_del_exclusive i : add_at p i = true -> del_at p i = false.
Proof.
  unfold add_at, del_at, is_add, is_del.
  destruct (variables p !! i) as [v|]; [|done].
  destruct (var_to_install v); simpl; [done|discriminate].
Qed.

(** The bookkeeping of the first walk over a chain. *)
Lemma classify_fold chain : forall s,
  let s' := fold_left (classify p) chain s in
  seen_add s' = seen_add s + Z.of_nat (length (List.filter (add_at p) chain))
  /\ seen_del s' = seen_del s + Z.of_nat (length (List.filter (del_at p) chain))
  /\ add_var s' = from_option Some (add_var s) (last (List.filter (add_at p) chain))
  /\ del_var s' = from_option Some (del_var s) (last (List.filter (del_at p) chain)).
Proof.
  induction chain as [|x chain IH]; intros s; simpl.
  - conjuncts.
  - specialize (IH (classify p s x)). simpl in IH.
    destruct IH as (Ha & Hd & Hav & Hdv).
    rewrite Ha, Hd, Hav, Hdv. clear Ha Hd Hav Hdv.
    pose proof (add_del_exclusive x) as Hex.
    unfold classify, add_at, del_at in *.
    destruct (variables p !! x) as [v|]; simpl.
    + destruct (is_add v) eqn:Eadd.
      * rewrite (Hex eq_refl). simpl.
        rewrite last_cons. repeat split; try first [reflexivity | lia].
        by destruct (last (List.filter _ chain)).
      * destruct (is_del v) eqn:Edel; simpl.
        -- rewrite last_cons. repeat split; try first [reflexivity | lia].
           by destruct (last (List.filter _ chain)).
        -- conjuncts.
    + conjuncts.
Qed.

(** The second walk appends one deletion per scheduled member. *)
Lemma schedule_delete_fold s chain : forall jb,
  let jb' := fold_left (schedule_delete p s) chain jb in
  jobs jb' = jobs jb ++ map (delete_record p) (List.filter (kept_del p s) chain)
  /\ count jb' = count jb + Z.of_nat (length (List.filter (kept_del p s) chain))
  /\ jobs_type jb' = jobs_type jb /\ universe jb' = universe jb
  /\ request_add jb' = request_add jb /\ request_delete jb' = request_delete jb.
Proof.
  induction chain as [|x chain IH]; intros jb; simpl.
  - rewrite app_nil_r. conjuncts.
  - specialize (IH (schedule_delete p s jb x)). simpl in IH.
    destruct IH as (Hj & Hc & Ht & Hu & Hra & Hrd).
    rewrite Hj, Hc, Ht, Hu, Hra, Hrd. clear Hj Hc Ht Hu Hra Hrd.
    unfold schedule_delete, kept_del, del_at, delete_record, unit_of.
    destruct (variables p !! x) as [v|] eqn:E; simpl; rewrite ?E; simpl;
      [|conjuncts].
    destruct (is_del v); simpl; [|conjuncts].
    destruct ((0 <? seen_add s) && bool_decide (Some x = del_var s)); simpl.
    + conjuncts.
    + rewrite <- app_assoc. simpl. rewrite E. conjuncts.
Qed.
End Emitter.

Lemma insert_res_job_variables var p :
  variables (fst (pkg_solve_insert_res_job var p)) = variables p
  /\ variables_by_uid (fst (pkg_solve_insert_res_job var p)) = variables_by_uid p
  /\ rules (fst (pkg_solve_insert_res_job var p)) = rules p.
Proof.
  unfold pkg_solve_insert_res_job.
  destruct (1 <? _); [done|]. destruct (_ || _); done.
Qed.

(** The emission of a chain reads the variables only. *)
Lemma insert_res_job_same_variables var p q :
  variables q = variables p ->
  snd (pkg_solve_insert_res_job var q) = snd (pkg_solve_insert_res_job var p).
Proof.
  intros Hv. unfold pkg_solve_insert_res_job, chain_from, nvars.
  rewrite Hv.
  assert (Hc : classify q = classify p).
  { unfold classify. by rewrite Hv. }
  rewrite Hc.
  destruct (1 <? _); [done|]. destruct (_ || _); done.
Qed.

Lemma head_resolved_same_variables var p q :
  variables q = variables p -> head_resolved q var = head_resolved p var.
Proof. intros Hv. unfold head_resolved. by rewrite Hv. Qed.

Lemma emit_chains_cons var heads p log :
  emit_chains (var :: heads) p log
  = emit_chains heads (fst (pkg_solve_insert_res_job var p))
                (log ++ snd (pkg_solve_insert_res_job var p)).
Proof.
  unfold emit_chains. simpl. by destruct (pkg_solve_insert_res_job var p).
Qed.

Lemma emit_chains_variables heads : forall p log,
  variables (fst (emit_chains heads p log)) = variables p.
Proof.
  induction heads as [|h heads IH]; intros p log; [done|].
  rewrite emit_chains_cons, IH. apply insert_res_job_variables.
Qed.

Lemma sat_to_jobs_iter_ok heads : forall p log,
  Forall (fun h => head_resolved p h = true) heads ->
  sat_to_jobs_iter heads p log
  = (EPKG_OK, fst (emit_chains heads p log), snd (emit_chains heads p log)).
Proof.
  induction heads as [|h heads IH]; intros p log Hall; [done|].
  inversion Hall as [|? ? Hh Hrest]; subst.
  rewrite emit_chains_cons. simpl. rewrite Hh. simpl.
  destruct (pkg_solve_insert_res_job h p) as [p' ev] eqn:E. simpl.
  apply IH. eapply Forall_impl; [exact Hrest|].
  intros x Hx. simpl in Hx. rewrite <- Hx. apply head_resolved_same_variables.
  pose proof (insert_res_job_variables h p) as (Hv & _). by rewrite E in Hv.
Qed.

Lemma sat_to_jobs_iter_fatal before : forall h after p log,
  Forall (fun x => head_resolved p x = true) before ->
  head_resolved p h = false ->
  sat_to_jobs_iter (before ++ h :: after) p log
  = (EPKG_FATAL, fst (emit_chains before p log), snd (emit_chains before p log)).
Proof.
  induction before as [|b before IH]; intros h after p log Hall Hh.
  - simpl. by rewrite Hh.
  - inversion Hall as [|? ? Hb Hrest]; subst.
    rewrite emit_chains_cons. simpl. rewrite Hb. simpl.
    destruct (pkg_solve_insert_res_job b p) as [p' ev] eqn:E. simpl.
    pose proof (insert_res_job_variables b p) as (Hv & _). rewrite E in Hv. simpl in Hv.
    apply IH.
    + eapply Forall_impl; [exact Hrest|].
      intros x Hx. simpl in Hx. rewrite <- Hx. by apply head_resolved_same_variables.
    + rewrite <- Hh. by apply head_resolved_same_variables.
Qed.

Lemma emit_chains_log_grows heads : forall p log ev,
  In ev log -> In ev (snd (emit_chains heads p log)).
Proof.
  induction heads as [|h heads IH]; intros p log ev Hin; [done|].
  rewrite emit_chains_cons. apply IH. apply in_or_app. by left.
Qed.

Lemma emit_chains_log heads : forall p log h ev,
  In h heads -> In ev (snd (pkg_solve_insert_res_job h p)) ->
  In ev (snd (emit_chains heads p log)).
Proof.
  induction heads as [|x heads IH]; intros p log h ev Hh Hev; [done|].
  rewrite emit_chains_cons. destruct Hh as [->|Hh].
  - apply emit_chains_log_grows. apply in_or_app. by right.
  - eapply IH; [exact Hh|].
    rewrite (insert_res_job_same_variables h p); [done|].
    apply insert_res_job_variables.
Qed.

Lemma filter_andb {A} (f g : A -> bool) l :
  List.filter (fun x => f x && g x) l = List.filter g (List.filter f l).
Proof.
  induction l as [|x l IH]; [done|]. simpl.
  destruct (f x); simpl; [destruct (g x)|]; by rewrite IH.
Qed.

(** C4 (amended): for a chain with exactly one add candidate and one or
    more del candidates, the emitter appends one upgrade record whose
    [items[0]] is the add candidate and whose [items[1]] is the LAST del
    candidate in chain order, followed by a delete record for each of the
    other del candidates, in chain order. *)
Theorem pkg_solve_insert_res_job_upgrade
    (p : pkg_solve_problem) (head a d : nat) (ds : list nat) :
  List.filter (add_at p) (chain_from p (Some head)) = [a] ->
  List.filter (del_at p) (chain_from p (Some head)) = ds ++ [d] ->
  exists p',
    pkg_solve_insert_res_job head p = (p', [])
    /\ variables p' = variables p
    /\ jobs (j p')
       = jobs (j p)
         ++ mk_solved PKG_SOLVED_UPGRADE (unit_of p (Some a)) (unit_of p (Some d))
            :: map (delete_record p) (List.filter (fun i => negb (Nat.eqb i d)) ds)
    /\ count (j p')
       = count (j p) + 1
         + Z.of_nat (length (List.filter (fun i => negb (Nat.eqb i d)) ds)).
Proof.
  intros Hadd Hdel. unfold pkg_solve_insert_res_job.
  set (chain := chain_from p (Some head)) in *.
  set (s := fold_left (classify p) chain (mk_seen None 0 None 0)).
  destruct (classify_fold p chain (mk_seen None 0 None 0)) as (Ha & Hd & Hav & Hdv).
  fold s in Ha, Hd, Hav, Hdv. simpl in Ha, Hd, Hav, Hdv.
  rewrite Hadd in Ha, Hav. rewrite Hdel in Hd, Hdv.
  rewrite last_snoc in Hdv. simpl in Hav, Hdv.
  assert (Ha1 : seen_add s = 1) by (rewrite Ha; simpl; lia).
  assert (Hd1 : seen_del s = Z.of_nat (length ds) + 1)
    by (rewrite Hd, length_app; simpl; lia).
  clear Ha Hd. rename Ha1 into Ha. rename Hd1 into Hd.
  assert (Hkeep : List.filter (kept_del p s) chain
                  = List.filter (fun i => negb (Nat.eqb i d)) ds).
  { unfold kept_del. rewrite filter_andb, Hdel, List.filter_app. simpl.
    rewrite Ha, Hdv. simpl. rewrite bool_decide_eq_true_2 by done. simpl.
    rewrite app_nil_r. apply List.filter_ext. intros i.
    destruct (Nat.eqb_spec i d) as [->|Hne].
    - by rewrite bool_decide_eq_true_2.
    - rewrite bool_decide_eq_false_2; [done|]. intros [=]. done. }
  rewrite Ha, Hd, Hav, Hdv.
  replace (1 <? 1) with false by done.
  replace (negb (1 =? 0)) with true by done.
  replace (0 <? 1) with true by done.
  replace (Z.of_nat (length ds) + 1 =? 0) with false by (symmetry; apply Z.eqb_neq; lia).
  cbn [orb].
  match goal with
  | |- context [fold_left (schedule_delete p s) chain ?jb] =>
      destruct (schedule_delete_fold p s chain jb) as (Hj & Hc & _)
  end.
  eexists. split; [reflexivity|].
  change (j (with_j ?x p)) with x. change (variables (with_j ?x p)) with (variables p).
  rewrite Hj, Hc, Hkeep. cbn [jobs_append jobs count].
  split; [done|]. split; [|lia].
  by rewrite <- app_assoc.
Qed.

(** The C4 statement at [Scenario.replace_two]. *)
Lemma pkg_solve_insert_res_job_upgrade_witness :
  exists p',
    pkg_solve_insert_res_job 0 (Scenario.solved Scenario.replace_two) = (p', [])
    /\ map (fun r => (solved_type r, un_addr <$> solved_items0 r, un_addr <$> solved_items1 r))
           (jobs (j p'))
       = [(PKG_SOLVED_UPGRADE, Some 2, Some 1); (PKG_SOLVED_DELETE, Some 0, None)]%nat.
Proof.
  destruct (pkg_solve_insert_res_job_upgrade
              (Scenario.solved Scenario.replace_two) 0 2 1 [0%nat])
    as (p' & Hp & _ & Hj & _); [vm_compute; reflexivity | vm_compute; reflexivity |].
  exists p'. split; [exact Hp|]. rewrite Hj. vm_compute. reflexivity.
Defined.

(** C6 (amended): the emitter fails with FATAL exactly when the head of
    some chain, a variable of the unique-id index, is not resolved, at the
    first such head and after the records of the chains before it; the
    other members of the chains are not examined.  When all heads are
    resolved it returns OK with the records of all chains. *)
Theorem pkg_solve_sat_to_jobs_checks_heads (p : pkg_solve_problem) :
  (Forall (fun h => head_resolved p h = true) (map snd (variables_by_uid p)) ->
   pkg_solve_sat_to_jobs p
   = (EPKG_OK, fst (emit_chains (map snd (variables_by_uid p)) p []),
      snd (emit_chains (map snd (variables_by_uid p)) p [])))
  /\ (forall before h after,
        map snd (variables_by_uid p) = before ++ h :: after ->
        Forall (fun x => head_resolved p x = true) before ->
        head_resolved p h = false ->
        pkg_solve_sat_to_jobs p
        = (EPKG_FATAL, fst (emit_chains before p []), snd (emit_chains before p []))).
Proof.
  unfold pkg_solve_sat_to_jobs. split.
  - apply sat_to_jobs_iter_ok.
  - intros before h after -> Hb Hh. by apply sat_to_jobs_iter_fatal.
Qed.

(** The C6 statement at [Scenario.upgrade_one], solved and unsolved. *)
Lemma pkg_solve_sat_to_jobs_checks_heads_witness :
  fst (fst (pkg_solve_sat_to_jobs (Scenario.solved Scenario.upgrade_one))) = EPKG_OK
  /\ pkg_solve_sat_to_jobs (Scenario.build Scenario.upgrade_one)
     = (EPKG_FATAL, Scenario.build Scenario.upgrade_one, []).
Proof.
  split.
  - rewrite (proj1 (pkg_solve_sat_to_jobs_checks_heads _)); [reflexivity|].
    vm_compute. repeat constructor.
  - apply (proj2 (pkg_solve_sat_to_jobs_checks_heads
                    (Scenario.build Scenario.upgrade_one)) [] 0%nat []);
      [reflexivity | constructor | reflexivity].
Defined.

(** C7 (amended): when the chain of a head holds more than one install
    candidate, the emitter reports the internal error and emits no record
    for the chain; the call goes on with the other chains and, every head
    being resolved, returns OK. *)
Theorem pkg_solve_sat_to_jobs_skips_chain (p : pkg_solve_problem) (head : nat) :
  In head (map snd (variables_by_uid p)) ->
  (1 < length (List.filter (add_at p) (chain_from p (Some head))))%nat ->
  Forall (fun h => head_resolved p h = true) (map snd (variables_by_uid p)) ->
  let err := Err_more_than_two
               (Z.of_nat (length (List.filter (add_at p) (chain_from p (Some head)))))
               (default EmptyString (var_uid <$> variables p !! head)) in
  (forall q, variables q = variables p -> pkg_solve_insert_res_job head q = (q, [err]))
  /\ exists p' log,
       pkg_solve_sat_to_jobs p = (EPKG_OK, p', log)
       /\ In err log /\ variables p' = variables p.
Proof.
  intros Hin Hmany Hall err.
  assert (Hone : forall q, variables q = variables p ->
                           pkg_solve_insert_res_job head q = (q, [err])).
  { intros q Hv. unfold pkg_solve_insert_res_job.
    assert (Hchain : chain_from q (Some head) = chain_from p (Some head)).
    { unfold chain_from, nvars. by rewrite Hv. }
    assert (Hcl : classify q = classify p).
    { unfold classify. by rewrite Hv. }
    rewrite Hchain, Hcl.
    destruct (classify_fold p (chain_from p (Some head)) (mk_seen None 0 None 0))
      as (Ha & _).
    simpl in Ha. rewrite Ha.
    replace (1 <? _) with true by (symmetry; apply Z.ltb_lt; lia).
    rewrite Hv. reflexivity. }
  split; [exact Hone|].
  unfold pkg_solve_sat_to_jobs. rewrite sat_to_jobs_iter_ok by done.
  do 2 eexists. split; [reflexivity|]. split.
  - apply (emit_chains_log _ _ _ head); [done|].
    rewrite (Hone p eq_refl). simpl. by left.
  - apply emit_chains_variables.
Qed.

(** The C7 statement at [Scenario.upgrade_two]. *)
Lemma pkg_solve_sat_to_jobs_skips_chain_witness :
  pkg_solve_insert_res_job 0 (Scenario.solved Scenario.upgrade_two)
  = (Scenario.solved Scenario.upgrade_two, [Err_more_than_two 2 "A"])
  /\ exists p' log,
       pkg_solve_sat_to_jobs (Scenario.solved Scenario.upgrade_two) = (EPKG_OK, p', log)
       /\ In (Err_more_than_two 2 "A") log.
Proof.
  destruct (pkg_solve_sat_to_jobs_skips_chain (Scenario.solved Scenario.upgrade_two) 0)
    as (Hskip & p' & log & Hok & Hlog & _).
  - vm_compute. by left.
  - vm_compute. lia.
  - vm_compute. repeat constructor.
  - split.
    + rewrite (Hskip _ eq_refl). vm_compute. reflexivity.
    + exists p', log. split; [exact Hok|].
      revert Hlog. vm_compute. exact (fun H => H).
Defined.

(** ** Clauses under construction *)

Lemma RULE_ITEM_PREPEND_nitems rule it :
  rule_nitems (RULE_ITEM_PREPEND rule it) = rule_nitems rule + 1.
Proof. destruct rule; simpl; lia. Qed.

Lemma prepend_chain_snoc rule chain x inverse :
  prepend_chain rule (chain ++ [x]) inverse
  = RULE_ITEM_PREPEND (prepend_chain rule chain inverse)
      (item_inverse inverse (pkg_solve_item_new x)).
Proof. unfold prepend_chain. by rewrite fold_left_app. Qed.

Lemma prepend_chain_app rule c1 c2 inverse :
  prepend_chain rule (c1 ++ c2) inverse
  = prepend_chain (prepend_chain rule c1 inverse) c2 inverse.
Proof. unfold prepend_chain. by rewrite fold_left_app. Qed.

Lemma prepend_chain_nitems rule chain inverse :
  rule_nitems (prepend_chain rule chain inverse)
  = rule_nitems rule + Z.of_nat (length chain).
Proof.
  induction chain as [|x chain IH] using rev_ind; [simpl; lia|].
  rewrite prepend_chain_snoc, RULE_ITEM_PREPEND_nitems, IH, length_app. simpl. lia.
Qed.

Lemma prepend_chain_literals rule chain inverse :
  literals (prepend_chain rule chain inverse)
  = rev (map (fun x => (x, inverse)) chain) ++ literals rule.
Proof.
  induction chain as [|x chain IH] using rev_ind; [done|].
  rewrite prepend_chain_snoc, map_app, rev_app_distr. simpl.
  by rewrite <- IH.
Qed.

Lemma prepend_chain_nresolved rule chain inverse :
  rule_nresolved rule = 0 ->
  rule_nresolved (prepend_chain rule chain inverse) = 0.
Proof.
  intros H. induction chain as [|x chain IH] using rev_ind; [done|].
  by rewrite prepend_chain_snoc.
Qed.

(** The clause and the count that the walk over the provide entries of a
    shared library leaves. *)
Lemma handle_provide_fold p prhead : forall rule cnt,
  fold_left (fun rc pr => pkg_solve_handle_provide p pr (fst rc) (snd rc)) prhead (rule, cnt)
  = (prepend_chain rule
       (concat (map (fun pr =>
                       chain_from p
                         (match universe_head (universe (j p)) pr with
                          | Some un => hash_find_str (variables_by_uid p)
                                         (pkg_uniqueid (un_pkg un))
                          | None => None
                          end)) prhead)) false,
     cnt + Z.of_nat (length
       (concat (map (fun pr =>
                       chain_from p
                         (match universe_head (universe (j p)) pr with
                          | Some un => hash_find_str (variables_by_uid p)
                                         (pkg_uniqueid (un_pkg un))
                          | None => None
                          end)) prhead)))).
Proof.
  induction prhead as [|pr prhead IH]; intros rule cnt.
  - simpl. f_equal. lia.
  - simpl. unfold pkg_solve_handle_provide at 2. rewrite IH.
    rewrite prepend_chain_app, length_app. f_equal. lia.
Qed.

(** C9: a required shared library without providers adds no clause: the
    problem (rule list, [rules_count] and rule references) stays as it was.
    With providers, the clause of [!V] and of all chain members of all
    providers is added, counted, and referenced from the rule list of [V]
    alone: the table changes at the slot of [V] only. *)
Theorem pkg_solve_add_require_rule_registers
    (p : pkg_solve_problem) (var : nat) (shlib : string) :
  (require_providers p shlib = [] ->
   pkg_solve_add_require_rule p var shlib = p)
  /\ (require_providers p shlib <> [] ->
      exists c,
        rules (pkg_solve_add_require_rule p var shlib) = rules p ++ [c]
        /\ literals c
           = rev (map (fun x => (x, false)) (require_providers p shlib)) ++ [(var, true)]
        /\ rule_nitems c = 1 + Z.of_nat (length (require_providers p shlib))
        /\ rule_nresolved c = 0
        /\ rules_count (pkg_solve_add_require_rule p var shlib) = rules_count p + 1
        /\ variables (pkg_solve_add_require_rule p var shlib)
           = alter (attach_rule (length (rules p))
                      (1 + Z.of_nat (length (require_providers p shlib))))
                   var (variables p)
        /\ forall i, i <> var ->
             variables (pkg_solve_add_require_rule p var shlib) !! i = variables p !! i).
Proof.
  unfold pkg_solve_add_require_rule, require_providers.
  destruct (hash_find_str (provides (universe (j p))) shlib) as [prhead|];
    [|split; [done|congruence]].
  rewrite handle_provide_fold.
  set (providers := concat _).
  split.
  - intros ->. simpl. by destruct p.
  - intros Hne.
    assert (Hlen : (1 <? 1 + Z.of_nat (length providers)) = true).
    { apply Z.ltb_lt. destruct providers; [done|]. simpl. lia. }
    rewrite Hlen. eexists. split; [reflexivity|].
    split; [by rewrite prepend_chain_literals|].
    split; [rewrite prepend_chain_nitems; simpl; lia|].
    split; [by apply prepend_chain_nresolved|].
    split; [reflexivity|].
    split; [reflexivity|].
    intros i Hi. simpl. by rewrite list_lookup_alter_ne.
Qed.

(** The C9 statement without and with providers. *)
Lemma pkg_solve_add_require_rule_registers_witness :
  pkg_solve_add_require_rule (Scenario.build Scenario.depends) 0 "libz"
  = Scenario.build Scenario.depends
  /\ exists c,
       rules (pkg_solve_add_require_rule
                (add_universe_variables Scenario.requires) 0 "libz") = [c]
       /\ literals c = [(2, false); (1, false); (0, true)]%nat
       /\ map var_rules
              (variables (pkg_solve_add_require_rule
                            (add_universe_variables Scenario.requires) 0 "libz"))
          = [[0%nat]; []; []].
Proof.
  split.
  - apply (proj1 (pkg_solve_add_require_rule_registers
                    (Scenario.build Scenario.depends) 0 "libz")).
    reflexivity.
  - destruct (proj2 (pkg_solve_add_require_rule_registers
                       (add_universe_variables Scenario.requires) 0 "libz"))
      as (c & Hr & Hl & _ & _ & _ & Hv & _); [vm_compute; discriminate|].
    exists c. split; [exact Hr|]. split; [rewrite Hl; reflexivity|].
    rewrite Hv. reflexivity.
Defined.

(** ** The rule references and [nrules] *)

Lemma var_counts_weaken rs c v : var_counts rs v -> var_counts (rs ++ [c]) v.
Proof.
  intros [Hn Hr]. split.
  - rewrite Hn. unfold rules_arity. f_equal.
    apply map_ext_in. intros r Hin.
    rewrite Forall_forall in Hr.
    rewrite lookup_app_l; [done|]. apply Hr. by apply list_elem_of_In.
  - eapply Forall_impl; [exact Hr|]. intros r Hlt. simpl in *.
    rewrite length_app. simpl. lia.
Qed.

Lemma var_counts_attach rs c n v :
  rule_nitems c = n ->
  var_counts (rs ++ [c]) v ->
  var_counts (rs ++ [c]) (attach_rule (length rs) n v).
Proof.
  intros Hc [Hn Hr]. split.
  - unfold rules_arity in *. cbn [attach_rule set_rules var_rules var_nrules map foldr].
    rewrite Hn, lookup_app_r by done. rewrite Nat.sub_diag. simpl. lia.
  - simpl. constructor; [|done]. rewrite length_app. simpl. lia.
Qed.

Lemma Forall_fold_alter {A} (P : A -> Prop) (f : A -> A) ts : forall vs,
  (forall v, P v -> P (f v)) ->
  Forall P vs -> Forall P (fold_left (fun l t => alter f t l) ts vs).
Proof.
  induction ts as [|t ts IH]; intros vs Hf Hvs; [done|].
  simpl. apply IH; [done|]. apply Forall_alter; auto.
Qed.

(** Attaching a new clause of arity [n] to the variables [ts]. *)
Lemma counted_attach rs vs c n ts :
  rule_nitems c = n ->
  Forall (var_counts rs) vs ->
  Forall (var_counts (rs ++ [c]))
         (fold_left (fun l t => alter (attach_rule (length rs) n) t l) ts vs).
Proof.
  intros Hc Hvs. apply Forall_fold_alter.
  - intros v. by apply var_counts_attach.
  - eapply Forall_impl; [exact Hvs|]. intros v. apply var_counts_weaken.
Qed.

Lemma counted_add_depend p var dep :
  counted p -> counted (snd (pkg_solve_add_depend_rule p var dep)).
Proof.
  intros Hp. unfold pkg_solve_add_depend_rule.
  destruct (hash_find_str _ _) as [depvar|]; [|done].
  unfold counted, problem_add_rule, pkg_solve_add_var_rules.
  cbn [snd rules variables with_variables].
  rewrite <- fold_left_app. apply counted_attach; [|done].
  rewrite prepend_chain_nitems, RULE_ITEM_PREPEND_nitems. simpl. lia.
Qed.

Lemma counted_add_binary_conflict p var curvar :
  counted p -> counted (add_binary_conflict p var curvar).
Proof.
  intros Hp. unfold counted, add_binary_conflict, problem_add_rule,
    pkg_solve_add_var_rules.
  cbn [rules variables with_variables].
  rewrite <- fold_left_app. by apply counted_attach.
Qed.

Lemma counted_fold {A} (f : pkg_solve_problem -> A -> pkg_solve_problem) xs :
  (forall q x, counted q -> counted (f q x)) ->
  forall p, counted p -> counted (fold_left f xs p).
Proof.
  intros Hf. induction xs as [|x xs IH]; intros p Hp; [done|].
  simpl. apply IH. by apply Hf.
Qed.

Lemma counted_add_conflict p pk var conflict :
  counted p -> counted (snd (pkg_solve_add_conflict_rule p pk var conflict)).
Proof.
  intros Hp. unfold pkg_solve_add_conflict_rule.
  destruct (hash_find_str _ _) as [confvar|]; [|done]. simpl.
  apply counted_fold; [|done]. intros q x Hq.
  destruct (variables q !! x); [|done].
  destruct (conflict_skips _ _ _); [done|]. by apply counted_add_binary_conflict.
Qed.

Lemma counted_add_require p var shlib :
  counted p -> counted (pkg_solve_add_require_rule p var shlib).
Proof.
  intros Hp. unfold pkg_solve_add_require_rule.
  destruct (hash_find_str _ _) as [prhead|]; [|done].
  rewrite handle_provide_fold.
  destruct (1 <? _); [|done].
  unfold counted, problem_add_rule, pkg_solve_add_var_rules.
  cbn [rules variables with_variables].
  apply counted_attach; [|done].
  rewrite prepend_chain_nitems, RULE_ITEM_PREPEND_nitems. simpl. lia.
Qed.

Lemma counted_add_unary p var inverse :
  counted p -> counted (pkg_solve_add_unary_rule p var inverse).
Proof.
  intros Hp. unfold counted, pkg_solve_add_unary_rule, problem_add_rule,
    pkg_solve_add_var_rules.
  cbn [rules variables with_variables].
  by apply counted_attach.
Qed.

Lemma counted_add_chain p var :
  counted p -> counted (pkg_solve_add_chain_rule p var).
Proof.
  intros Hp. unfold pkg_solve_add_chain_rule.
  destruct (variables p !! var); [|done].
  apply counted_fold; [|done]. intros q x Hq. by apply counted_add_binary_conflict.
Qed.

Lemma counted_process_cur_var s cur_var :
  counted (fst s) -> counted (fst (process_cur_var s cur_var)).
Proof.
  destruct s as [p added]. simpl. intros Hp.
  destruct (variables p !! cur_var) as [v|]; [|done].
  set (p1 := fold_left _ (pkg_deps _) p).
  assert (H1 : counted p1).
  { apply counted_fold; [|done]. intros q x Hq. by apply counted_add_depend. }
  clearbody p1.
  set (p2 := fold_left _ (pkg_conflicts _) p1).
  assert (H2 : counted p2).
  { apply counted_fold; [|done]. intros q x Hq. by apply counted_add_conflict. }
  clearbody p2.
  set (p3 := if pkg_t_eqb _ _ then p2 else _).
  assert (H3 : counted p3).
  { subst p3. destruct (pkg_t_eqb _ _); [done|].
    apply counted_fold; [|done]. intros q x Hq. by apply counted_add_require. }
  clearbody p3.
  set (p4 := if hash_find_ptr (request_add _) _ then _ else p3).
  assert (H4 : counted p4).
  { subst p4. destruct (hash_find_ptr _ _); [|done]. by apply counted_add_unary. }
  clearbody p4.
  set (p5 := if hash_find_ptr (request_delete _) _ then _ else p4).
  assert (H5 : counted p5).
  { subst p5. destruct (hash_find_ptr _ _); [|done]. by apply counted_add_unary. }
  clearbody p5.
  destruct (_ && _); simpl; [|done]. by apply counted_add_chain.
Qed.

Lemma counted_process_universe_variable p var :
  counted p -> counted (pkg_solve_process_universe_variable p var).
Proof.
  intros Hp. unfold pkg_solve_process_universe_variable.
  generalize (chain_from p (Some var)). intros chain.
  assert (H : counted (fst (p, false))) by done.
  revert H. generalize (p, false). clear.
  induction chain as [|x chain IH]; intros s Hs; [done|].
  simpl. apply IH. by apply counted_process_cur_var.
Qed.

Lemma counted_add_universe_rules uni : forall p p',
  counted p -> add_universe_rules p uni = Some p' -> counted p'.
Proof.
  induction uni as [|[|un c] uni IH]; intros p p' Hp Hr; simpl in Hr.
  - by injection Hr as <-.
  - by eapply IH.
  - destruct (hash_find_str _ _) as [var|]; [|done].
    eapply IH; [|exact Hr]. by apply counted_process_universe_variable.
Qed.

Lemma var_counts_links rs v n m :
  var_counts rs v -> var_counts rs (set_prev n v) /\ var_counts rs (set_next m v).
Proof. intros H. split; exact H. Qed.

Lemma counted_add_variable_step s ucur :
  counted (fst s) -> counted (fst (add_variable_step s ucur)).
Proof.
  destruct s as [p tvar]. simpl. intros Hp.
  assert (Hnew : Forall (var_counts (rules p))
                   (variables p ++ [pkg_solve_variable_set (length (variables p)) ucur])).
  { apply Forall_app. split; [done|]. constructor; [|done]. split; [done|]. constructor. }
  destruct tvar as [t|]; [|done].
  unfold counted. simpl. unfold DL_APPEND_var.
  destruct (_ !! t); [|done].
  repeat apply Forall_alter; try done; intros x _ Hx; by apply var_counts_links.
Qed.

Lemma counted_add_variable un p :
  counted p -> counted (pkg_solve_add_variable un p).
Proof.
  intros Hp. unfold pkg_solve_add_variable.
  assert (H : counted (fst (p, @None nat))) by done.
  revert H. generalize (p, @None nat). clear.
  induction un as [|x un IH]; intros s Hs; [done|].
  simpl. apply IH. by apply counted_add_variable_step.
Qed.

Lemma counted_jobs_to_sat jb p :
  pkg_solve_jobs_to_sat jb = Some p -> counted p.
Proof.
  unfold pkg_solve_jobs_to_sat. apply counted_add_universe_rules.
  unfold add_universe_variables.
  apply counted_fold; [|by constructor].
  intros q x Hq. by apply counted_add_variable.
Qed.

(** ** The counters of references while solving *)

Lemma counted_alter_var p f i :
  (forall rs v, var_counts rs v -> var_counts rs (f v)) ->
  counted p -> counted (with_variables (alter f i (variables p)) p).
Proof.
  intros Hf Hp. unfold counted. cbn [rules variables with_variables].
  apply Forall_alter; [done|]. intros x _. apply Hf.
Qed.

Lemma counted_assign_var p i b : counted p -> counted (assign_var p i b).
Proof. apply counted_alter_var. intros rs v H. exact H. Qed.

Lemma rule_nitems_incr o :
  rule_nitems (default [] (nresolved_incr <$> o)) = rule_nitems (default [] o).
Proof. by destruct o as [[|it c]|]. Qed.

Lemma var_counts_incr rs r v :
  var_counts rs v -> var_counts (alter nresolved_incr r rs) v.
Proof.
  intros [Hn Hr]. split.
  - rewrite Hn. unfold rules_arity. f_equal. apply map_ext. intros k.
    rewrite list_lookup_alter. case_decide; [subst|done].
    by rewrite rule_nitems_incr.
  - by rewrite length_alter.
Qed.

Lemma counted_update_var_resolved p i :
  counted p -> counted (pkg_solve_update_var_resolved p i).
Proof.
  intros Hp. unfold pkg_solve_update_var_resolved.
  destruct (variables p !! i) as [v|]; [|done].
  unfold counted in *. cbn [rules variables with_rules].
  revert Hp. generalize (rules p). generalize (variables p). intros vs.
  induction (var_rules v) as [|r l IH]; intros rs Hrs; [done|].
  simpl. apply IH. eapply Forall_impl; [exact Hrs|].
  intros x. apply var_counts_incr.
Qed.

Lemma counted_check_again fuel : forall s var b s',
  pkg_solve_check_again fuel s var = Ret (b, s') ->
  counted (pr_problem s) -> counted (pr_problem s').
Proof.
  induction fuel as [|fuel IH]; intros s var b s' Hr Hp; [done|].
  simpl in Hr.
  destruct (variables (pr_problem s) !! var) as [v|]; [|done].
  destruct (var_has_conflict _ _); [by injection Hr as <- <-|].
  destruct (var_find_unit _ _) as [c|]; [|by injection Hr as <- <-].
  destruct (List.find _ c) as [it|]; [|done].
  destruct (pr_propagated s) as [n|]; [|done].
  apply IH in Hr; [done|]. cbn [pr_problem].
  by apply counted_update_var_resolved, counted_assign_var.
Qed.

Lemma counted_propagate_pass fuel slots : forall s b s',
  pkg_solve_propagate_pass fuel s slots = Ret (b, s') ->
  counted (pr_problem s) -> counted (pr_problem s').
Proof.
  induction slots as [|i slots IH]; intros s b s' Hr Hp.
  - by injection Hr as <- <-.
  - simpl in Hr.
    destruct (pkg_solve_check_again fuel s i) as [[[] s1]| |] eqn:E; try done;
      simpl in Hr; apply counted_check_again in E; try done.
    + by eapply IH.
    + by injection Hr as <- <-.
Qed.

Lemma counted_propagate_loop fuel : forall s b s',
  pkg_solve_propagate_loop fuel s = Ret (b, s') ->
  counted (pr_problem s) -> counted (pr_problem s').
Proof.
  induction fuel as [|fuel IH]; intros s b s' Hr Hp; [done|].
  simpl in Hr.
  destruct (pkg_solve_propagate_pass _ _ _) as [[[] s1]| |] eqn:E; try done;
    simpl in Hr; apply counted_propagate_pass in E; try done.
  - destruct (0 <? pr_solved_vars s1).
    + by eapply IH.
    + by injection Hr as <- <-.
  - by injection Hr as <- <-.
Qed.

Lemma counted_propagate_units p propagated graph top b s' :
  pkg_solve_propagate_units p propagated graph top = Ret (b, s') ->
  counted p -> counted (pr_problem s').
Proof. intros Hr Hp. by eapply counted_propagate_loop in Hr. Qed.

Lemma counted_pure_rule p r : counted p -> counted (pkg_solve_pure_rule p r).
Proof.
  intros Hp. unfold pkg_solve_pure_rule.
  destruct (rule_at p r) as [|it c]; [done|].
  destruct (_ && _); [|done].
  by apply counted_update_var_resolved, counted_assign_var.
Qed.

Lemma counted_pure_loop slots : forall p p',
  pkg_solve_pure_loop p slots = Ret p' -> counted p -> counted p'.
Proof.
  induction slots as [|i slots IH]; intros p p' Hr Hp.
  - by injection Hr as <-.
  - simpl in Hr.
    destruct (pkg_solve_pure_var p i) as [p1| |] eqn:E; try done. simpl in Hr.
    eapply IH; [exact Hr|]. unfold pkg_solve_pure_var in E.
    destruct (variables p !! i) as [v|]; [|done].
    destruct (var_nrules v =? 0).
    + destruct (var_rules v); [|done]. injection E as <-.
      by apply counted_assign_var.
    + injection E as <-. clear Hr.
      revert p Hp. induction (var_rules v) as [|r l IHl]; intros p Hp; [done|].
      simpl. apply IHl. by apply counted_pure_rule.
Qed.

Lemma counted_undo_guess p graph p' graph' :
  pkg_solve_undo_guess p graph = Ret (p', graph') -> counted p -> counted p'.
Proof.
  unfold pkg_solve_undo_guess. destruct graph as [|h g]; [done|].
  intros [= <- <-] Hp. unfold counted in *.
  unfold with_variables. cbn [rules variables].
  apply (Forall_fold_alter _ (set_resolved false) (h :: g)); [|done].
  intros v H. exact H.
Qed.

Lemma counted_dpll_turn s i r :
  pkg_solve_dpll_turn s i = Ret r ->
  counted (d_problem s) ->
  match r with
  | inl (_, p') => counted p'
  | inr (s', _) => counted (d_problem s')
  end.
Proof.
  unfold pkg_solve_dpll_turn. intros Hr Hp.
  destruct (if d_backtrack s then _ else _) as [[[var i'] bt]| |]; try done.
  simpl in Hr.
  destruct (match d_elt s with Some _ => _ | None => _ end) as [e tree].
  destruct (tree !! e) as [elt|]; [|done].
  destruct (negb _); [done|].
  destruct (variables (d_problem s) !! var) as [v|]; [|done].
  set (p1 := assign_var _ _ _) in Hr.
  assert (H1 : counted p1) by by apply counted_assign_var.
  clearbody p1.
  destruct (pkg_solve_propagate_units p1 _ _ _) as [[ok r1]| |] eqn:E1; try done.
  apply counted_propagate_units in E1; [|done]. simpl in Hr.
  destruct ok.
  - destruct (variables (pr_problem r1) !! var); [|done]. by injection Hr as <-.
  - destruct (pkg_solve_undo_guess _ _) as [[p2 g2]| |] eqn:E2; try done.
    apply counted_undo_guess in E2; [|done]. simpl in Hr.
    destruct (elt_guess elt =? -1).
    + set (p2' := with_variables _ p2) in Hr.
      assert (H2 : counted p2').
      { apply counted_alter_var; [|done]. intros rs x H. exact H. }
      clearbody p2'.
      destruct (pkg_solve_propagate_units p2' _ _ _) as [[rc r3]| |] eqn:E3; try done.
      apply counted_propagate_units in E3; [|done]. simpl in Hr.
      destruct rc.
      * destruct (variables (pr_problem r3) !! var); [|done]. by injection Hr as <-.
      * destruct e as [|e']; [by injection Hr as <-|].
        destruct (tree !! e'); [|done]. by injection Hr as <-.
    + simpl in Hr. destruct e as [|e']; [by injection Hr as <-|].
      destruct (tree !! e'); [|done]. by injection Hr as <-.
Qed.

Lemma counted_dpll_loop fuel : forall s i b p',
  pkg_solve_dpll_loop fuel s i = Ret (b, p') ->
  counted (d_problem s) -> counted p'.
Proof.
  induction fuel as [|fuel IH]; intros s i b p' Hr Hp; [done|].
  simpl in Hr. destruct (i <? _); [|by injection Hr as <- <-].
  destruct (variables (d_problem s) !! Z.to_nat i) as [v|]; [|done].
  destruct (var_resolved v); [by eapply IH|].
  destruct (pkg_solve_dpll_turn s i) as [r| |] eqn:E; try done. simpl in Hr.
  apply counted_dpll_turn in E; [|done].
  destruct r as [[b1 p1]|[s1 i1]].
  - by injection Hr as <- <-.
  - by eapply IH.
Qed.

Lemma counted_sat_problem fuel p b p' :
  pkg_solve_sat_problem fuel p = Ret (b, p') -> counted p -> counted p'.
Proof.
  unfold pkg_solve_sat_problem. intros Hr Hp.
  destruct (rules_count p =? 0); [by injection Hr as <- <-|].
  destruct (pkg_solve_propagate_pure p) as [p1| |] eqn:E1; try done.
  apply counted_pure_loop in E1; [|done]. simpl in Hr.
  destruct (pkg_solve_propagate_units p1 _ _ _) as [[ok r]| |] eqn:E2; try done.
  apply counted_propagate_units in E2; [|done]. simpl in Hr.
  destruct ok; simpl in Hr.
  - by eapply counted_dpll_loop in Hr.
  - by injection Hr as <- <-.
Qed.

Lemma counted_same p q :
  variables q = variables p -> rules q = rules p -> counted p -> counted q.
Proof. unfold counted. by intros -> ->. Qed.

Lemma counted_sat_to_jobs_iter heads : forall p log e p' log',
  sat_to_jobs_iter heads p log = (e, p', log') -> counted p -> counted p'.
Proof.
  induction heads as [|h heads IH]; intros p log e p' log' Hr Hp.
  - by injection Hr as <- <- <-.
  - simpl in Hr. destruct (negb _); [by injection Hr as <- <- <-|].
    destruct (pkg_solve_insert_res_job h p) as [p1 ev] eqn:E.
    eapply IH; [exact Hr|].
    pose proof (insert_res_job_variables h p) as (Hv & _ & Hrs).
    rewrite E in Hv, Hrs. by eapply counted_same.
Qed.

Lemma counted_parse_tokens ord toks : forall p,
  counted p -> counted (fst (parse_tokens ord p toks)).
Proof.
  induction toks as [|tok toks IH]; intros p Hp; [done|].
  simpl. destruct (_ && _); [by apply IH|].
  destruct (_ =? 0); [done|].
  destruct (hash_find_int _ _); [|by apply IH].
  by apply IH, counted_assign_var.
Qed.

Lemma counted_parse_lines ord lines : forall s,
  counted (ps_problem s) -> counted (ps_problem (fold_left (parse_line ord) lines s)).
Proof.
  induction lines as [|buf lines IH]; intros s Hs; [done|].
  simpl. apply IH. unfold parse_line.
  destruct (String.prefix "SAT" _); [done|].
  destruct (got_sat s).
  - destruct (parse_tokens _ _) as [q d] eqn:E.
    pose proof (counted_parse_tokens ord (strsep_tokens (cstr buf)) _ Hs) as H.
    by rewrite E in H.
  - destruct (String.prefix "v " _); [|done].
    destruct (parse_tokens _ _) as [q d] eqn:E.
    match type of E with parse_tokens _ _ ?t = _ =>
      pose proof (counted_parse_tokens ord t _ Hs) as H end.
    by rewrite E in H.
Qed.

Lemma counted_parse_sat_output ord f p e p' log :
  parse_sat_output_lines ord f p = (e, p', log) -> counted p -> counted p'.
Proof.
  unfold parse_sat_output_lines. intros Hr Hp.
  pose proof (counted_parse_lines ord (getlines f) (mk_parser p false false) Hp) as H.
  destruct (done _).
  - by eapply counted_sat_to_jobs_iter in Hr.
  - by injection Hr as <- <- <-.
Qed.

Lemma counted_after_building p : after_building p -> counted p.
Proof.
  induction 1 as [jb p Hb|fuel p b p' _ IH Hs|p e p' log _ IH He|ord f p e p' log _ IH Hi].
  - by eapply counted_jobs_to_sat.
  - by eapply counted_sat_problem.
  - by eapply counted_sat_to_jobs_iter.
  - by eapply counted_parse_sat_output.
Qed.

(** C2 (amended): from the end of clause building on (as built, and after
    every later call of the solver, of the emitter and of the import),
    [nrules] of every variable is the sum of the arities of the clauses
    that its rule list references; to attach a clause adds one reference to
    the rule list and adds the arity of the clause, which the callers pass
    as [nrules] (1 for a request, 2 for a conflict or chain clause, the
    number of literals otherwise), to the counter. *)
Theorem nrules_is_sum_of_arities (p : pkg_solve_problem) :
  after_building p ->
  forall i v,
    variables p !! i = Some v ->
    var_nrules v = rules_arity (rules p) v
    /\ forall r n,
         exists v',
           variables (pkg_solve_add_var_rules p i r n false) !! i = Some v'
           /\ var_rules v' = r :: var_rules v
           /\ var_nrules v' = var_nrules v + n.
Proof.
  intros Hb i v Hv.
  pose proof (counted_after_building _ Hb) as Hc.
  unfold counted in Hc. rewrite Forall_forall in Hc.
  destruct (Hc v) as [Hn _]; [by eapply list_elem_of_lookup_2|].
  split; [exact Hn|]. intros r n.
  exists (attach_rule r n v). split; [|done].
  unfold pkg_solve_add_var_rules. cbn [variables with_variables fold_left].
  by rewrite list_lookup_alter_eq, Hv.
Qed.

(** The C2 statement on the chain head of [Scenario.upgrade_two] after the
    solver: two references, both to binary clauses. *)
Lemma nrules_is_sum_of_arities_witness :
  exists v,
    variables (Scenario.solved Scenario.upgrade_two) !! 0%nat = Some v
    /\ var_nrules v = 4
    /\ rules_arity (rules (Scenario.solved Scenario.upgrade_two)) v = 4
    /\ length (var_rules v) = 2%nat.
Proof.
  assert (Hb : pkg_solve_jobs_to_sat Scenario.upgrade_two
               = Some (Scenario.build Scenario.upgrade_two))
    by (vm_compute; reflexivity).
  assert (Hs : pkg_solve_sat_problem 16 (Scenario.build Scenario.upgrade_two)
               = Ret (true, Scenario.solved Scenario.upgrade_two))
    by (vm_compute; reflexivity).
  eexists. split; [vm_compute; reflexivity|].
  match goal with
  | |- var_nrules ?v = _ /\ _ =>
      assert (Hv : variables (Scenario.solved Scenario.upgrade_two) !! 0%nat = Some v)
        by (vm_compute; reflexivity);
      destruct (nrules_is_sum_of_arities (Scenario.solved Scenario.upgrade_two)
                  (after_solve 16 _ true _ (after_build _ _ Hb) Hs) 0%nat v Hv)
        as [Hn _]
  end.
  split; [vm_compute; reflexivity|].
  split; [rewrite <- Hn; vm_compute; reflexivity|].
  vm_compute. reflexivity.
Defined.

(** ** The import of an assignment *)

Lemma var_walk_overrun_more p n k :
  forall var i visited,
    PKG_SOLVE_VAR_NEXT var = Some i -> (i + n = nvars p)%nat ->
    pkg_solve_var_walk (S n + k) p var visited
    = Walk_overrun (visited ++ seq i n) (nvars p).
Proof.
  induction n as [|n IH]; intros var i visited Hnext Hi.
  - change (S 0 + k)%nat with (S k). rewrite var_walk_S, Hnext. case_decide; [lia|].
    rewrite app_nil_r. f_equal. lia.
  - change (S (S n) + k)%nat with (S (S n + k)).
    rewrite var_walk_S, Hnext. case_decide; [|lia].
    rewrite (IH (Some i) (S i) (visited ++ [i])); [|done|lia].
    by rewrite <- app_assoc.
Qed.

(** C8 (code does not meet it): the import does not come to read a line.
    Whatever the problem and the output of the solver, the walk that orders
    the variables visits the [nvars] slots of the table and moves its
    cursor past the end of the array, and with no bound does the import
    return: no token is read, no variable is assigned, no error is
    reported and no job is emitted. *)
Theorem pkg_solve_parse_sat_output_reads_nothing (f : string) (p : pkg_solve_problem) :
  (forall k,
     pkg_solve_parse_sat_output (S (nvars p) + k) f p
     = inl (Walk_overrun (seq 0 (nvars p)) (nvars p)))
  /\ forall fuel, import_returns (pkg_solve_parse_sat_output fuel f p) = false.
Proof.
  split.
  - intros k. unfold pkg_solve_parse_sat_output.
    by rewrite (var_walk_overrun_more p (nvars p) k None 0%nat []).
  - intros fuel. unfold pkg_solve_parse_sat_output.
    pose proof (var_walk_not_done fuel p None []) as H.
    by destruct (pkg_solve_var_walk fuel p None []).
Qed.

(** ** The search after the top-level propagation *)

Lemma check_again_quiet fuel s var v :
  variables (pr_problem s) !! var = Some v ->
  var_quiet (pr_problem s) v ->
  pkg_solve_check_again (S fuel) s var = Ret (true, s).
Proof. intros Hv [Hc Hu]. simpl. by rewrite Hv, Hc, Hu. Qed.

Lemma propagate_pass_quiet fuel s slots :
  quiet (pr_problem s) ->
  Forall (fun i => (i < nvars (pr_problem s))%nat) slots ->
  pkg_solve_propagate_pass (S fuel) s slots = Ret (true, s).
Proof.
  intros Hq. induction slots as [|i slots IH]; intros Hs; [done|].
  inversion Hs as [|? ? Hi Hrest]; subst.
  apply lookup_lt_is_Some_2 in Hi as [v Hv].
  cbn [pkg_solve_propagate_pass].
  rewrite (check_again_quiet fuel s i v Hv).
  - simpl. by apply IH.
  - unfold quiet in Hq. rewrite Forall_forall in Hq. apply Hq.
    by eapply list_elem_of_lookup_2.
Qed.

Lemma propagate_units_quiet p propagated graph top :
  quiet p ->
  pkg_solve_propagate_units p propagated graph top
  = Ret (true, mk_propagation p propagated graph 0).
Proof.
  intros Hq. unfold pkg_solve_propagate_units. cbn [pkg_solve_propagate_loop pr_problem
    pr_propagated pr_graph].
  rewrite propagate_pass_quiet; [done|done|].
  apply Forall_forall. intros i Hi. apply list_elem_of_In, in_seq in Hi. simpl. lia.
Qed.

(** A visit of a variable that assigns nothing finds it quiet. *)
Lemma check_again_progress fuel : forall s var s',
  pkg_solve_check_again fuel s var = Ret (true, s') ->
  pr_solved_vars s <= pr_solved_vars s'
  /\ (pr_solved_vars s' = pr_solved_vars s ->
      s' = s /\ exists v, variables (pr_problem s) !! var = Some v
                          /\ var_quiet (pr_problem s) v).
Proof.
  induction fuel as [|fuel IH]; intros s var s' Hr; [done|].
  simpl in Hr.
  destruct (variables (pr_problem s) !! var) as [v|] eqn:Hv; [|done].
  destruct (var_has_conflict _ _) eqn:Hc; [done|].
  destruct (var_find_unit _ _) as [c|] eqn:Hu.
  - destruct (List.find _ c) as [it|]; [|done].
    destruct (pr_propagated s) as [n|]; [|done].
    apply IH in Hr as [Hle _]. cbn [pr_solved_vars] in Hle. split; lia.
  - injection Hr as <-. split; [lia|]. intros _. split; [done|]. by exists v.
Qed.

Lemma propagate_pass_progress fuel slots : forall s s',
  pkg_solve_propagate_pass fuel s slots = Ret (true, s') ->
  pr_solved_vars s <= pr_solved_vars s'
  /\ (pr_solved_vars s' = pr_solved_vars s ->
      s' = s /\ Forall (fun i => exists v, variables (pr_problem s) !! i = Some v
                                           /\ var_quiet (pr_problem s) v) slots).
Proof.
  induction slots as [|i slots IH]; intros s s' Hr.
  - injection Hr as <-. split; [lia|]. by intros _.
  - simpl in Hr.
    destruct (pkg_solve_check_again fuel s i) as [[[] s1]| |] eqn:E; try done.
    simpl in Hr. apply check_again_progress in E as [Hle1 Hq1].
    apply IH in Hr as [Hle2 Hq2]. split; [lia|]. intros Heq.
    destruct Hq1 as [-> Hi]; [lia|]. destruct Hq2 as [-> Hrest]; [lia|].
    split; [done|]. by constructor.
Qed.

(** What a successful propagation leaves is quiet. *)
Lemma propagate_loop_quiet fuel : forall s s',
  pkg_solve_propagate_loop fuel s = Ret (true, s') -> quiet (pr_problem s').
Proof.
  induction fuel as [|fuel IH]; intros s s' Hr; [done|].
  simpl in Hr.
  destruct (pkg_solve_propagate_pass _ _ _) as [[[] s1]| |] eqn:E; try done.
  simpl in Hr. destruct (0 <? pr_solved_vars s1) eqn:Hs; [by eapply IH|].
  injection Hr as <-.
  apply propagate_pass_progress in E as [Hle Hq]. cbn [pr_solved_vars pr_problem] in *.
  apply Z.ltb_ge in Hs. destruct Hq as [-> Hall]; [lia|].
  cbn [pr_problem]. unfold quiet. apply Forall_lookup. intros i v Hv.
  rewrite Forall_forall in Hall.
  destruct (Hall i) as (v' & Hv' & Hq').
  { apply list_elem_of_In, in_seq. apply lookup_lt_Some in Hv. unfold nvars. lia. }
  rewrite Hv in Hv'. by injection Hv' as <-.
Qed.

Lemma propagate_units_leaves_quiet p propagated graph top s' :
  pkg_solve_propagate_units p propagated graph top = Ret (true, s') ->
  quiet (pr_problem s').
Proof. apply propagate_loop_quiet. Qed.

Section Guess.
Variables (p : pkg_solve_problem) (i : nat) (b : bool) (v : pkg_solve_variable).
Hypothesis Hv : variables p !! i = Some v.
Hypothesis Hu : var_resolved v = false.

Lemma guess_true_item c :
  rule_has_true_item p c = true -> rule_has_true_item (assign_var p i b) c = true.
Proof.
  unfold rule_has_true_item. rewrite !existsb_exists.
  intros (it & Hin & Ht). exists it. split; [done|].
  apply andb_prop in Ht as [Hr Hc].
  unfold item_resolved, PKG_SOLVE_CHECK_ITEM, assign_var in *.
  cbn [variables with_variables].
  destruct (decide (it_var it = i)) as [Heq|Hne].
  - rewrite Heq, Hv in Hr. congruence.
  - rewrite list_lookup_alter_ne by done. by rewrite Hr, Hc.
Qed.

Lemma guess_var_quiet x :
  var_quiet p x -> var_quiet (assign_var p i b) x /\ var_quiet (assign_var p i b) (assign b x).
Proof.
  assert (Hq : var_quiet p x -> var_quiet (assign_var p i b) x).
  { intros [Hc Hf]. split.
    - unfold var_has_conflict in *.
      induction (var_rules x) as [|r l IH]; [done|].
      simpl in *. apply orb_false_elim in Hc as [Hr Hl].
      rewrite (IH Hl), orb_false_r.
      change (rule_at (assign_var p i b) r) with (rule_at p r).
      destruct (_ =? _); [|done]. simpl in *.
      apply negb_false_iff in Hr. by rewrite guess_true_item.
    - unfold var_find_unit in *.
      induction (var_rules x) as [|r l IH]; [done|].
      simpl in *. change (rule_at (assign_var p i b) r) with (rule_at p r).
      destruct ((rule_nresolved (rule_at p r) =? rule_nitems (rule_at p r) - 1)
                && negb (rule_has_true_item p (rule_at p r))) eqn:E; [done|].
      rewrite (IH Hf).
      apply andb_false_iff in E as [E|E]; [by rewrite E|].
      apply negb_false_iff in E. by rewrite (guess_true_item _ E), andb_false_r. }
  intros H. split; [by apply Hq|]. exact (Hq H).
Qed.

Lemma guess_quiet : quiet p -> quiet (assign_var p i b).
Proof.
  intros Hq. unfold quiet. cbn [assign_var variables with_variables].
  apply Forall_alter.
  - eapply Forall_impl; [exact Hq|]. intros x Hx. by apply guess_var_quiet.
  - intros x Hx _. apply guess_var_quiet.
    unfold quiet in Hq. rewrite Forall_forall in Hq. apply Hq.
    by eapply list_elem_of_lookup_2.
Qed.
End Guess.

Lemma dpll_turn_quiet s i v :
  dpll_quiet s -> 0 <= i ->
  variables (d_problem s) !! Z.to_nat i = Some v -> var_resolved v = false ->
  exists s',
    pkg_solve_dpll_turn s i = Ret (inr (s', i + 1))
    /\ dpll_quiet s'
    /\ d_problem s'
       = assign_var (d_problem s) (Z.to_nat i) (pkg_solve_initial_guess (d_problem s) v).
Proof.
  intros (Hq & He & Hb) Hi Hv Hu. unfold pkg_solve_dpll_turn.
  rewrite Hb, He. cbn [run_bind].
  rewrite lookup_app_r by done. rewrite Nat.sub_diag. cbn [lookup list_lookup].
  cbn [elt_var elt_guess elt_inverses elt_graph]. rewrite Nat.eqb_refl. cbn [negb].
  rewrite Hv. replace (-1 =? -1) with true by done.
  rewrite propagate_units_quiet by by eapply guess_quiet.
  cbn [run_bind pr_problem pr_graph].
  assert (Hl : variables (assign_var (d_problem s) (Z.to_nat i)
                            (pkg_solve_initial_guess (d_problem s) v)) !! Z.to_nat i
               = Some (assign (pkg_solve_initial_guess (d_problem s) v) v)).
  { unfold assign_var. cbn [variables with_variables].
    by rewrite list_lookup_alter_eq, Hv. }
  rewrite Hl. eexists. split; [reflexivity|].
  split; [|done]. split; [by eapply guess_quiet|]. split; [|done].
  cbn [d_elt]. case_decide as Hlt; [|done].
  rewrite length_app in Hlt. simpl in Hlt. lia.
Qed.

Lemma nvars_assign_var p i b : nvars (assign_var p i b) = nvars p.
Proof. unfold nvars, assign_var. cbn [variables with_variables]. apply length_alter. Qed.

Lemma rules_assign_var p i b : rules (assign_var p i b) = rules p.
Proof. done. Qed.

Lemma dpll_loop_quiet n : forall fuel s i,
  dpll_quiet s -> 0 <= i ->
  (Z.to_nat (Z.of_nat (nvars (d_problem s)) - i) <= n)%nat -> (n < fuel)%nat ->
  exists p',
    pkg_solve_dpll_loop fuel s i = Ret (true, p')
    /\ rules p' = rules (d_problem s).
Proof.
  induction n as [|n IH]; intros fuel s i Hq Hi Hn Hf.
  - destruct fuel as [|fuel]; [lia|]. simpl.
    destruct (Z.ltb_spec i (Z.of_nat (nvars (d_problem s)))); [lia|]. eauto.
  - destruct fuel as [|fuel]; [lia|]. simpl.
    destruct (Z.ltb_spec i (Z.of_nat (nvars (d_problem s)))) as [Hlt|]; [|eauto].
    destruct (variables (d_problem s) !! Z.to_nat i) as [v|] eqn:Hv.
    2: { apply lookup_ge_None in Hv. unfold nvars in *. lia. }
    destruct (var_resolved v) eqn:Hr.
    + apply IH; try done; lia.
    + destruct (dpll_turn_quiet s i v Hq Hi Hv Hr) as (s' & -> & Hq' & Hp').
      cbn [run_bind].
      destruct (IH fuel s' (i + 1)) as (p' & -> & Hrules); try done; try lia.
      * rewrite Hp', nvars_assign_var. lia.
      * exists p'. split; [done|]. by rewrite Hrules, Hp'.
Qed.

(** Once the top-level propagation has succeeded the search never fails a
    level: every guess is kept, no counter moves, and the solver answers
    true. *)
Theorem pkg_solve_sat_problem_keeps_guesses p p1 r fuel :
  rules_count p <> 0 ->
  pkg_solve_propagate_pure p = Ret p1 ->
  pkg_solve_propagate_units p1 (Some 0) None true = Ret (true, r) ->
  (nvars (pr_problem r) < fuel)%nat ->
  exists p',
    pkg_solve_sat_problem fuel p = Ret (true, p')
    /\ rules p' = rules (pr_problem r).
Proof.
  intros Hc Hp Hu Hf. unfold pkg_solve_sat_problem.
  apply Z.eqb_neq in Hc. rewrite Hc, Hp. cbn [run_bind]. rewrite Hu. cbn [run_bind negb].
  apply (dpll_loop_quiet (nvars (pr_problem r))); try done.
  - split; [|done]. by eapply propagate_units_leaves_quiet.
  - cbn [d_problem]. lia.
Qed.

(** ** The level of a guess and its undo *)

Lemma check_again_null fuel s var b s' :
  pr_propagated s = None ->
  pkg_solve_check_again fuel s var = Ret (b, s') -> s' = s.
Proof.
  intros Hn Hr. destruct fuel as [|fuel]; [done|]. simpl in Hr.
  destruct (variables (pr_problem s) !! var) as [v|]; [|done].
  destruct (var_has_conflict _ _); [by injection Hr as <- <-|].
  destruct (var_find_unit _ _) as [c|]; [|by injection Hr as <- <-].
  destruct (List.find _ c) as [it|]; [|done]. by rewrite Hn in Hr.
Qed.

Lemma propagate_pass_null fuel slots : forall s b s',
  pr_propagated s = None ->
  pkg_solve_propagate_pass fuel s slots = Ret (b, s') -> s' = s.
Proof.
  induction slots as [|i slots IH]; intros s b s' Hn Hr.
  - by injection Hr as <- <-.
  - simpl in Hr.
    destruct (pkg_solve_check_again fuel s i) as [[ok s1]| |] eqn:E; try done.
    apply check_again_null in E; [|done]. subst s1. simpl in Hr.
    destruct ok; [by eapply IH|by injection Hr as <- <-].
Qed.





(** ** The table that the builder lays out *)

Lemma partial_chain_length base us : length (partial_chain base us) = length us.
Proof. unfold partial_chain. by rewrite length_imap. Qed.

Lemma partial_chain_lookup base us k :
  partial_chain base us !! k
  = (fun u => mk_var u false 0 (pkg_digest (un_pkg u)) (pkg_uniqueid (un_pkg u))
                     false [] 0
                     (if decide (S k < length us)%nat then Some (base + S k)%nat else None)
                     (match k with O => (base + length us - 1)%nat | S k' => (base + k')%nat end))
    <$> us !! k.
Proof. unfold partial_chain. by rewrite list_lookup_imap. Qed.

Lemma lookup_app_plus {A} (l1 l2 : list A) k :
  (l1 ++ l2) !! (length l1 + k)%nat = l2 !! k.
Proof. rewrite lookup_app_r by lia. f_equal. lia. Qed.

Lemma lookup_app_at {A} (l1 l2 : list A) : (l1 ++ l2) !! length l1 = l2 !! 0%nat.
Proof. rewrite lookup_app_r by lia. f_equal. lia. Qed.

Ltac var_fields := f_equal; f_equal; first [lia | f_equal; lia].

Ltac alter_lookup :=
  repeat first [ rewrite list_lookup_alter_eq
               | rewrite list_lookup_alter_ne by lia ].

(** One more unit appended to a chain in progress. *)
Lemma DL_APPEND_var_partial old us u :
  us <> [] ->
  DL_APPEND_var (old ++ partial_chain (length old) us
                     ++ [pkg_solve_variable_set (length old + length us) u])
                (length old) (length old + length us)
  = old ++ partial_chain (length old) (us ++ [u]).
Proof.
  intros Hne.
  destruct us as [|u0 us']; [done|]. clear Hne.
  set (us := u0 :: us'). set (vs := old ++ _).
  assert (Hlen : length us = S (length us')) by done.
  unfold DL_APPEND_var.
  assert (Hhead : vs !! length old
                  = Some (mk_var u0 false 0 (pkg_digest (un_pkg u0))
                            (pkg_uniqueid (un_pkg u0)) false [] 0
                            (if decide (1 < length us)%nat
                             then Some (length old + 1)%nat else None)
                            (length old + length us')%nat)).
  { subst vs. rewrite lookup_app_at. simpl. var_fields. }
  rewrite Hhead. cbn [var_prev].
  apply list_eq. intros i.
  destruct (lt_eq_lt_dec i (length old)) as [[Hlt| ->]|Hgt].
  - (* below the chain *)
    alter_lookup. subst vs. by rewrite !lookup_app_l by lia.
  - (* the head *)
    rewrite (lookup_app_at old), partial_chain_lookup. simpl.
    destruct us' as [|u1 us''].
    + simpl. rewrite !Nat.add_0_r. alter_lookup. rewrite Hhead. simpl.
      unfold set_prev, set_next. simpl. var_fields.
    + rewrite list_lookup_alter_ne by (simpl; lia).
      rewrite list_lookup_alter_eq.
      rewrite list_lookup_alter_ne by (simpl; lia).
      rewrite list_lookup_alter_ne by (simpl; lia).
      rewrite Hhead. simpl. unfold set_prev. simpl.
      rewrite length_app. simpl.
      repeat case_decide; try lia; var_fields.
  - (* in or past the chain *)
    replace i with (length old + (i - length old))%nat by lia.
    set (k := (i - length old)%nat). assert (Hk : (0 < k)%nat) by (subst k; lia).
    clearbody k. clear Hgt i.
    rewrite lookup_app_plus, partial_chain_lookup.
    destruct (lt_eq_lt_dec k (length us)) as [[Hkm| ->]|Hkm2].
    + rewrite (lookup_app_l us) by lia.
      destruct (decide (k = length us')) as [->|Hnt].
      * (* the former tail *)
        rewrite list_lookup_alter_ne by lia.
        rewrite list_lookup_alter_ne by lia.
        rewrite list_lookup_alter_eq.
        rewrite list_lookup_alter_ne by lia.
        subst vs. rewrite lookup_app_plus.
        rewrite lookup_app_l by (rewrite partial_chain_length; lia).
        rewrite partial_chain_lookup.
        destruct (us !! length us') as [ut|]; [|done]. simpl.
        unfold set_next. simpl. rewrite length_app. simpl.
        destruct (length us') as [|n'] eqn:En; [lia|].
        repeat case_decide; try lia; var_fields.
      * alter_lookup. subst vs. rewrite lookup_app_plus.
        rewrite lookup_app_l by (rewrite partial_chain_length; lia).
        rewrite partial_chain_lookup.
        destruct (us !! k) as [ut|]; [|done]. simpl.
        rewrite length_app. simpl.
        destruct k as [|k']; [lia|].
        repeat case_decide; try lia. done.
    + (* the new member *)
      rewrite list_lookup_alter_eq.
      rewrite list_lookup_alter_ne by lia.
      rewrite list_lookup_alter_ne by lia.
      rewrite list_lookup_alter_eq.
      subst vs. rewrite lookup_app_plus.
      rewrite lookup_app_r by (rewrite partial_chain_length; lia).
      rewrite partial_chain_length, Nat.sub_diag, (lookup_app_at us).
      simpl. unfold set_next, set_prev, pkg_solve_variable_set. simpl.
      rewrite length_app. simpl.
      repeat case_decide; try lia; var_fields.
    + (* past the end *)
      alter_lookup. subst vs. rewrite lookup_app_plus.
      rewrite !lookup_ge_None_2; [done| |].
      * rewrite length_app. simpl. lia.
      * rewrite length_app, partial_chain_length. simpl. lia.
Qed.

(** The walk of one chain of units by [pkg_solve_add_variable]. *)
Lemma add_variable_fold us : forall p,
  fold_left add_variable_step us (p, None)
  = match us with
    | [] => (p, None)
    | u0 :: _ =>
        (mk_problem (j p) (rules_count p) (rules p)
           (variables_by_uid p ++ [(pkg_uniqueid (un_pkg u0), length (variables p))])
           (variables p ++ partial_chain (length (variables p)) us),
         Some (length (variables p)))
    end.
Proof.
  induction us as [|u us IH] using rev_ind; intros p; [done|].
  rewrite fold_left_app, IH. cbn [fold_left].
  destruct us as [|u0 us'].
  - simpl. unfold partial_chain, pkg_solve_variable_set. simpl.
    replace (length (variables p) + 1 - 1)%nat with (length (variables p)) by lia.
    done.
  - cbn [app]. unfold add_variable_step. cbn [variables with_variables].
    rewrite length_app, partial_chain_length.
    unfold with_variables. cbn [j rules_count rules variables_by_uid variables].
    rewrite <- app_assoc.
    rewrite (DL_APPEND_var_partial (variables p) (u0 :: us') u) by done.
    done.
Qed.

Lemma chain_units_length base tail c : forall k,
  length (chain_units base tail k c) = length c.
Proof. induction c as [|x c IH]; intros k; simpl; [done|]. by rewrite IH. Qed.

Lemma chain_units_lookup base tail c : forall k i,
  chain_units base tail k c !! i
  = (fun x => mk_unit x (base + (k + i))%nat
                (if decide (S i < length c)%nat then Some (base + (k + i) + 1)%nat else None)
                (match (k + i)%nat with O => tail | S n => (base + n)%nat end))
    <$> c !! i.
Proof.
  induction c as [|x c IH]; intros k i; [done|].
  destruct i as [|i]; simpl.
  - rewrite Nat.add_0_r. f_equal. f_equal.
    destruct c; simpl; repeat case_decide; try lia; done.
  - rewrite IH. replace (S k + i)%nat with (k + S i)%nat by lia.
    destruct (c !! i); [|done]. simpl. f_equal. f_equal.
    repeat case_decide; try lia; done.
Qed.

(** A complete chain: the links of the variables are those of the units. *)
Lemma partial_chain_complete base c :
  partial_chain base (chain_of base c) = map var_of_unit (chain_of base c).
Proof.
  apply list_eq. intros i. rewrite partial_chain_lookup, list_lookup_fmap.
  unfold chain_of. rewrite chain_units_length, chain_units_lookup.
  destruct ((fst c :: snd c) !! i) as [x|] eqn:E; [|done].
  apply lookup_lt_Some in E. simpl in E. simpl.
  unfold var_of_unit. simpl. f_equal. f_equal.
  - repeat case_decide; try lia; f_equal; lia.
  - destruct i; simpl; lia.
Qed.

Lemma chain_of_length base c : length (chain_of base c) = S (length (snd c)).
Proof. unfold chain_of. by rewrite chain_units_length. Qed.

Lemma chain_of_head base c :
  exists u rest, chain_of base c = u :: rest /\ un_addr u = base /\ un_pkg u = fst c.
Proof.
  unfold chain_of. simpl. do 2 eexists. split; [reflexivity|]. simpl. split; [lia|done].
Qed.

Lemma add_variable_chain base c p :
  length (variables p) = base ->
  pkg_solve_add_variable (chain_of base c) p
  = mk_problem (j p) (rules_count p) (rules p)
      (variables_by_uid p ++ index_entry (chain_of base c))
      (variables p ++ map var_of_unit (chain_of base c)).
Proof.
  intros Hb. unfold pkg_solve_add_variable. rewrite add_variable_fold.
  destruct (chain_of_head base c) as (u & rest & E & Ha & _).
  rewrite E. cbn [fst]. rewrite <- E, Hb, partial_chain_complete.
  rewrite E. simpl. by rewrite Ha.
Qed.

Lemma add_variables_fold l : forall base p,
  length (variables p) = base ->
  fold_left (fun q un => pkg_solve_add_variable un q) (universe_chains base l) p
  = mk_problem (j p) (rules_count p) (rules p)
      (variables_by_uid p ++ concat (map index_entry (universe_chains base l)))
      (variables p ++ map var_of_unit (concat (universe_chains base l))).
Proof.
  induction l as [|c l IH]; intros base p Hb.
  - simpl. rewrite !app_nil_r. by destruct p.
  - cbn [universe_chains fold_left]. rewrite (add_variable_chain base c p Hb).
    rewrite IH.
    + cbn [j rules_count rules variables_by_uid variables map concat].
      by rewrite map_app, <- !app_assoc.
    + cbn [variables]. rewrite length_app, length_map, chain_of_length. lia.
Qed.

(** The table after the walk of the universe. *)
Lemma add_universe_variables_table jb :
  add_universe_variables jb
  = mk_problem jb 0 []
      (concat (map index_entry (universe_chains 0 (items (universe jb)))))
      (map var_of_unit (concat (universe_chains 0 (items (universe jb))))).
Proof. unfold add_universe_variables. by rewrite add_variables_fold. Qed.

(** ** The table under the clause builder *)

Lemma map_alter_same {A B} (f : A -> B) (g : A -> A) l : forall i,
  (forall x, f (g x) = f x) -> map f (alter g i l) = map f l.
Proof.
  induction l as [|x l IH]; intros i Hfg; [done|].
  destruct i as [|i]; simpl; [by rewrite Hfg|]. f_equal. by apply IH.
Qed.

Lemma table_add_var_rules p var r n iter :
  table (pkg_solve_add_var_rules p var r n iter) = table p.
Proof.
  unfold table, pkg_solve_add_var_rules. cbn [variables with_variables variables_by_uid j].
  f_equal. f_equal.
  generalize (variables p). induction (if iter then _ else _) as [|t ts IH]; intros vs; [done|].
  simpl. rewrite IH. by apply map_alter_same.
Qed.

Lemma table_problem_add_rule p c : table (problem_add_rule p c) = table p.
Proof. done. Qed.

Lemma table_fold {A} (f : pkg_solve_problem -> A -> pkg_solve_problem) xs :
  (forall q x, table (f q x) = table q) ->
  forall p, table (fold_left f xs p) = table p.
Proof.
  intros Hf. induction xs as [|x xs IH]; intros p; [done|].
  simpl. by rewrite IH, Hf.
Qed.

Lemma table_add_depend p var dep :
  table (snd (pkg_solve_add_depend_rule p var dep)) = table p.
Proof.
  unfold pkg_solve_add_depend_rule. destruct (hash_find_str _ _); [|done].
  cbn [snd]. by rewrite table_problem_add_rule, !table_add_var_rules.
Qed.

Lemma table_add_binary_conflict p var curvar :
  table (add_binary_conflict p var curvar) = table p.
Proof. unfold add_binary_conflict. by rewrite !table_add_var_rules. Qed.

Lemma table_add_conflict p pk var c :
  table (snd (pkg_solve_add_conflict_rule p pk var c)) = table p.
Proof.
  unfold pkg_solve_add_conflict_rule. destruct (hash_find_str _ _); [|done].
  cbn [snd]. apply table_fold. intros q x.
  destruct (variables q !! x); [|done]. destruct (conflict_skips _ _ _); [done|].
  apply table_add_binary_conflict.
Qed.

Lemma table_add_require p var shlib :
  table (pkg_solve_add_require_rule p var shlib) = table p.
Proof.
  unfold pkg_solve_add_require_rule. destruct (hash_find_str _ _); [|done].
  destruct (fold_left _ _ _) as [rule cnt]. destruct (1 <? cnt); [|done].
  by rewrite table_problem_add_rule, table_add_var_rules.
Qed.

Lemma table_add_unary p var inverse :
  table (pkg_solve_add_unary_rule p var inverse) = table p.
Proof.
  unfold pkg_solve_add_unary_rule.
  by rewrite table_problem_add_rule, table_add_var_rules.
Qed.

Lemma table_add_chain p var : table (pkg_solve_add_chain_rule p var) = table p.
Proof.
  unfold pkg_solve_add_chain_rule. destruct (variables p !! var); [|done].
  apply table_fold. intros q x. apply table_add_binary_conflict.
Qed.

Lemma table_j p q : table p = table q -> j p = j q.
Proof. by intros [= _ _ H]. Qed.

Lemma table_process_cur_var s cur_var :
  table (fst (process_cur_var s cur_var)) = table (fst s).
Proof.
  destruct s as [p added]. simpl.
  destruct (variables p !! cur_var) as [v|]; [|done].
  set (p1 := fold_left _ (pkg_deps _) p).
  assert (H1 : table p1 = table p).
  { apply table_fold. intros q x. apply table_add_depend. }
  clearbody p1.
  set (p2 := fold_left _ (pkg_conflicts _) p1).
  assert (H2 : table p2 = table p).
  { rewrite <- H1. apply table_fold. intros q x. apply table_add_conflict. }
  clearbody p2.
  set (p3 := if pkg_t_eqb _ _ then p2 else _).
  assert (H3 : table p3 = table p).
  { subst p3. destruct (pkg_t_eqb _ _); [done|]. rewrite <- H2.
    apply table_fold. intros q x. apply table_add_require. }
  clearbody p3.
  set (p4 := if hash_find_ptr (request_add _) _ then _ else p3).
  assert (H4 : table p4 = table p).
  { subst p4. destruct (hash_find_ptr _ _); [|done]. by rewrite table_add_unary. }
  clearbody p4.
  set (p5 := if hash_find_ptr (request_delete _) _ then _ else p4).
  assert (H5 : table p5 = table p).
  { subst p5. destruct (hash_find_ptr _ _); [|done]. by rewrite table_add_unary. }
  clearbody p5.
  destruct (_ && _); simpl; [|done]. by rewrite table_add_chain.
Qed.

Lemma table_process_universe_variable p var :
  table (pkg_solve_process_universe_variable p var) = table p.
Proof.
  unfold pkg_solve_process_universe_variable.
  generalize (chain_from p (Some var)). intros chain.
  change (table p) with (table (fst (p, false))). generalize (p, false).
  induction chain as [|x chain IH]; intros s; [done|].
  simpl. by rewrite IH, table_process_cur_var.
Qed.

Lemma table_add_universe_rules uni : forall p p',
  add_universe_rules p uni = Some p' -> table p' = table p.
Proof.
  induction uni as [|[|un c] uni IH]; intros p p' Hr; simpl in Hr.
  - by injection Hr as <-.
  - by apply IH.
  - destruct (hash_find_str _ _) as [var|]; [|done].
    apply IH in Hr. by rewrite Hr, table_process_universe_variable.
Qed.

Lemma hash_find_str_app_l {A} (h1 h2 : list (string * A)) uid x :
  hash_find_str h1 uid = Some x -> hash_find_str (h1 ++ h2) uid = Some x.
Proof.
  induction h1 as [|[k v] h1 IH]; [done|]. simpl.
  destruct (String.eqb k uid); [done|]. apply IH.
Qed.

Lemma hash_find_str_is_Some {A} (h : list (string * A)) uid x :
  In (uid, x) h -> is_Some (hash_find_str h uid).
Proof.
  induction h as [|[k v] h IH]; [done|]. simpl. intros [[= -> ->]|Hin].
  - by rewrite String.eqb_refl.
  - destruct (String.eqb k uid); [done|]. by apply IH.
Qed.

(** The second walk finds a variable for every chain whose entry is in the
    index. *)
Lemma add_universe_rules_total uni : forall p,
  (forall un c, In (un :: c) uni ->
                In (pkg_uniqueid (un_pkg un), un_addr un) (variables_by_uid p)) ->
  is_Some (add_universe_rules p uni).
Proof.
  induction uni as [|[|un c] uni IH]; intros p Hin; simpl.
  - done.
  - apply IH. intros un c Hc. apply (Hin un c). by right.
  - destruct (hash_find_str_is_Some (variables_by_uid p)
                (pkg_uniqueid (un_pkg un)) (un_addr un)) as [var Hvar].
    { apply (Hin un c). by left. }
    rewrite Hvar. apply IH. intros un' c' Hc'.
    assert (Ht : variables_by_uid (pkg_solve_process_universe_variable p var)
                 = variables_by_uid p).
    { pose proof (table_process_universe_variable p var) as H. by injection H. }
    rewrite Ht. apply (Hin un' c'). by right.
Qed.

Lemma index_entry_In uni un c :
  In (un :: c) uni ->
  In (pkg_uniqueid (un_pkg un), un_addr un) (concat (map index_entry uni)).
Proof.
  induction uni as [|c0 uni IH]; [done|]. intros [->|Hin]; simpl.
  - by left.
  - apply in_or_app. right. by apply IH.
Qed.

Lemma universe_chains_split l : forall base c,
  In c (universe_chains base l) ->
  exists pre post c0,
    concat (universe_chains base l) = pre ++ c ++ post
    /\ c = chain_of (base + length pre) c0.
Proof.
  induction l as [|c1 l IH]; intros base c Hin; [done|].
  cbn [universe_chains] in *. destruct Hin as [<-|Hin].
  - exists [], (concat (universe_chains (base + S (length (snd c1))) l)), c1.
    simpl. rewrite Nat.add_0_r. done.
  - destruct (IH _ _ Hin) as (pre & post & c0 & Hcat & Hc).
    exists (chain_of base c1 ++ pre), post, c0. split.
    + cbn [concat]. by rewrite Hcat, <- app_assoc.
    + rewrite Hc. f_equal. rewrite length_app, chain_of_length. lia.
Qed.

Lemma chain_of_addr base c : map un_addr (chain_of base c) = seq base (S (length (snd c))).
Proof.
  apply list_eq. intros i. rewrite list_lookup_fmap.
  unfold chain_of. rewrite chain_units_lookup.
  destruct (decide (i < S (length (snd c)))%nat) as [Hi|Hi].
  - rewrite lookup_seq_lt by done.
    destruct ((fst c :: snd c) !! i) as [x|] eqn:E; [done|].
    apply lookup_ge_None in E. simpl in E. lia.
  - rewrite lookup_seq_ge by lia.
    rewrite (lookup_ge_None_2 (fst c :: snd c)) by (simpl; lia). done.
Qed.

Lemma table_chain_lookup pre c0 post k :
  (k < S (length (snd c0)))%nat ->
  exists u,
    map var_of_unit (pre ++ chain_of (length pre) c0 ++ post) !! (length pre + k)%nat
    = Some (var_of_unit u)
    /\ un_addr u = (length pre + k)%nat
    /\ un_next u = if decide (S k < S (length (snd c0)))%nat
                   then Some (length pre + k + 1)%nat else None.
Proof.
  intros Hk. rewrite list_lookup_fmap, lookup_app_plus.
  rewrite lookup_app_l by (rewrite chain_of_length; lia).
  unfold chain_of. rewrite chain_units_lookup.
  destruct ((fst c0 :: snd c0) !! k) as [x|] eqn:E.
  2: { apply lookup_ge_None in E. simpl in E. lia. }
  simpl. eexists. split; [reflexivity|]. simpl. done.
Qed.

(** Following [next] inside a chain laid out in the table. *)
Lemma var_chain_in_table pre c0 post n : forall k fuel,
  (k + S n = S (length (snd c0)))%nat -> (S n <= fuel)%nat ->
  var_chain fuel
    (map var_of_unit (pre ++ chain_of (length pre) c0 ++ post))
    (Some (length pre + k)%nat)
  = seq (length pre + k) (S n).
Proof.
  induction n as [|n IH]; intros k fuel Hk Hf.
  - destruct fuel as [|fuel]; [lia|]. cbn [var_chain].
    destruct (table_chain_lookup pre c0 post k ltac:(lia)) as (u & -> & _ & Hn).
    cbn [var_of_unit var_next]. rewrite Hn. case_decide; [lia|].
    by destruct fuel.
  - destruct fuel as [|fuel]; [lia|]. cbn [var_chain].
    destruct (table_chain_lookup pre c0 post k ltac:(lia)) as (u & -> & _ & Hn).
    cbn [var_of_unit var_next]. rewrite Hn. case_decide; [|lia].
    replace (length pre + k + 1)%nat with (length pre + S k)%nat by lia.
    rewrite IH by lia. cbn [seq]. f_equal.
    replace (length pre + S k)%nat with (S (length pre + k)) by lia. done.
Qed.

Lemma var_chain_ext fuel : forall vs vs' cur,
  map (set_rules [] 0) vs = map (set_rules [] 0) vs' ->
  var_chain fuel vs cur = var_chain fuel vs' cur.
Proof.
  induction fuel as [|fuel IH]; intros vs vs' cur Heq; [done|].
  destruct cur as [i|]; [|done]. cbn [var_chain].
  assert (Hi : set_rules [] 0 <$> vs !! i = set_rules [] 0 <$> vs' !! i).
  { rewrite <- !list_lookup_fmap. by f_equal. }
  destruct (vs !! i) as [v|], (vs' !! i) as [v'|]; try done.
  assert (Hn : var_next v = var_next v').
  { apply (f_equal (fun o => var_next <$> o)) in Hi. simpl in Hi. congruence. }
  rewrite Hn. f_equal. by apply IH.
Qed.

Lemma chain_from_table p q var :
  table p = table q -> chain_from p var = chain_from q var.
Proof.
  intros [= Hv _ _]. unfold chain_from, nvars.
  assert (Hl : length (variables p) = length (variables q)).
  { rewrite <- (length_map (set_rules [] 0) (variables p)), Hv. apply length_map. }
  rewrite Hl. by apply var_chain_ext.
Qed.

Lemma table_of_units jb idx us :
  table (mk_problem jb 0 [] idx (map var_of_unit us)) = (map var_of_unit us, idx, jb).
Proof.
  unfold table. cbn [variables variables_by_uid j]. do 2 f_equal.
  rewrite map_map. by apply map_ext.
Qed.

(** X1: the clause builder never gives up with "variable is not found":
    the index holds the head of every chain.  The table it fills has one
    variable per unit of the universe, in the order of the universe walk
    and at the slot of the address of the unit, unresolved, with the unique
    id and the digest of the package of the unit and with chain links that
    mirror those of the units; the index lists the heads of the chains. *)
Theorem pkg_solve_jobs_to_sat_table (jb : pkg_jobs) :
  exists p,
    pkg_solve_jobs_to_sat jb = Some p
    /\ table p
       = (map var_of_unit (concat (universe_chains 0 (items (universe jb)))),
          concat (map index_entry (universe_chains 0 (items (universe jb)))),
          jb)
    /\ nvars p = universe_nitems (universe jb).
Proof.
  unfold pkg_solve_jobs_to_sat.
  destruct (add_universe_rules_total (universe_chains 0 (items (universe jb)))
              (add_universe_variables jb)) as [p Hp].
  { intros un c Hin. rewrite add_universe_variables_table.
    cbn [variables_by_uid]. by eapply index_entry_In. }
  exists p. split; [done|].
  pose proof (table_add_universe_rules _ _ _ Hp) as Ht.
  rewrite add_universe_variables_table, table_of_units in Ht. split; [exact Ht|].
  injection Ht as Hv _ _. unfold nvars, universe_nitems.
  rewrite <- (length_map (set_rules [] 0)), Hv. apply length_map.
Qed.

Lemma table_jobs_to_sat jb p :
  pkg_solve_jobs_to_sat jb = Some p ->
  table p
  = (map var_of_unit (concat (universe_chains 0 (items (universe jb)))),
     concat (map index_entry (universe_chains 0 (items (universe jb)))),
     jb).
Proof.
  intros Hb. unfold pkg_solve_jobs_to_sat in Hb.
  rewrite (table_add_universe_rules _ _ _ Hb), add_universe_variables_table.
  apply table_of_units.
Qed.

(** The walk from the head of a chain, on any problem with the table of
    the universe. *)
Lemma chain_from_slots jb p un rest :
  table p
  = (map var_of_unit (concat (universe_chains 0 (items (universe jb)))),
     concat (map index_entry (universe_chains 0 (items (universe jb)))),
     jb) ->
  In (un :: rest) (universe_chains 0 (items (universe jb))) ->
  chain_from p (Some (un_addr un)) = seq (un_addr un) (S (length rest))
  /\ map un_addr (un :: rest) = seq (un_addr un) (S (length rest)).
Proof.
  intros Ht Hin. rewrite <- table_of_units in Ht.
  destruct (universe_chains_split _ _ _ Hin) as (pre & post & c0 & Hcat & Hc).
  simpl in Hc.
  assert (Ha : un_addr un = length pre).
  { destruct (chain_of_head (length pre) c0) as (u & r & E & Hu & _).
    rewrite <- Hc in E. by injection E as <- _. }
  assert (Hlen : length rest = length (snd c0)).
  { apply (f_equal length) in Hc. rewrite chain_of_length in Hc. simpl in Hc. lia. }
  assert (Haddr : map un_addr (un :: rest) = seq (un_addr un) (S (length rest))).
  { rewrite Hc, chain_of_addr, Ha, Hlen. done. }
  split; [|exact Haddr].
  rewrite (chain_from_table p _ _ Ht).
  unfold chain_from, nvars. cbn [variables]. rewrite Hcat, Hc, Ha.
  rewrite <- (Nat.add_0_r (length pre)) at 3 4.
  rewrite Hlen. apply var_chain_in_table; [lia|].
  rewrite length_map, !length_app, chain_of_length. lia.
Qed.

(** X2: in a built problem, following [next] from the slot of the head of
    a chain of the universe meets the slots of the units of that chain, all
    of them, once and in the order of the chain. *)
Theorem chain_from_head (jb : pkg_jobs) (p : pkg_solve_problem)
    (un : pkg_job_universe_item) (rest : list pkg_job_universe_item) :
  pkg_solve_jobs_to_sat jb = Some p ->
  In (un :: rest) (universe_chains 0 (items (universe jb))) ->
  chain_from p (Some (un_addr un)) = map un_addr (un :: rest)
  /\ map un_addr (un :: rest) = seq (un_addr un) (S (length rest)).
Proof.
  intros Hb Hin.
  destruct (chain_from_slots jb p un rest (table_jobs_to_sat jb p Hb) Hin) as [Hc Ha].
  split; [|exact Ha]. by rewrite Ha.
Qed.

Lemma chain_from_head_witness :
  chain_from (Scenario.build Scenario.upgrade_two) (Some 0%nat) = [0; 1; 2]%nat.
Proof.
  assert (Hb : pkg_solve_jobs_to_sat Scenario.upgrade_two
               = Some (Scenario.build Scenario.upgrade_two))
    by (vm_compute; reflexivity).
  assert (Hc : exists un rest,
             In (un :: rest) (universe_chains 0 (items (universe Scenario.upgrade_two)))
             /\ un_addr un = 0%nat /\ map un_addr (un :: rest) = [0; 1; 2]%nat).
  { eexists _, _. split; [left; vm_compute; reflexivity|]. split; reflexivity. }
  destruct Hc as (un & rest & Hin & Ha & Hm).
  destruct (chain_from_head _ _ un rest Hb Hin) as [Hch _].
  rewrite Ha, Hm in Hch. exact Hch.
Defined.

(** ** The clauses of a built problem *)

Lemma numbered_nitems c : numbered c -> rule_nitems c = Z.of_nat (length c).
Proof. destruct c as [|it c]; [done|]. intros [H _]. exact H. Qed.

Lemma numbered_prepend c it :
  numbered c -> numbered (RULE_ITEM_PREPEND c it).
Proof.
  intros Hc. unfold RULE_ITEM_PREPEND. split; [|done]. cbn [it_nitems].
  destruct c as [|h c']; [done|]. destruct Hc as [Hh _]. rewrite Hh.
  simpl length. lia.
Qed.

Lemma rule_built_prepend n c var inverse :
  (var < n)%nat ->
  numbered c -> Forall (fun it => it_nresolved it = 0 /\ (it_var it < n)%nat) c ->
  rule_built n (RULE_ITEM_PREPEND c (item_inverse inverse (pkg_solve_item_new var))).
Proof.
  intros Hv Hn Hc. split; [done|]. split; [by apply numbered_prepend|].
  constructor; [done|]. exact Hc.
Qed.

Lemma rule_built_prepend_chain n c chain inverse :
  rule_built n c -> Forall (fun i => (i < n)%nat) chain ->
  rule_built n (prepend_chain c chain inverse).
Proof.
  intros Hc Hch. induction chain as [|x chain IH] using rev_ind; [done|].
  apply Forall_app in Hch as [Hch Hx]. inversion Hx; subst.
  rewrite prepend_chain_snoc. destruct (IH Hch) as (_ & Hn & Hf).
  by apply rule_built_prepend.
Qed.

Lemma var_chain_valid fuel : forall vs cur,
  Forall (fun i => (i < length vs)%nat) (var_chain fuel vs cur).
Proof.
  induction fuel as [|fuel IH]; intros vs cur; [constructor|].
  destruct cur as [i|]; [|constructor]. cbn [var_chain].
  destruct (vs !! i) as [v|] eqn:E; [|constructor].
  constructor; [by eapply lookup_lt_Some|]. apply IH.
Qed.

Lemma chain_from_valid p var : Forall (fun i => (i < nvars p)%nat) (chain_from p var).
Proof. apply var_chain_valid. Qed.

Lemma literals_In c x b : In (x, b) (literals c) -> exists it, In it c /\ it_var it = x.
Proof.
  unfold literals. rewrite in_map_iff. intros (it & [= <- <-] & Hin). eauto.
Qed.

(** Indexed predicates under the updates of the table. *)
Lemma lookup_fold_alter {A} (P : nat -> A -> Prop) (f : A -> A) ts :
  forall vs : list A,
  (forall t v, In t ts -> P t v -> P t (f v)) ->
  (forall i v, vs !! i = Some v -> P i v) ->
  forall i v, fold_left (fun l t => alter f t l) ts vs !! i = Some v -> P i v.
Proof.
  induction ts as [|t ts IH]; intros vs Hf Hvs i v Hl; [by apply Hvs|].
  simpl in Hl. eapply IH; [| |exact Hl].
  - intros t' v' Hin. apply Hf. by right.
  - intros i' v' Hl'. rewrite list_lookup_alter in Hl'. case_decide.
    + subst. destruct (vs !! i') as [v0|] eqn:E; [|done].
      injection Hl' as <-. apply Hf; [by left|]. by apply Hvs.
    + by apply Hvs.
Qed.

Lemma var_mentioned_weaken rs c i v :
  var_mentioned rs i v -> var_mentioned (rs ++ [c]) i v.
Proof.
  unfold var_mentioned. intros H. eapply Forall_impl; [exact H|]. simpl.
  intros r (c' & it & Hr & Hin & Hit).
  exists c', it. split; [|done]. by apply lookup_app_l_Some.
Qed.

(** A clause added to the problem and referenced from the variables
    [ts], each of which it mentions. *)
Lemma clauses_built_attach p c n ts :
  clauses_built p -> rule_built (nvars p) c ->
  (forall t, In t ts -> exists it, In it c /\ it_var it = t) ->
  clauses_built
    (mk_problem (j p) (rules_count p + 1) (rules p ++ [c]) (variables_by_uid p)
       (fold_left (fun l t => alter (attach_rule (length (rules p)) n) t l) ts
                  (variables p))).
Proof.
  intros (Hr & Hc & Hm) Hb Hts.
  assert (Hlen : forall vs, length (fold_left (fun l t => alter (attach_rule (length (rules p)) n) t l) ts vs) = length vs).
  { induction ts as [|t ts' IH]; intros vs; [done|]. simpl.
    rewrite IH by (intros; apply Hts; by right). apply length_alter. }
  unfold clauses_built, nvars. cbn [rules rules_count variables].
  rewrite Hlen. split; [|split].
  - apply Forall_app. split; [done|]. by constructor.
  - rewrite length_app. simpl. lia.
  - apply (lookup_fold_alter (fun i v => var_mentioned (rules p ++ [c]) i v)).
    + intros t v Hin Hv. unfold var_mentioned. cbn [attach_rule set_rules var_rules].
      constructor; [|done]. destruct (Hts t Hin) as (it & Hit & Hvar).
      exists c, it. split; [|done]. by rewrite lookup_app_at.
    + intros i v Hl. apply var_mentioned_weaken. by eapply Hm.
Qed.

(** A problem whose clauses are built, on a table of [n] slots. *)
Lemma nvars_table p q : table p = table q -> nvars p = nvars q.
Proof.
  intros [= H _ _]. apply (f_equal length) in H. by rewrite !length_map in H.
Qed.

Lemma clauses_built_fold {A} n (f : pkg_solve_problem -> A -> pkg_solve_problem) xs :
  (forall q x, clauses_built q /\ nvars q = n -> clauses_built (f q x) /\ nvars (f q x) = n) ->
  forall p, clauses_built p /\ nvars p = n ->
            clauses_built (fold_left f xs p) /\ nvars (fold_left f xs p) = n.
Proof.
  intros Hf. induction xs as [|x xs IH]; intros p Hp; [done|].
  simpl. apply IH. by apply Hf.
Qed.

Lemma clauses_built_add_depend n p var dep :
  (var < n)%nat ->
  clauses_built p /\ nvars p = n ->
  clauses_built (snd (pkg_solve_add_depend_rule p var dep))
  /\ nvars (snd (pkg_solve_add_depend_rule p var dep)) = n.
Proof.
  intros Hvar [Hp Hn]. split.
  2: { rewrite <- Hn. apply nvars_table, table_add_depend. }
  unfold pkg_solve_add_depend_rule.
  destruct (hash_find_str _ _) as [depvar|]; [|done].
  unfold problem_add_rule, pkg_solve_add_var_rules.
  cbn [snd rules variables with_variables j rules_count variables_by_uid].
  rewrite <- fold_left_app. apply clauses_built_attach; [done| |].
  - apply rule_built_prepend_chain; [|apply chain_from_valid].
    apply rule_built_prepend; [lia|done|constructor].
  - intros t Ht. apply (literals_In _ t (if decide (t = var) then true else false)).
    rewrite prepend_chain_literals. apply in_app_or in Ht as [Ht|[<-|[]]].
    + case_decide as Heq.
      * apply in_or_app. right. left. by rewrite Heq.
      * apply in_or_app. left. apply in_rev. rewrite rev_involutive.
        apply in_map_iff. by exists t.
    + apply in_or_app. right. left. by rewrite decide_True.
Qed.

Lemma clauses_built_add_binary_conflict n p var curvar :
  (var < n)%nat -> (curvar < n)%nat ->
  clauses_built p /\ nvars p = n ->
  clauses_built (add_binary_conflict p var curvar)
  /\ nvars (add_binary_conflict p var curvar) = n.
Proof.
  intros Hvar Hcur [Hp Hn]. split.
  2: { rewrite <- Hn. apply nvars_table, table_add_binary_conflict. }
  unfold add_binary_conflict, problem_add_rule, pkg_solve_add_var_rules.
  cbn [rules variables with_variables j rules_count variables_by_uid].
  rewrite <- fold_left_app. apply clauses_built_attach; [done| |].
  - apply rule_built_prepend; [lia| |].
    + by apply numbered_prepend.
    + constructor; [|constructor]. split; [done|]. simpl. lia.
  - intros t [<-|[<-|[]]].
    + eexists. split; [by left|done].
    + eexists. split; [right; by left|done].
Qed.

Lemma clauses_built_add_conflict n p pk var conflict :
  (var < n)%nat ->
  clauses_built p /\ nvars p = n ->
  clauses_built (snd (pkg_solve_add_conflict_rule p pk var conflict))
  /\ nvars (snd (pkg_solve_add_conflict_rule p pk var conflict)) = n.
Proof.
  intros Hvar Hp. unfold pkg_solve_add_conflict_rule.
  destruct (hash_find_str _ _) as [confvar|]; [|done]. cbn [snd].
  apply clauses_built_fold; [|done]. intros q x Hq.
  destruct (variables q !! x) as [cv|] eqn:E; [|done].
  destruct (conflict_skips _ _ _); [done|].
  apply clauses_built_add_binary_conflict; [done| |done].
  destruct Hq as [_ <-]. by eapply lookup_lt_Some.
Qed.

Lemma clauses_built_add_require n p var shlib :
  (var < n)%nat ->
  clauses_built p /\ nvars p = n ->
  clauses_built (pkg_solve_add_require_rule p var shlib)
  /\ nvars (pkg_solve_add_require_rule p var shlib) = n.
Proof.
  intros Hvar [Hp Hn]. split.
  2: { rewrite <- Hn. apply nvars_table, table_add_require. }
  unfold pkg_solve_add_require_rule.
  destruct (hash_find_str _ _) as [prhead|]; [|done].
  rewrite handle_provide_fold.
  destruct (1 <? _); [|done].
  unfold problem_add_rule, pkg_solve_add_var_rules.
  cbn [rules variables with_variables j rules_count variables_by_uid].
  apply clauses_built_attach; [done| |].
  - apply rule_built_prepend_chain.
    + apply rule_built_prepend; [lia|done|constructor].
    + apply Forall_concat, Forall_forall. intros c Hc.
      apply list_elem_of_In, in_map_iff in Hc as (pr & <- & _).
      apply chain_from_valid.
  - intros t [<-|[]]. apply (literals_In _ var true).
    rewrite prepend_chain_literals. apply in_or_app. right. by left.
Qed.

Lemma clauses_built_add_unary n p var inverse :
  (var < n)%nat ->
  clauses_built p /\ nvars p = n ->
  clauses_built (pkg_solve_add_unary_rule p var inverse)
  /\ nvars (pkg_solve_add_unary_rule p var inverse) = n.
Proof.
  intros Hvar [Hp Hn]. split.
  2: { rewrite <- Hn. apply nvars_table, table_add_unary. }
  unfold pkg_solve_add_unary_rule, problem_add_rule, pkg_solve_add_var_rules.
  cbn [rules variables with_variables j rules_count variables_by_uid].
  apply clauses_built_attach; [done| |].
  - apply rule_built_prepend; [lia|done|constructor].
  - intros t [<-|[]]. eexists. split; [by left|done].
Qed.

Lemma clauses_built_add_chain n p var :
  clauses_built p /\ nvars p = n ->
  clauses_built (pkg_solve_add_chain_rule p var)
  /\ nvars (pkg_solve_add_chain_rule p var) = n.
Proof.
  intros Hp. unfold pkg_solve_add_chain_rule.
  destruct (variables p !! var) as [v|] eqn:E; [|done].
  assert (Hvar : (var < n)%nat).
  { destruct Hp as [_ <-]. by eapply lookup_lt_Some. }
  pose proof (chain_from_valid p (var_next v)) as Hch.
  replace (nvars p) with n in Hch by by destruct Hp.
  revert Hch. generalize (chain_from p (var_next v)). intros chain Hch.
  clear E. revert p Hp.
  induction chain as [|x chain IH]; intros q Hq; [done|].
  inversion Hch; subst. simpl. apply IH; [done|].
  by apply clauses_built_add_binary_conflict.
Qed.

Lemma clauses_built_process_cur_var n s cur_var :
  clauses_built (fst s) /\ nvars (fst s) = n ->
  clauses_built (fst (process_cur_var s cur_var))
  /\ nvars (fst (process_cur_var s cur_var)) = n.
Proof.
  destruct s as [p added]. simpl. intros Hp.
  destruct (variables p !! cur_var) as [v|] eqn:E; [|done].
  assert (Hvar : (cur_var < n)%nat).
  { destruct Hp as [_ <-]. by eapply lookup_lt_Some. }
  set (p1 := fold_left _ (pkg_deps _) p).
  assert (H1 : clauses_built p1 /\ nvars p1 = n).
  { apply clauses_built_fold; [|done]. intros q x Hq. by apply clauses_built_add_depend. }
  clearbody p1.
  set (p2 := fold_left _ (pkg_conflicts _) p1).
  assert (H2 : clauses_built p2 /\ nvars p2 = n).
  { apply clauses_built_fold; [|done]. intros q x Hq. by apply clauses_built_add_conflict. }
  clearbody p2.
  set (p3 := if pkg_t_eqb _ _ then p2 else _).
  assert (H3 : clauses_built p3 /\ nvars p3 = n).
  { subst p3. destruct (pkg_t_eqb _ _); [done|].
    apply clauses_built_fold; [|done]. intros q x Hq. by apply clauses_built_add_require. }
  clearbody p3.
  set (p4 := if hash_find_ptr (request_add _) _ then _ else p3).
  assert (H4 : clauses_built p4 /\ nvars p4 = n).
  { subst p4. destruct (hash_find_ptr _ _); [|done]. by apply clauses_built_add_unary. }
  clearbody p4.
  set (p5 := if hash_find_ptr (request_delete _) _ then _ else p4).
  assert (H5 : clauses_built p5 /\ nvars p5 = n).
  { subst p5. destruct (hash_find_ptr _ _); [|done]. by apply clauses_built_add_unary. }
  clearbody p5.
  destruct (_ && _); simpl; [|done]. by apply clauses_built_add_chain.
Qed.

Lemma clauses_built_process_universe_variable p var :
  clauses_built p -> clauses_built (pkg_solve_process_universe_variable p var).
Proof.
  intros Hp. unfold pkg_solve_process_universe_variable.
  generalize (chain_from p (Some var)). intros chain.
  assert (H : clauses_built (fst (p, false)) /\ nvars (fst (p, false)) = nvars p) by done.
  revert H. generalize (nvars p). generalize (p, false). clear.
  induction chain as [|x chain IH]; intros s n Hs; [by destruct Hs|].
  simpl. apply (IH _ n). by apply clauses_built_process_cur_var.
Qed.

Lemma clauses_built_add_universe_rules uni : forall p p',
  clauses_built p -> add_universe_rules p uni = Some p' -> clauses_built p'.
Proof.
  induction uni as [|[|un c] uni IH]; intros p p' Hp Hr; simpl in Hr.
  - by injection Hr as <-.
  - by eapply IH.
  - destruct (hash_find_str _ _) as [var|]; [|done].
    eapply IH; [|exact Hr]. by apply clauses_built_process_universe_variable.
Qed.

Lemma clauses_built_jobs_to_sat jb p :
  pkg_solve_jobs_to_sat jb = Some p -> clauses_built p.
Proof.
  unfold pkg_solve_jobs_to_sat. apply clauses_built_add_universe_rules.
  rewrite add_universe_variables_table.
  split; [constructor|]. split; [done|].
  cbn [variables rules]. intros i v Hv.
  rewrite list_lookup_fmap in Hv.
  destruct (_ !! i) as [u|]; [|done]. injection Hv as <-. constructor.
Qed.

Lemma rule_built_arity n c : rule_built n c -> 1 <= rule_nitems c.
Proof.
  intros (Hne & Hn & _). rewrite (numbered_nitems c Hn).
  destruct c; [done|]. simpl length. lia.
Qed.

(** A counter of references that is zero has no reference. *)
Lemma nrules_zero p i v :
  counted p -> clauses_built p -> variables p !! i = Some v ->
  var_nrules v = 0 <-> var_rules v = [].
Proof.
  intros Hc (Hr & _ & Hm) Hv.
  unfold counted in Hc. rewrite Forall_forall in Hc.
  destruct (Hc v) as [Hn _]; [by eapply list_elem_of_lookup_2|].
  specialize (Hm i v Hv). unfold var_mentioned in Hm.
  rewrite Hn. unfold rules_arity.
  split; [|by intros ->].
  assert (Hge : 0 <= foldr Z.add 0
                  (map (fun r => rule_nitems (default [] (rules p !! r))) (var_rules v))
                /\ (var_rules v <> [] ->
                    1 <= foldr Z.add 0
                  (map (fun r => rule_nitems (default [] (rules p !! r))) (var_rules v)))).
  { induction Hm as [|r l (c & it & Hl & _) _ IH]; [done|].
    simpl. rewrite Hl. simpl.
    rewrite Forall_forall in Hr.
    pose proof (rule_built_arity _ c (Hr c ltac:(by eapply list_elem_of_lookup_2))).
    destruct IH as [IH _]. split; [lia|]. intros _. lia. }
  destruct (var_rules v) as [|r l]; [done|]. intros H0.
  destruct Hge as [_ Hge]. specialize (Hge ltac:(done)). lia.
Qed.

(** X3: every clause of a problem built from jobs is non-empty, carries its
    number of literals in [nitems] and zero in [nresolved], and names only
    variables of the table; [rules_count] is the number of clauses. *)
Theorem pkg_solve_jobs_to_sat_clauses (jb : pkg_jobs) (p : pkg_solve_problem) :
  pkg_solve_jobs_to_sat jb = Some p ->
  rules_count p = Z.of_nat (length (rules p))
  /\ forall c, In c (rules p) ->
       c <> []
       /\ rule_nitems c = Z.of_nat (length c)
       /\ rule_nresolved c = 0
       /\ forall it, In it c -> (it_var it < nvars p)%nat.
Proof.
  intros Hb. destruct (clauses_built_jobs_to_sat jb p Hb) as (Hr & Hc & _).
  split; [done|]. intros c Hin.
  rewrite Forall_forall in Hr.
  destruct (Hr c) as (Hne & Hn & Hf); [by apply list_elem_of_In|].
  split; [done|]. split; [by apply numbered_nitems|].
  rewrite Forall_forall in Hf. split.
  - destruct c as [|it c']; [done|]. apply (Hf it). by left.
  - intros it Hit. apply Hf. by apply list_elem_of_In.
Qed.

Lemma pkg_solve_jobs_to_sat_clauses_witness :
  rules_count (Scenario.build Scenario.requires) = 2
  /\ forall c, In c (rules (Scenario.build Scenario.requires)) ->
       c <> []
       /\ rule_nitems c = Z.of_nat (length c)
       /\ rule_nresolved c = 0
       /\ forall it, In it c -> (it_var it < 3)%nat.
Proof.
  assert (Hb : pkg_solve_jobs_to_sat Scenario.requires
               = Some (Scenario.build Scenario.requires))
    by (vm_compute; reflexivity).
  exact (pkg_solve_jobs_to_sat_clauses _ _ Hb).
Defined.

(** X4: in a problem built from jobs every rule reference of a variable
    names a clause of the problem that holds a literal of this variable,
    and the counter [nrules] is zero exactly when the variable has no
    reference, so that the [assert] of [pkg_solve_propagate_pure] holds. *)
Theorem pkg_solve_jobs_to_sat_references (jb : pkg_jobs) (p : pkg_solve_problem)
    (i : nat) (v : pkg_solve_variable) :
  pkg_solve_jobs_to_sat jb = Some p ->
  variables p !! i = Some v ->
  (forall r, In r (var_rules v) ->
     exists c, rules p !! r = Some c /\ In i (map it_var c))
  /\ (var_nrules v = 0 <-> var_rules v = []).
Proof.
  intros Hb Hv. pose proof (clauses_built_jobs_to_sat jb p Hb) as Hcb.
  split.
  - intros r Hr. destruct Hcb as (_ & _ & Hm). specialize (Hm i v Hv).
    unfold var_mentioned in Hm. rewrite Forall_forall in Hm.
    destruct (Hm r) as (c & it & Hl & Hin & Hit); [by apply list_elem_of_In|].
    exists c. split; [done|]. apply in_map_iff. by exists it.
  - apply (nrules_zero p i v); [by eapply counted_jobs_to_sat|done|done].
Qed.

Lemma pkg_solve_jobs_to_sat_references_witness :
  exists v,
    variables (Scenario.build Scenario.depends) !! 1%nat = Some v
    /\ (forall r, In r (var_rules v) ->
          exists c, rules (Scenario.build Scenario.depends) !! r = Some c
                    /\ In 1%nat (map it_var c))
    /\ (var_nrules v = 0 <-> var_rules v = []).
Proof.
  assert (Hb : pkg_solve_jobs_to_sat Scenario.depends
               = Some (Scenario.build Scenario.depends))
    by (vm_compute; reflexivity).
  eexists. split; [vm_compute; reflexivity|].
  apply (pkg_solve_jobs_to_sat_references _ _ 1%nat _ Hb).
  vm_compute. reflexivity.
Defined.

(** ** What the solver leaves as it is *)

Lemma frame_alter_var p f i :
  (forall v, var_frame (f v) = var_frame v) ->
  frame (with_variables (alter f i (variables p)) p) = frame p.
Proof.
  intros Hf. unfold frame. cbn [rules variables with_variables variables_by_uid
    rules_count j]. by rewrite map_alter_same.
Qed.

Lemma frame_assign_var p i b : frame (assign_var p i b) = frame p.
Proof. by apply frame_alter_var. Qed.

Lemma item_frame_incr c : map item_frame (nresolved_incr c) = map item_frame c.
Proof. by destruct c. Qed.

Lemma frame_update_var_resolved p i :
  frame (pkg_solve_update_var_resolved p i) = frame p.
Proof.
  unfold pkg_solve_update_var_resolved. destruct (variables p !! i) as [v|]; [|done].
  unfold frame. cbn [rules variables with_rules variables_by_uid rules_count j].
  do 4 f_equal. generalize (rules p).
  induction (var_rules v) as [|r l IH]; intros rs; [done|].
  simpl. rewrite IH. apply map_alter_same. apply item_frame_incr.
Qed.

Lemma rule_at_Some p r c : rules p !! r = Some c -> rule_at p r = c.
Proof. intros H. exact (f_equal (default []) H). Qed.

Lemma rule_at_None p r : rules p !! r = None -> rule_at p r = [].
Proof. intros H. exact (f_equal (default []) H). Qed.

Lemma frame_rule_at p q r :
  frame p = frame q -> map item_frame (rule_at p r) = map item_frame (rule_at q r).
Proof.
  intros [= H _ _ _ _]. unfold rule_at.
  assert (H' : map item_frame <$> rules p !! r = map item_frame <$> rules q !! r).
  { rewrite <- !list_lookup_fmap.
    change (map (map item_frame) (rules p) !! r = map (map item_frame) (rules q) !! r).
    by rewrite H. }
  revert H'. destruct (rules p !! r), (rules q !! r); simpl; congruence.
Qed.

Lemma frame_nvars p q : frame p = frame q -> nvars p = nvars q.
Proof.
  intros [= _ H _ _ _]. apply (f_equal length) in H. by rewrite !length_map in H.
Qed.

Lemma frame_var p q i v :
  frame p = frame q -> variables p !! i = Some v ->
  exists v', variables q !! i = Some v' /\ var_frame v' = var_frame v.
Proof.
  intros [= _ H _ _ _] Hv.
  apply (f_equal (fun l => l !! i)) in H. rewrite !list_lookup_fmap, Hv in H.
  revert H. destruct (variables q !! i) as [v'|]; [|done].
  cbn [fmap option_fmap option_map]. intros H. exists v'. split; [done|]. congruence.
Qed.

(** A property of the problem that the writes of the solver keep is kept
    by the solver. *)
Section Kept.
Variable I : pkg_solve_problem -> Prop.
Hypothesis I_assign : forall p i b, I p -> I (assign_var p i b).
Hypothesis I_update : forall p i, I p -> I (pkg_solve_update_var_resolved p i).
Hypothesis I_unresolve : forall p i,
  I p -> I (with_variables (alter (set_resolved false) i (variables p)) p).
Hypothesis I_flip : forall p i,
  I p -> I (with_variables
              (alter (fun x => set_to_install (negb (var_to_install x)) x) i (variables p)) p).

Lemma kept_check_again fuel : forall s var b s',
  pkg_solve_check_again fuel s var = Ret (b, s') ->
  I (pr_problem s) -> I (pr_problem s').
Proof.
  induction fuel as [|fuel IH]; intros s var b s' Hr Hp; [done|].
  simpl in Hr.
  destruct (variables (pr_problem s) !! var) as [v|]; [|done].
  destruct (var_has_conflict _ _); [by injection Hr as <- <-|].
  destruct (var_find_unit _ _) as [c|]; [|by injection Hr as <- <-].
  destruct (List.find _ c) as [it|]; [|done].
  destruct (pr_propagated s) as [n|]; [|done].
  apply IH in Hr; [done|]. cbn [pr_problem].
  by apply I_update, I_assign.
Qed.

Lemma kept_propagate_pass fuel slots : forall s b s',
  pkg_solve_propagate_pass fuel s slots = Ret (b, s') ->
  I (pr_problem s) -> I (pr_problem s').
Proof.
  induction slots as [|i slots IH]; intros s b s' Hr Hp.
  - by injection Hr as <- <-.
  - simpl in Hr.
    destruct (pkg_solve_check_again fuel s i) as [[[] s1]| |] eqn:E; try done;
      simpl in Hr; apply kept_check_again in E; try done.
    + by eapply IH.
    + by injection Hr as <- <-.
Qed.

Lemma kept_propagate_loop fuel : forall s b s',
  pkg_solve_propagate_loop fuel s = Ret (b, s') ->
  I (pr_problem s) -> I (pr_problem s').
Proof.
  induction fuel as [|fuel IH]; intros s b s' Hr Hp; [done|].
  simpl in Hr.
  destruct (pkg_solve_propagate_pass _ _ _) as [[[] s1]| |] eqn:E; try done;
    simpl in Hr; apply kept_propagate_pass in E; try done.
  - destruct (0 <? pr_solved_vars s1).
    + by eapply IH.
    + by injection Hr as <- <-.
  - by injection Hr as <- <-.
Qed.

Lemma kept_propagate_units p propagated graph top b s' :
  pkg_solve_propagate_units p propagated graph top = Ret (b, s') ->
  I p -> I (pr_problem s').
Proof. intros Hr Hp. by eapply kept_propagate_loop in Hr. Qed.

Lemma kept_pure_rule p r : I p -> I (pkg_solve_pure_rule p r).
Proof.
  intros Hp. unfold pkg_solve_pure_rule.
  destruct (rule_at p r) as [|it c]; [done|].
  destruct (_ && _); [|done].
  by apply I_update, I_assign.
Qed.

Lemma kept_pure_var p i p' : pkg_solve_pure_var p i = Ret p' -> I p -> I p'.
Proof.
  unfold pkg_solve_pure_var. intros E Hp.
  destruct (variables p !! i) as [v|]; [|done].
  destruct (var_nrules v =? 0).
  - destruct (var_rules v); [|done]. injection E as <-. by apply I_assign.
  - injection E as <-.
    revert p Hp. induction (var_rules v) as [|r l IHl]; intros p Hp; [done|].
    simpl. apply IHl. by apply kept_pure_rule.
Qed.

Lemma kept_pure_loop slots : forall p p',
  pkg_solve_pure_loop p slots = Ret p' -> I p -> I p'.
Proof.
  induction slots as [|i slots IH]; intros p p' Hr Hp.
  - by injection Hr as <-.
  - simpl in Hr.
    destruct (pkg_solve_pure_var p i) as [p1| |] eqn:E; try done. simpl in Hr.
    eapply IH; [exact Hr|]. by eapply kept_pure_var.
Qed.

Lemma kept_undo_guess p graph p' graph' :
  pkg_solve_undo_guess p graph = Ret (p', graph') -> I p -> I p'.
Proof.
  unfold pkg_solve_undo_guess. destruct graph as [|h g]; [done|].
  assert (H : forall l q, I q ->
             I (with_variables
                  (fold_left (fun vs cur => alter (set_resolved false) cur vs) l
                             (variables q)) q)).
  { induction l as [|x l IH]; intros q Hq.
    - destruct q. exact Hq.
    - exact (IH _ (I_unresolve q x Hq)). }
  intros [= <- <-] Hp. exact (H (h :: g) p Hp).
Qed.

Lemma kept_dpll_turn s i r :
  pkg_solve_dpll_turn s i = Ret r ->
  I (d_problem s) ->
  match r with
  | inl (_, p') => I p'
  | inr (s', _) => I (d_problem s')
  end.
Proof.
  unfold pkg_solve_dpll_turn. intros Hr Hp.
  destruct (if d_backtrack s then _ else _) as [[[var i'] bt]| |]; try done.
  simpl in Hr.
  destruct (match d_elt s with Some _ => _ | None => _ end) as [e tree].
  destruct (tree !! e) as [elt|]; [|done].
  destruct (negb _); [done|].
  destruct (variables (d_problem s) !! var) as [v|]; [|done].
  set (p1 := assign_var _ _ _) in Hr.
  assert (H1 : I p1) by by apply I_assign.
  clearbody p1.
  destruct (pkg_solve_propagate_units p1 _ _ _) as [[ok r1]| |] eqn:E1; try done.
  apply kept_propagate_units in E1; [|done]. simpl in Hr.
  destruct ok.
  - destruct (variables (pr_problem r1) !! var); [|done]. by injection Hr as <-.
  - destruct (pkg_solve_undo_guess _ _) as [[p2 g2]| |] eqn:E2; try done.
    apply kept_undo_guess in E2; [|done]. simpl in Hr.
    destruct (elt_guess elt =? -1).
    + set (p2' := with_variables _ p2) in Hr.
      assert (H2 : I p2') by by apply I_flip.
      clearbody p2'.
      destruct (pkg_solve_propagate_units p2' _ _ _) as [[rc r3]| |] eqn:E3; try done.
      apply kept_propagate_units in E3; [|done]. simpl in Hr.
      destruct rc.
      * destruct (variables (pr_problem r3) !! var); [|done]. by injection Hr as <-.
      * destruct e as [|e']; [by injection Hr as <-|].
        destruct (tree !! e'); [|done]. by injection Hr as <-.
    + simpl in Hr. destruct e as [|e']; [by injection Hr as <-|].
      destruct (tree !! e'); [|done]. by injection Hr as <-.
Qed.

Lemma kept_dpll_loop fuel : forall s i b p',
  pkg_solve_dpll_loop fuel s i = Ret (b, p') ->
  I (d_problem s) -> I p'.
Proof.
  induction fuel as [|fuel IH]; intros s i b p' Hr Hp; [done|].
  simpl in Hr. destruct (i <? _); [|by injection Hr as <- <-].
  destruct (variables (d_problem s) !! Z.to_nat i) as [v|]; [|done].
  destruct (var_resolved v); [by eapply IH|].
  destruct (pkg_solve_dpll_turn s i) as [r| |] eqn:E; try done. simpl in Hr.
  apply kept_dpll_turn in E; [|done].
  destruct r as [[b1 p1]|[s1 i1]].
  - by injection Hr as <- <-.
  - by eapply IH.
Qed.

Lemma kept_sat_problem fuel p b p' :
  pkg_solve_sat_problem fuel p = Ret (b, p') -> I p -> I p'.
Proof.
  unfold pkg_solve_sat_problem. intros Hr Hp.
  destruct (rules_count p =? 0); [by injection Hr as <- <-|].
  destruct (pkg_solve_propagate_pure p) as [p1| |] eqn:E1; try done.
  apply kept_pure_loop in E1; [|done]. simpl in Hr.
  destruct (pkg_solve_propagate_units p1 _ _ _) as [[ok r]| |] eqn:E2; try done.
  apply kept_propagate_units in E2; [|done]. simpl in Hr.
  destruct ok; simpl in Hr.
  - by eapply kept_dpll_loop in Hr.
  - by injection Hr as <- <-.
Qed.
End Kept.

(** X5: whatever its verdict, the solver writes nothing but [to_install]
    and [resolved] of the variables and [nresolved] of the clauses: the
    literals and [nitems] of every clause, the rule references, counters
    and links of every variable, the unique-id index, [rules_count] and the
    jobs are what they were. *)
Theorem pkg_solve_sat_problem_frame (fuel : nat) (p p' : pkg_solve_problem) (b : bool) :
  pkg_solve_sat_problem fuel p = Ret (b, p') -> frame p' = frame p.
Proof.
  intros Hr.
  eapply (kept_sat_problem (fun q => frame q = frame p)); [| | | |exact Hr|done].
  - intros q i c Hq. by rewrite frame_assign_var.
  - intros q i Hq. by rewrite frame_update_var_resolved.
  - intros q i Hq. by rewrite frame_alter_var.
  - intros q i Hq. by rewrite frame_alter_var.
Qed.

Lemma pkg_solve_sat_problem_frame_witness :
  frame (Scenario.solved Scenario.upgrade_two) = frame (Scenario.build Scenario.upgrade_two).
Proof.
  assert (Hs : pkg_solve_sat_problem 16 (Scenario.build Scenario.upgrade_two)
               = Ret (true, Scenario.solved Scenario.upgrade_two))
    by (vm_compute; reflexivity).
  exact (pkg_solve_sat_problem_frame _ _ _ _ Hs).
Defined.

(** ** The propagation of pure clauses on a built problem *)

Lemma incr_fold_head l : forall (rs : list pkg_solve_rule) r,
  default [] (fold_left (fun rs r => alter nresolved_incr r rs) l rs !! r)
  = match default [] (rs !! r) with
    | [] => []
    | it :: c =>
        mk_item (it_nitems it) (it_nresolved it + Z.of_nat (count_occ Nat.eq_dec l r))
                (it_var it) (it_inverse it) :: c
    end.
Proof.
  unfold pkg_solve_rule.
  induction l as [|x l IH]; intros rs r.
  - simpl. destruct (default [] (rs !! r)) as [|[] c]; [done|]. simpl. by rewrite Z.add_0_r.
  - simpl fold_left. rewrite IH. rewrite list_lookup_alter. simpl count_occ.
    destruct (Nat.eq_dec x r) as [->|Hne].
    + rewrite decide_True by done. rewrite Nat2Z.inj_succ.
      destruct (rs !! r) as [[|it c]|]; try done.
      cbn [fmap option_fmap option_map default from_option id nresolved_incr
           it_nitems it_nresolved it_var it_inverse].
      f_equal. f_equal. lia.
    + rewrite decide_False by done. done.
Qed.

Lemma unary_of_frame p q v :
  frame p = frame q -> unary_of (rules p) v = unary_of (rules q) v.
Proof.
  intros Hf. unfold unary_of.
  induction (var_rules v) as [|r l IH]; [done|]. simpl.
  pose proof (frame_rule_at p q r Hf) as Hr. unfold rule_at in Hr.
  destruct (default [] (rules p !! r)) as [|it c], (default [] (rules q !! r)) as [|it' c'];
    try done; simpl in *.
  injection Hr as Hn Hv Hi Hc. rewrite Hn.
  destruct (it_nitems it' =? 1); [by rewrite Hi|exact IH].
Qed.

Section Pure.
Variable p0 : pkg_solve_problem.
Hypothesis Hbuilt : clauses_built p0.
Hypothesis Hcounted : counted p0.

(** A clause of one literal that a variable references is the clause of
    this variable. *)
Lemma unary_mention q k v r it c :
  frame q = frame p0 -> variables p0 !! k = Some v -> In r (var_rules v) ->
  rule_at q r = it :: c -> it_nitems it = 1 -> it_var it = k.
Proof.
  intros Hf Hv Hr Hq Hn.
  destruct Hbuilt as (Hrs & _ & Hm). specialize (Hm k v Hv).
  unfold var_mentioned in Hm. rewrite Forall_forall in Hm.
  destruct (Hm r) as (c0 & it' & Hl & Hin & Hit); [by apply list_elem_of_In|].
  rewrite Forall_forall in Hrs.
  destruct (Hrs c0) as (_ & Hnum & _); [by eapply list_elem_of_lookup_2|].
  pose proof (frame_rule_at q p0 r Hf) as Hfr. rewrite Hq in Hfr.
  unfold rule_at in Hfr. rewrite Hl in Hfr. simpl in Hfr.
  destruct c0 as [|it0 c0']; [done|]. simpl in Hfr.
  injection Hfr as Hn0 Hv0 _ _.
  destruct Hnum as [Hlen _]. rewrite <- Hn0, Hn in Hlen.
  destruct c0' as [|x c0']; [|simpl in Hlen; lia].
  destruct Hin as [<-|[]]. congruence.
Qed.

Lemma pure_rule_after q k v b r :
  variables q !! k = Some v -> In r (var_rules v) ->
  (forall it c, rule_at q r = it :: c -> it_nitems it = 1 -> it_nresolved it = 0) ->
  pkg_solve_pure_rule (pkg_solve_update_var_resolved (assign_var q k b) k) r
  = pkg_solve_update_var_resolved (assign_var q k b) k.
Proof.
  intros Hv Hr H0. unfold pkg_solve_pure_rule at 1.
  unfold rule_at, pkg_solve_update_var_resolved, assign_var.
  cbn [variables with_variables]. rewrite list_lookup_alter_eq, Hv.
  cbn [fmap option_fmap option_map assign set_resolved set_to_install var_rules
       rules with_rules with_variables].
  rewrite incr_fold_head.
  specialize (H0) . unfold rule_at in H0.
  destruct (default [] (rules q !! r)) as [|it c]; [done|].
  cbn [it_nitems it_nresolved].
  destruct (it_nitems it =? 1) eqn:En; [|done].
  apply Z.eqb_eq in En. rewrite (H0 it c eq_refl En).
  assert (Hc : (0 < count_occ Nat.eq_dec (var_rules v) r)%nat)
    by by apply count_occ_In.
  destruct (Z.eqb_spec (0 + Z.of_nat (count_occ Nat.eq_dec (var_rules v) r)) 0); [lia|done].
Qed.

Lemma pure_rules_fold q k v l :
  frame q = frame p0 -> variables p0 !! k = Some v -> variables q !! k = Some v ->
  (forall r it c, rule_at q r = it :: c -> it_nitems it = 1 -> (k <= it_var it)%nat ->
     it_nresolved it = 0) ->
  (forall r, In r l -> In r (var_rules v)) ->
  fold_left pkg_solve_pure_rule l q
  = match List.find (fun c => rule_nitems c =? 1) (map (rule_at q) l) with
    | Some (it :: _) =>
        pkg_solve_update_var_resolved (assign_var q k (negb (it_inverse it))) k
    | _ => q
    end.
Proof.
  intros Hf Hv0 Hv Hd. induction l as [|r l IH]; intros Hl; [done|].
  simpl. unfold pkg_solve_pure_rule at 2.
  destruct (rule_at q r) as [|it c] eqn:Er.
  - simpl. apply IH. intros r' Hr'. apply Hl. by right.
  - cbn [rule_nitems]. destruct (it_nitems it =? 1) eqn:En.
    + apply Z.eqb_eq in En.
      assert (Hk : it_var it = k).
      { apply (unary_mention q k v r it c); try done. apply Hl. by left. }
      rewrite (Hd r it c Er En) by lia. simpl. rewrite Hk.
      clear IH. assert (Hl' : forall r', In r' l -> In r' (var_rules v)).
      { intros r' Hr'. apply Hl. by right. }
      clear Hl. induction l as [|r' l IH]; [done|].
      simpl. rewrite (pure_rule_after q k v _ r'); try done.
      * apply IH. intros r'' Hr''. apply Hl'. by right.
      * apply Hl'. by left.
      * intros it' c' Er' En'. apply (Hd r' it' c' Er' En').
        rewrite (unary_mention q k v r' it' c'); try done. apply Hl'. by left.
    + simpl. apply IH. intros r' Hr'. apply Hl. by right.
Qed.

Lemma pure_before_start : pure_before p0 0 p0.
Proof.
  split; [done|]. split; [done|]. split; [lia|].
  intros r it c Hr _ _. destruct Hbuilt as (Hrs & _ & _).
  unfold rule_at in Hr. destruct (rules p0 !! r) as [c0|] eqn:El; [|done].
  simpl in Hr. subst c0. rewrite Forall_forall in Hrs.
  destruct (Hrs (it :: c)) as (_ & _ & Hit); [by eapply list_elem_of_lookup_2|].
  inversion Hit as [|? ? [H0 _] _]. done.
Qed.

Lemma pure_before_step k q :
  (k < nvars p0)%nat -> pure_before p0 k q ->
  exists q', pkg_solve_pure_var q k = Ret q' /\ pure_before p0 (S k) q'.
Proof.
  intros Hk (Hf & Hge & Hlt & Hd).
  destruct (lookup_lt_is_Some_2 (variables p0) k Hk) as [v Hv0].
  assert (Hv : variables q !! k = Some v) by by rewrite Hge.
  unfold pkg_solve_pure_var. rewrite Hv.
  assert (Hseed : forall b q',
            variables q' = alter (assign b) k (variables q) ->
            pure_seed (rules p0) v = assign b v ->
            frame q' = frame q ->
            (forall r it c, rule_at q' r = it :: c -> it_nitems it = 1 ->
                            (S k <= it_var it)%nat -> it_nresolved it = 0) ->
            pure_before p0 (S k) q').
  { intros b q' Hvars Hs Hf' Hd'. split; [by rewrite Hf'|].
    split; [|split; [|done]].
    - intros i Hi. rewrite Hvars, list_lookup_alter_ne by lia. apply Hge. lia.
    - intros i Hi. rewrite Hvars. destruct (decide (i = k)) as [->|Hne].
      + rewrite list_lookup_alter_eq, Hv, Hv0. simpl. by rewrite Hs.
      + rewrite list_lookup_alter_ne by done. apply Hlt. lia. }
  destruct (var_nrules v =? 0) eqn:En.
  - apply Z.eqb_eq in En.
    pose proof (proj1 (nrules_zero p0 k v Hcounted Hbuilt Hv0) En) as Hnil.
    rewrite Hnil. eexists. split; [reflexivity|].
    apply (Hseed (is_installed v)); try done.
    + unfold pure_seed. by rewrite (proj2 (Z.eqb_eq _ _) En).
    + apply frame_assign_var.
    + intros r it c Hr Hn Hle. apply (Hd r it c Hr Hn). lia.
  - eexists. split; [reflexivity|].
    rewrite (pure_rules_fold q k v (var_rules v)); try done.
    assert (Hu : unary_of (rules p0) v
                 = match List.find (fun c => rule_nitems c =? 1)
                                   (map (rule_at q) (var_rules v)) with
                   | Some (it :: _) => Some (it_inverse it)
                   | _ => None
                   end).
    { by rewrite <- (unary_of_frame q p0 v Hf). }
    destruct (List.find _ (map (rule_at q) (var_rules v))) as [[|it c]|] eqn:Efind.
    + (* an empty clause is not of one literal *)
      apply find_some in Efind as [_ Hbad]. done.
    + apply (Hseed (negb (it_inverse it))).
      * unfold pkg_solve_update_var_resolved, assign_var.
        cbn [variables with_variables]. by destruct (alter _ _ _ !! k).
      * unfold pure_seed. by rewrite En, Hu.
      * by rewrite frame_update_var_resolved, frame_assign_var.
      * intros r it' c' Hr Hn Hle.
        unfold rule_at, pkg_solve_update_var_resolved, assign_var in Hr.
        cbn [variables with_variables] in Hr.
        rewrite list_lookup_alter_eq, Hv in Hr.
        cbn [fmap option_fmap option_map assign set_resolved set_to_install var_rules
             rules with_rules with_variables] in Hr.
        rewrite incr_fold_head in Hr.
        destruct (default [] (rules q !! r)) as [|it0 c0] eqn:E0; [done|].
        injection Hr as <- <-. cbn [it_nitems it_var it_nresolved] in *.
        destruct (count_occ Nat.eq_dec (var_rules v) r) as [|n] eqn:Ec.
        -- rewrite (Hd r it0 c0 E0 Hn) by lia. done.
        -- assert (Hin : In r (var_rules v)).
           { apply (count_occ_In Nat.eq_dec). lia. }
           pose proof (unary_mention q k v r it0 c0 Hf Hv0 Hin E0 Hn). lia.
    + split; [done|]. split; [|split].
      * intros i Hi. apply Hge. lia.
      * intros i Hi. destruct (decide (i = k)) as [->|Hne]; [|apply Hlt; lia].
        rewrite Hv, Hv0. simpl. unfold pure_seed. by rewrite En, Hu.
      * intros r it c Hr Hn Hle. apply (Hd r it c Hr Hn). lia.
Qed.

Lemma pure_before_loop m : forall k q,
  (k + m = nvars p0)%nat -> pure_before p0 k q ->
  exists q', pkg_solve_pure_loop q (seq k m) = Ret q' /\ pure_before p0 (nvars p0) q'.
Proof.
  induction m as [|m IH]; intros k q Hk Hq.
  - exists q. split; [done|]. by replace (nvars p0) with k by lia.
  - destruct (pure_before_step k q) as (q1 & E1 & H1); [lia|done|].
    destruct (IH (S k) q1) as (q' & E' & H'); [lia|done|].
    exists q'. split; [|done]. simpl. by rewrite E1.
Qed.
End Pure.

(** X6: on a problem built from jobs the propagation of pure clauses
    never fails its assertion, and it leaves every variable as if it had
    been treated alone: a variable without rules is resolved to its
    installed state, a variable with a clause of one literal is resolved to
    the sense of the first such clause of its rule list, and any other
    variable is left as it was. *)
Theorem pkg_solve_propagate_pure_seeds (jb : pkg_jobs) (p : pkg_solve_problem) :
  pkg_solve_jobs_to_sat jb = Some p ->
  exists p',
    pkg_solve_propagate_pure p = Ret p'
    /\ variables p' = map (pure_seed (rules p)) (variables p)
    /\ frame p' = frame p.
Proof.
  intros Hb.
  pose proof (clauses_built_jobs_to_sat jb p Hb) as Hcb.
  pose proof (counted_jobs_to_sat jb p Hb) as Hc.
  destruct (pure_before_loop p Hcb Hc (nvars p) 0 p) as (p' & Hr & Hf & _ & Hlt & _);
    [done|by apply pure_before_start|].
  exists p'. split; [done|]. split; [|done].
  apply list_eq. intros i. rewrite list_lookup_fmap.
  destruct (decide (i < nvars p)%nat) as [Hi|Hi]; [by apply Hlt|].
  rewrite !lookup_ge_None_2; [done| |]; [unfold nvars in Hi; lia|].
  pose proof (frame_nvars p' p Hf) as Hn. unfold nvars in *. lia.
Qed.

Lemma pkg_solve_propagate_pure_seeds_witness :
  exists p',
    pkg_solve_propagate_pure (Scenario.build Scenario.requires) = Ret p'
    /\ map (fun v => (var_resolved v, var_to_install v)) (variables p')
       = [(true, true); (true, false); (true, false)].
Proof.
  assert (Hb : pkg_solve_jobs_to_sat Scenario.requires
               = Some (Scenario.build Scenario.requires))
    by (vm_compute; reflexivity).
  destruct (pkg_solve_propagate_pure_seeds _ _ Hb) as (p' & Hr & Hv & _).
  exists p'. split; [exact Hr|]. rewrite Hv. vm_compute. reflexivity.
Defined.

(** ** What the propagation of units does to the variables *)

Lemma variables_update_var_resolved p i :
  variables (pkg_solve_update_var_resolved p i) = variables p.
Proof.
  unfold pkg_solve_update_var_resolved. by destruct (variables p !! i).
Qed.

Lemma extends_refl p : extends p p.
Proof. intros i. destruct (variables p !! i) as [v|] eqn:E; [|done]. eauto. Qed.

Lemma extends_trans p q r : extends p q -> extends q r -> extends p r.
Proof.
  intros Hpq Hqr i. specialize (Hpq i). specialize (Hqr i).
  destruct (variables p !! i) as [v|].
  - destruct Hpq as (v' & Hq & Hv'). rewrite Hq in Hqr.
    destruct Hqr as (v'' & Hr & Hv''). exists v''. split; [done|].
    destruct Hv' as [->|(Hu & b & ->)]; [done|].
    destruct Hv'' as [->|(Hbad & _)]; [|done]. right. eauto.
  - by rewrite Hpq in Hqr.
Qed.

Lemma extends_assign p it b :
  item_resolved p it = false ->
  extends p (pkg_solve_update_var_resolved (assign_var p (it_var it) b) (it_var it)).
Proof.
  intros Hu i. rewrite variables_update_var_resolved.
  unfold assign_var. cbn [variables with_variables].
  unfold item_resolved in Hu.
  destruct (decide (i = it_var it)) as [->|Hne].
  - rewrite list_lookup_alter_eq.
    destruct (variables p !! it_var it) as [v|]; [|done].
    exists (assign b v). split; [done|]. right. eauto.
  - rewrite list_lookup_alter_ne by done.
    destruct (variables p !! i) as [v|]; [|done]. eauto.
Qed.

Lemma extends_check_again fuel : forall s var b s',
  pkg_solve_check_again fuel s var = Ret (b, s') ->
  extends (pr_problem s) (pr_problem s').
Proof.
  induction fuel as [|fuel IH]; intros s var b s' Hr; [done|].
  simpl in Hr.
  destruct (variables (pr_problem s) !! var) as [v|]; [|done].
  destruct (var_has_conflict _ _); [injection Hr as <- <-; apply extends_refl|].
  destruct (var_find_unit _ _) as [c|]; [|injection Hr as <- <-; apply extends_refl].
  destruct (List.find _ c) as [it|] eqn:Ef; [|done].
  destruct (pr_propagated s) as [n|]; [|done].
  apply IH in Hr. cbn [pr_problem] in Hr.
  eapply extends_trans; [|exact Hr]. apply extends_assign.
  apply find_some in Ef as [_ Hu]. by apply negb_true_iff in Hu.
Qed.

Lemma extends_propagate_pass fuel slots : forall s b s',
  pkg_solve_propagate_pass fuel s slots = Ret (b, s') ->
  extends (pr_problem s) (pr_problem s').
Proof.
  induction slots as [|i slots IH]; intros s b s' Hr.
  - injection Hr as <- <-. apply extends_refl.
  - simpl in Hr.
    destruct (pkg_solve_check_again fuel s i) as [[[] s1]| |] eqn:E; try done;
      simpl in Hr; apply extends_check_again in E.
    + eapply extends_trans; [exact E|]. by eapply IH.
    + by injection Hr as <- <-.
Qed.

Lemma extends_propagate_loop fuel : forall s b s',
  pkg_solve_propagate_loop fuel s = Ret (b, s') ->
  extends (pr_problem s) (pr_problem s').
Proof.
  induction fuel as [|fuel IH]; intros s b s' Hr; [done|].
  simpl in Hr.
  destruct (pkg_solve_propagate_pass _ _ _) as [[[] s1]| |] eqn:E; try done;
    simpl in Hr; apply extends_propagate_pass in E; cbn [pr_problem] in E.
  - destruct (0 <? pr_solved_vars s1).
    + eapply extends_trans; [exact E|]. by eapply IH.
    + by injection Hr as <- <-.
  - by injection Hr as <- <-.
Qed.

(** X7: whatever its verdict, the propagation of units assigns only
    variables that were not resolved: a variable that was resolved keeps
    its value, and every other variable is either left as it was or becomes
    resolved; of the problem nothing else than [to_install], [resolved] and
    [nresolved] is written. *)
Theorem pkg_solve_propagate_units_extends (p : pkg_solve_problem)
    (propagated : option Z) (graph : option (list nat)) (top_level b : bool)
    (s' : propagation) :
  pkg_solve_propagate_units p propagated graph top_level = Ret (b, s') ->
  extends p (pr_problem s') /\ frame (pr_problem s') = frame p.
Proof.
  intros Hr. split.
  - by apply extends_propagate_loop in Hr.
  - eapply (kept_propagate_units (fun q => frame q = frame p)); [| |exact Hr|done].
    + intros q i c Hq. by rewrite frame_assign_var.
    + intros q i Hq. by rewrite frame_update_var_resolved.
Qed.

Lemma pkg_solve_propagate_units_extends_witness :
  extends (Requested.seeded Requested.depends)
          (pr_problem (Requested.propagated Requested.depends))
  /\ map var_resolved (variables (Requested.seeded Requested.depends)) = [true; false]
  /\ map var_resolved (variables (pr_problem (Requested.propagated Requested.depends)))
     = [true; true].
Proof.
  assert (Hr : pkg_solve_propagate_units (Requested.seeded Requested.depends)
                 (Some 0) None true
               = Ret (true, Requested.propagated Requested.depends))
    by (vm_compute; reflexivity).
  split; [exact (proj1 (pkg_solve_propagate_units_extends _ _ _ _ _ _ Hr))|].
  split; vm_compute; reflexivity.
Defined.

(** ** The propagation of units without a counter *)

(** X8: called without a counter of propagated units, as the search calls
    it, the propagation returns only if it has nothing to assign: when it
    returns, with either verdict, the problem and the implication graph are
    what they were (the assignment of a unit is followed by the increment
    of the counter that the caller did not give). *)
Theorem pkg_solve_propagate_units_null (p : pkg_solve_problem)
    (graph : option (list nat)) (top_level b : bool) (s' : propagation) :
  pkg_solve_propagate_units p None graph top_level = Ret (b, s') ->
  s' = mk_propagation p None graph 0.
Proof.
  unfold pkg_solve_propagate_units. cbn [pkg_solve_propagate_loop pr_problem
    pr_propagated pr_graph].
  intros Hr.
  destruct (pkg_solve_propagate_pass _ _ _) as [[ok s1]| |] eqn:E; try done.
  apply propagate_pass_null in E; [|done]. subst s1. simpl in Hr.
  destruct ok; by injection Hr as <- <-.
Qed.

Lemma pkg_solve_propagate_units_null_witness :
  pkg_solve_propagate_units (Scenario.solved Scenario.depends) None (Some [0%nat]) false
  = Ret (true, mk_propagation (Scenario.solved Scenario.depends) None (Some [0%nat]) 0).
Proof.
  assert (Hr : exists s', pkg_solve_propagate_units (Scenario.solved Scenario.depends)
                            None (Some [0%nat]) false = Ret (true, s')).
  { eexists. vm_compute. reflexivity. }
  destruct Hr as [s' Hr]. rewrite Hr.
  by rewrite (pkg_solve_propagate_units_null _ _ _ _ _ Hr).
Defined.

(** ** The propagation of units comes to an end *)

Lemma unresolved_alter (l : list pkg_solve_variable) : forall k w b,
  l !! k = Some w -> var_resolved w = false ->
  S (length (List.filter (fun v => negb (var_resolved v)) (alter (assign b) k l)))
  = length (List.filter (fun v => negb (var_resolved v)) l).
Proof.
  induction l as [|x l IH]; intros k w b Hk Hw; [done|].
  destruct k as [|k].
  - injection Hk as ->. simpl. by rewrite Hw.
  - simpl in Hk. cbn [alter list_alter List.filter].
    change (list_alter (assign b) k l) with (alter (assign b) k l).
    destruct (negb (var_resolved x)); simpl; by rewrite (IH k w b).
Qed.

Lemma unresolved_le p : (unresolved p <= nvars p)%nat.
Proof. apply List.filter_length_le. Qed.

Lemma lits_valid_step p k b :
  lits_valid p ->
  lits_valid (pkg_solve_update_var_resolved (assign_var p k b) k)
  /\ nvars (pkg_solve_update_var_resolved (assign_var p k b) k) = nvars p.
Proof.
  intros Hp.
  assert (Hn : nvars (pkg_solve_update_var_resolved (assign_var p k b) k) = nvars p).
  { unfold nvars. rewrite variables_update_var_resolved. apply length_alter. }
  split; [|done]. unfold lits_valid. rewrite Hn.
  unfold pkg_solve_update_var_resolved.
  destruct (variables (assign_var p k b) !! k) as [v|]; [|done].
  cbn [rules with_rules assign_var with_variables].
  apply Forall_fold_alter; [|done]. intros [|it c] Hc; [done|].
  inversion Hc; subst. by constructor.
Qed.

(** A restart of the sweep of a variable follows the assignment of a
    variable that was not resolved. *)
Lemma check_again_ends fuel : forall s var,
  lits_valid (pr_problem s) -> (unresolved (pr_problem s) < fuel)%nat ->
  pkg_solve_check_again fuel s var <> Fuel
  /\ forall b s', pkg_solve_check_again fuel s var = Ret (b, s') ->
       lits_valid (pr_problem s') /\ nvars (pr_problem s') = nvars (pr_problem s)
       /\ Z.of_nat (unresolved (pr_problem s')) + pr_solved_vars s'
          = Z.of_nat (unresolved (pr_problem s)) + pr_solved_vars s.
Proof.
  induction fuel as [|fuel IH]; intros s var Hl Hu; [lia|].
  simpl.
  destruct (variables (pr_problem s) !! var) as [v|]; [|by split].
  destruct (var_has_conflict _ _); [split; [done|by intros b s' [= <- <-]]|].
  destruct (var_find_unit _ _) as [c|] eqn:Eu; [|split; [done|by intros b s' [= <- <-]]].
  destruct (List.find _ c) as [it|] eqn:Ef; [|by split].
  destruct (pr_propagated s) as [n|]; [|by split].
  (* the literal found names an unresolved variable of the table *)
  apply find_some in Eu as [Hc _]. apply in_map_iff in Hc as (r & Hr & _).
  apply find_some in Ef as [Hit Hunres]. apply negb_true_iff in Hunres.
  assert (Hvalid : (it_var it < nvars (pr_problem s))%nat).
  { unfold rule_at in Hr. unfold lits_valid in Hl. rewrite Forall_forall in Hl.
    destruct (rules (pr_problem s) !! r) as [c0|] eqn:El; simpl in Hr; subst c; [|done].
    specialize (Hl c0 ltac:(by eapply list_elem_of_lookup_2)).
    rewrite Forall_forall in Hl. apply Hl. by apply list_elem_of_In. }
  destruct (lookup_lt_is_Some_2 (variables (pr_problem s)) (it_var it) Hvalid) as [w Hw].
  unfold item_resolved in Hunres. rewrite Hw in Hunres.
  set (p2 := pkg_solve_update_var_resolved _ _).
  destruct (lits_valid_step (pr_problem s) (it_var it) (negb (it_inverse it)) Hl)
    as [Hl2 Hn2]. fold p2 in Hl2, Hn2.
  assert (Hu2 : S (unresolved p2) = unresolved (pr_problem s)).
  { unfold unresolved, p2. rewrite variables_update_var_resolved.
    unfold assign_var. cbn [variables with_variables].
    by apply (unresolved_alter _ _ w). }
  clearbody p2.
  match goal with |- pkg_solve_check_again fuel ?s2 var <> _ /\ _ =>
    destruct (IH s2 var) as [Hnf Hret]; cbn [pr_problem]; [done|lia|] end.
  split; [done|]. intros b s' Hs'. destruct (Hret b s' Hs') as (Ha & Hb & Hc).
  cbn [pr_problem pr_solved_vars] in *. split; [done|]. split; [congruence|].
  rewrite Hc, <- Hu2. lia.
Qed.

Lemma propagate_pass_ends fuel slots : forall s,
  lits_valid (pr_problem s) -> (unresolved (pr_problem s) < fuel)%nat ->
  pkg_solve_propagate_pass fuel s slots <> Fuel
  /\ forall b s', pkg_solve_propagate_pass fuel s slots = Ret (b, s') ->
       lits_valid (pr_problem s') /\ nvars (pr_problem s') = nvars (pr_problem s)
       /\ Z.of_nat (unresolved (pr_problem s')) + pr_solved_vars s'
          = Z.of_nat (unresolved (pr_problem s)) + pr_solved_vars s
       /\ pr_solved_vars s <= pr_solved_vars s'.
Proof.
  induction slots as [|i slots IH]; intros s Hl Hu.
  - split; [done|]. intros b s' [= <- <-]. split; [done|]. split; [done|]. split; lia.
  - simpl. destruct (check_again_ends fuel s i Hl Hu) as [Hnf Hret].
    destruct (pkg_solve_check_again fuel s i) as [[ok s1]| |] eqn:E; [| |done].
    + destruct (Hret ok s1 eq_refl) as (Hl1 & Hn1 & Hc1). simpl.
      assert (Hle1 : (unresolved (pr_problem s1) <= unresolved (pr_problem s))%nat
                     /\ pr_solved_vars s <= pr_solved_vars s1).
      { destruct ok.
        - apply check_again_progress in E as [Hle _]. lia.
        - assert (Hle : pr_solved_vars s <= pr_solved_vars s1); [|lia].
          clear -E. revert s E. induction fuel as [|fuel IHf]; intros s E; [done|].
          simpl in E.
          destruct (variables (pr_problem s) !! i) as [v|]; [|done].
          destruct (var_has_conflict _ _); [injection E as <-; lia|].
          destruct (var_find_unit _ _) as [c|]; [|done].
          destruct (List.find _ c) as [it|]; [|done].
          destruct (pr_propagated s) as [n|]; [|done].
          apply IHf in E. cbn [pr_solved_vars] in E. lia. }
      destruct ok.
      * destruct (IH s1 Hl1) as [Hnf2 Hret2]; [lia|]. split; [done|].
        intros b s' Hs'. destruct (Hret2 b s' Hs') as (Ha & Hb & Hc & Hd).
        split; [done|]. split; [lia|]. split; lia.
      * split; [done|]. intros b s' [= <- <-]. split; [done|]. split; [done|]. split; lia.
    + by split.
Qed.

Lemma propagate_loop_ends fuel : forall s,
  lits_valid (pr_problem s) -> (unresolved (pr_problem s) < fuel)%nat ->
  pkg_solve_propagate_loop fuel s <> Fuel.
Proof.
  induction fuel as [|fuel IH]; intros s Hl Hu; [lia|].
  simpl.
  set (s0 := mk_propagation _ _ _ 0).
  destruct (propagate_pass_ends (S (nvars (pr_problem s))) (seq 0 (nvars (pr_problem s))) s0)
    as [Hnf Hret]; [done| |].
  { pose proof (unresolved_le (pr_problem s)). simpl. lia. }
  destruct (pkg_solve_propagate_pass _ _ _) as [[ok s1]| |]; [| |done].
  - destruct (Hret ok s1 eq_refl) as (Hl1 & Hn1 & Hc1 & Hd1). simpl in *.
    destruct ok; [|done].
    destruct (Z.ltb_spec 0 (pr_solved_vars s1)); [|done].
    apply IH; [done|lia].
  - done.
Qed.

(** X9: on a problem all of whose literals name variables of the table,
    the propagation of units comes to an end: every restart of a sweep and
    every further pass follows the assignment of a variable that was not
    resolved, so that the rounds of the model suffice. *)
Theorem pkg_solve_propagate_units_terminates (p : pkg_solve_problem)
    (propagated : option Z) (graph : option (list nat)) (top_level : bool) :
  lits_valid p ->
  pkg_solve_propagate_units p propagated graph top_level <> Fuel.
Proof.
  intros Hl. unfold pkg_solve_propagate_units. apply propagate_loop_ends; [done|].
  pose proof (unresolved_le p). simpl. lia.
Qed.

Lemma pkg_solve_propagate_units_terminates_witness :
  pkg_solve_propagate_units (Requested.seeded Requested.depends) (Some 0) None true
  <> Fuel.
Proof.
  apply pkg_solve_propagate_units_terminates.
  unfold lits_valid. repeat constructor.
Defined.

(** ** The search is a walk of initial guesses *)

Lemma guessed_assign_var p k b v :
  guessed (assign_var p k b) v = guessed p v.
Proof. done. Qed.

Lemma with_variables_same p : with_variables (variables p) p = p.
Proof. by destruct p. Qed.

Lemma dpll_loop_guesses n : forall fuel s k,
  dpll_quiet s ->
  (nvars (d_problem s) - k <= n)%nat -> (n < fuel)%nat ->
  pkg_solve_dpll_loop fuel s (Z.of_nat k)
  = Ret (true,
         with_variables
           (take k (variables (d_problem s))
            ++ map (guessed (d_problem s)) (drop k (variables (d_problem s))))
           (d_problem s)).
Proof.
  induction n as [|n IH]; intros fuel s k Hq Hn Hf.
  - destruct fuel as [|fuel]; [lia|]. simpl.
    destruct (Z.ltb_spec (Z.of_nat k) (Z.of_nat (nvars (d_problem s)))); [lia|].
    unfold nvars in *. rewrite take_ge, drop_ge by lia. simpl.
    by rewrite app_nil_r, with_variables_same.
  - destruct fuel as [|fuel]; [lia|]. simpl.
    destruct (Z.ltb_spec (Z.of_nat k) (Z.of_nat (nvars (d_problem s)))) as [Hlt|Hge].
    2: { unfold nvars in *. rewrite take_ge, drop_ge by lia. simpl.
         by rewrite app_nil_r, with_variables_same. }
    rewrite Nat2Z.id.
    destruct (variables (d_problem s) !! k) as [v|] eqn:Hv.
    2: { apply lookup_ge_None in Hv. unfold nvars in *. lia. }
    rewrite (drop_S _ _ _ Hv). cbn [map].
    replace (Z.of_nat k + 1) with (Z.of_nat (S k)) by lia.
    destruct (var_resolved v) eqn:Hr.
    + rewrite (IH fuel s (S k)) by (try done; lia).
      rewrite (take_S_r _ _ _ Hv), <- app_assoc. simpl.
      replace (guessed (d_problem s) v) with v; [done|].
      unfold guessed. by rewrite Hr.
    + destruct (dpll_turn_quiet s (Z.of_nat k) v Hq) as (s' & Ht & Hq' & Hp');
        [lia|by rewrite Nat2Z.id|done|].
      replace (Z.of_nat k + 1) with (Z.of_nat (S k)) in Ht by lia.
      rewrite Ht. cbn [run_bind]. rewrite Nat2Z.id in Hp'.
      rewrite (IH fuel s' (S k)); [|done| |lia].
      2: { rewrite Hp', nvars_assign_var. lia. }
      rewrite Hp'. unfold assign_var at 1 2 3. cbn [variables with_variables].
      rewrite drop_alter, decide_False by lia.
      rewrite (take_S_r _ _ (assign (pkg_solve_initial_guess (d_problem s) v) v)).
      2: { by rewrite list_lookup_alter_eq, Hv. }
      rewrite take_alter, decide_False by lia. rewrite <- app_assoc. simpl.
      replace (guessed (d_problem s) v)
        with (assign (pkg_solve_initial_guess (d_problem s) v) v); [reflexivity|].
      unfold guessed. by rewrite Hr.
Qed.

(** X10: once the seeding and the first propagation have succeeded, the
    search is a single walk of the table: every variable that the first
    propagation left unresolved takes its initial guess and every other
    variable keeps its value; no clause is consulted again, no guess is
    undone, the answer is true and every variable is resolved. *)
Theorem pkg_solve_sat_problem_guesses (p p1 : pkg_solve_problem) (r : propagation)
    (fuel : nat) :
  rules_count p <> 0 ->
  pkg_solve_propagate_pure p = Ret p1 ->
  pkg_solve_propagate_units p1 (Some 0) None true = Ret (true, r) ->
  (nvars (pr_problem r) < fuel)%nat ->
  pkg_solve_sat_problem fuel p
  = Ret (true,
         with_variables (map (guessed (pr_problem r)) (variables (pr_problem r)))
                        (pr_problem r))
  /\ Forall (fun v => var_resolved v = true)
            (map (guessed (pr_problem r)) (variables (pr_problem r))).
Proof.
  intros Hc Hp Hu Hf. split.
  - unfold pkg_solve_sat_problem.
    apply Z.eqb_neq in Hc. rewrite Hc, Hp. cbn [run_bind]. rewrite Hu.
    cbn [run_bind negb].
    rewrite (dpll_loop_guesses (nvars (pr_problem r)) fuel _ 0); try done.
    + split; [|done]. by eapply propagate_units_leaves_quiet.
    + cbn [d_problem]. lia.
  - apply Forall_forall. intros v Hv. apply list_elem_of_In, in_map_iff in Hv as (x & <- & _).
    unfold guessed. by destruct (var_resolved x) eqn:E.
Qed.

Lemma pkg_solve_sat_problem_guesses_witness :
  pkg_solve_sat_problem 3 (Scenario.build Requested.depends)
  = Ret (true, pr_problem (Requested.propagated Requested.depends))
  /\ map var_to_install (variables (pr_problem (Requested.propagated Requested.depends)))
     = [true; true].
Proof.
  assert (Hp : pkg_solve_propagate_pure (Scenario.build Requested.depends)
               = Ret (Requested.seeded Requested.depends))
    by (vm_compute; reflexivity).
  assert (Hu : pkg_solve_propagate_units (Requested.seeded Requested.depends)
                 (Some 0) None true
               = Ret (true, Requested.propagated Requested.depends))
    by (vm_compute; reflexivity).
  assert (Hc : rules_count (Scenario.build Requested.depends) <> 0)
    by (vm_compute; discriminate).
  assert (Hf : (nvars (pr_problem (Requested.propagated Requested.depends)) < 3)%nat)
    by (vm_compute; lia).
  destruct (pkg_solve_sat_problem_guesses _ _ _ 3%nat Hc Hp Hu Hf) as [Hs _].
  split; [|vm_compute; reflexivity].
  rewrite Hs. vm_compute. reflexivity.
Defined.

(** ** The solver on a built problem *)

Lemma lits_valid_built p : clauses_built p -> lits_valid p.
Proof.
  intros (Hr & _ & _). unfold lits_valid.
  eapply Forall_impl; [exact Hr|]. intros c (_ & _ & Hc). simpl in *.
  eapply Forall_impl; [exact Hc|]. by intros it [_ H].
Qed.

Lemma items_valid_frame n : forall c c' : list pkg_solve_item,
  map item_frame c = map item_frame c' ->
  Forall (fun it => (it_var it < n)%nat) c' -> Forall (fun it => (it_var it < n)%nat) c.
Proof.
  induction c as [|it c IH]; intros [|it' c'] Heq Hc'; try done.
  injection Heq as _ Hv _ Hr. inversion Hc'; subst.
  constructor; [lia|]. by eapply IH.
Qed.

Lemma lits_valid_frame p q : frame p = frame q -> lits_valid q -> lits_valid p.
Proof.
  intros Hf Hq. unfold lits_valid in *. rewrite (frame_nvars p q Hf).
  apply Forall_lookup. intros r c Hc.
  pose proof (frame_rule_at p q r Hf) as Hfr.
  rewrite (rule_at_Some p r c Hc) in Hfr.
  destruct (rules q !! r) as [c'|] eqn:E'.
  - rewrite (rule_at_Some q r c' E') in Hfr.
    apply (items_valid_frame _ c c' Hfr).
    rewrite Forall_forall in Hq. apply Hq. by eapply list_elem_of_lookup_2.
  - rewrite (rule_at_None q r E') in Hfr. by destruct c.
Qed.

(** The outcome of the solver is that of its first propagation. *)
Lemma sat_problem_outcome p p1 fuel :
  rules_count p <> 0 -> pkg_solve_propagate_pure p = Ret p1 ->
  (nvars p1 < fuel)%nat ->
  match pkg_solve_propagate_units p1 (Some 0) None true with
  | Ret (true, r) =>
      pkg_solve_sat_problem fuel p
      = Ret (true,
             with_variables (map (guessed (pr_problem r)) (variables (pr_problem r)))
                            (pr_problem r))
  | Ret (false, r) => pkg_solve_sat_problem fuel p = Ret (false, pr_problem r)
  | Abort => pkg_solve_sat_problem fuel p = Abort
  | Fuel => pkg_solve_sat_problem fuel p = Fuel
  end.
Proof.
  intros Hc Hp Hf. unfold pkg_solve_sat_problem.
  apply Z.eqb_neq in Hc. rewrite Hc, Hp. cbn [run_bind].
  destruct (pkg_solve_propagate_units p1 _ _ _) as [[[] r]| |] eqn:Hu; try done.
  cbn [run_bind negb].
  assert (Hn : nvars (pr_problem r) = nvars p1).
  { apply frame_nvars.
    eapply (kept_propagate_units (fun q => frame q = frame p1)); [| |exact Hu|done].
    - intros q i c Hq. by rewrite frame_assign_var.
    - intros q i Hq. by rewrite frame_update_var_resolved. }
  rewrite (dpll_loop_guesses (nvars (pr_problem r)) fuel _ 0); try done.
  - split; [|done]. by eapply propagate_units_leaves_quiet.
  - cbn [d_problem]. lia.
  - lia.
Qed.

(** X11: on a problem built from jobs that has clauses, the solver comes
    to an end, and its outcome is that of the seeding followed by the first
    propagation of units: a conflict there is the answer false, a failed
    assertion there is the failure of the solver, and otherwise the answer
    is true with every variable resolved, those that the propagation left
    aside by their initial guess. *)
Theorem pkg_solve_sat_problem_built (jb : pkg_jobs) (p : pkg_solve_problem) (fuel : nat) :
  pkg_solve_jobs_to_sat jb = Some p ->
  rules_count p <> 0 ->
  (nvars p < fuel)%nat ->
  exists p1,
    pkg_solve_propagate_pure p = Ret p1
    /\ match pkg_solve_propagate_units p1 (Some 0) None true with
       | Ret (true, r) =>
           pkg_solve_sat_problem fuel p
           = Ret (true,
                  with_variables
                    (map (guessed (pr_problem r)) (variables (pr_problem r)))
                    (pr_problem r))
       | Ret (false, r) => pkg_solve_sat_problem fuel p = Ret (false, pr_problem r)
       | Abort => pkg_solve_sat_problem fuel p = Abort
       | Fuel => False
       end.
Proof.
  intros Hb Hc Hf.
  pose proof (clauses_built_jobs_to_sat jb p Hb) as Hcb.
  pose proof (counted_jobs_to_sat jb p Hb) as Hcn.
  destruct (pure_before_loop p Hcb Hcn (nvars p) 0 p) as (p1 & Hp & Hfr & _);
    [done|by apply pure_before_start|].
  exists p1. split; [exact Hp|].
  assert (Hl : lits_valid p1).
  { apply (lits_valid_frame p1 p Hfr). by apply lits_valid_built. }
  pose proof (propagate_loop_ends (S (nvars p1)) (mk_propagation p1 (Some 0) None 0) Hl)
    as Hends.
  pose proof (sat_problem_outcome p p1 fuel Hc Hp) as Hout.
  rewrite (frame_nvars p1 p Hfr) in Hout. specialize (Hout Hf).
  unfold pkg_solve_propagate_units in *.
  destruct (pkg_solve_propagate_loop _ _) as [[[] r]| |]; try done.
  apply Hends; [|done]. pose proof (unresolved_le p1). simpl. lia.
Qed.

Lemma pkg_solve_sat_problem_built_witness :
  pkg_solve_sat_problem 3 (Scenario.build Requested.depends)
  = Ret (true, pr_problem (Requested.propagated Requested.depends)).
Proof.
  assert (Hb : pkg_solve_jobs_to_sat Requested.depends
               = Some (Scenario.build Requested.depends))
    by (vm_compute; reflexivity).
  assert (Hc : rules_count (Scenario.build Requested.depends) <> 0)
    by (vm_compute; discriminate).
  assert (Hf : (nvars (Scenario.build Requested.depends) < 3)%nat)
    by (vm_compute; lia).
  destruct (pkg_solve_sat_problem_built _ _ 3%nat Hb Hc Hf) as (p1 & Hp & Hout).
  assert (Hp1 : pkg_solve_propagate_pure (Scenario.build Requested.depends)
                = Ret (Requested.seeded Requested.depends))
    by (vm_compute; reflexivity).
  rewrite Hp1 in Hp. injection Hp as <-.
  assert (Hu : pkg_solve_propagate_units (Requested.seeded Requested.depends)
                 (Some 0) None true
               = Ret (true, Requested.propagated Requested.depends))
    by (vm_compute; reflexivity).
  rewrite Hu in Hout. rewrite Hout. vm_compute. reflexivity.
Defined.

(** ** From the solver to the jobs *)

(** The slots that the index names are slots of the table. *)
Lemma index_slots_valid l : forall base,
  Forall (fun h => (base <= h < base + length (concat (universe_chains base l)))%nat)
         (map snd (concat (map index_entry (universe_chains base l)))).
Proof.
  induction l as [|c l IH]; intros base; [constructor|].
  cbn [universe_chains map concat].
  assert (Hlen : length (chain_of base c) = S (length (snd c))).
  { rewrite <- (length_map un_addr), chain_of_addr. apply length_seq. }
  rewrite map_app, length_app, Hlen. apply Forall_app. split.
  - pose proof (chain_of_addr base c) as Ha.
    destruct (chain_of base c) as [|u us]; [done|].
    simpl in Ha. injection Ha as Hu _. simpl. constructor; [|done]. simpl. lia.
  - eapply Forall_impl; [apply IH|]. simpl. intros h Hh. lia.
Qed.

(** X12: when the solver answers true on a problem built from jobs that
    has clauses, the emission of the jobs does not fail: the head of every
    chain is resolved. *)
Theorem pkg_solve_sat_to_jobs_after_solve (jb : pkg_jobs) (p p' : pkg_solve_problem)
    (fuel : nat) :
  pkg_solve_jobs_to_sat jb = Some p ->
  rules_count p <> 0 ->
  (nvars p < fuel)%nat ->
  pkg_solve_sat_problem fuel p = Ret (true, p') ->
  exists p'' log,
    pkg_solve_sat_to_jobs p' = (EPKG_OK, p'', log)
    /\ variables p'' = variables p'.
Proof.
  intros Hb Hc Hf Hs.
  pose proof (clauses_built_jobs_to_sat jb p Hb) as Hcb.
  pose proof (counted_jobs_to_sat jb p Hb) as Hcn.
  destruct (pure_before_loop p Hcb Hcn (nvars p) 0 p) as (p1 & Hp & Hfr & _);
    [done|by apply pure_before_start|].
  pose proof (sat_problem_outcome p p1 fuel Hc Hp) as Hout.
  rewrite (frame_nvars p1 p Hfr) in Hout. specialize (Hout Hf).
  destruct (pkg_solve_propagate_units p1 _ _ _) as [[[] r]| |] eqn:Hu;
    rewrite Hs in Hout; try done.
  injection Hout as ->.
  assert (Hfr' : frame (pr_problem r) = frame p).
  { rewrite <- Hfr.
    eapply (kept_propagate_units (fun q => frame q = frame p1)); [| |exact Hu|done].
    - intros q i c Hq. by rewrite frame_assign_var.
    - intros q i Hq. by rewrite frame_update_var_resolved. }
  unfold pkg_solve_sat_to_jobs. rewrite sat_to_jobs_iter_ok.
  - eexists _, _. split; [reflexivity|]. apply emit_chains_variables.
  - cbn [variables_by_uid with_variables].
    assert (Hidx : variables_by_uid (pr_problem r) = variables_by_uid p)
      by by injection Hfr'.
    rewrite Hidx.
    pose proof (table_jobs_to_sat jb p Hb) as Ht.
    assert (Hidx' : variables_by_uid p
                    = concat (map index_entry (universe_chains 0 (items (universe jb)))))
      by by injection Ht.
    assert (Hnv : nvars p = length (concat (universe_chains 0 (items (universe jb))))).
    { injection Ht as Hvs _ _. apply (f_equal length) in Hvs.
      rewrite !length_map in Hvs. exact Hvs. }
    rewrite Hidx'. eapply Forall_impl; [apply index_slots_valid|].
    intros h Hh. simpl in Hh. unfold head_resolved. cbn [variables with_variables].
    rewrite list_lookup_fmap.
    destruct (variables (pr_problem r) !! h) as [v|] eqn:Ev.
    + simpl. unfold guessed. by destruct (var_resolved v) eqn:E.
    + apply lookup_ge_None in Ev.
      pose proof (frame_nvars _ _ Hfr') as Hn. unfold nvars in *. lia.
Qed.

Lemma pkg_solve_sat_to_jobs_after_solve_witness :
  exists p'' log,
    pkg_solve_sat_to_jobs (pr_problem (Requested.propagated Requested.depends))
    = (EPKG_OK, p'', log).
Proof.
  assert (Hb : pkg_solve_jobs_to_sat Requested.depends
               = Some (Scenario.build Requested.depends))
    by (vm_compute; reflexivity).
  assert (Hc : rules_count (Scenario.build Requested.depends) <> 0)
    by (vm_compute; discriminate).
  assert (Hf : (nvars (Scenario.build Requested.depends) < 3)%nat)
    by (vm_compute; lia).
  assert (Hs : pkg_solve_sat_problem 3 (Scenario.build Requested.depends)
               = Ret (true, pr_problem (Requested.propagated Requested.depends)))
    by (vm_compute; reflexivity).
  destruct (pkg_solve_sat_to_jobs_after_solve _ _ _ 3%nat Hb Hc Hf Hs)
    as (p'' & log & He & _).
  by exists p'', log.
Defined.

(** ** The records that the emitter appends *)

Lemma jobs_grow_refl jb : jobs_grow jb jb [].
Proof. unfold jobs_grow. rewrite app_nil_r. simpl. repeat split; try done; lia. Qed.

Lemma jobs_grow_trans jb1 jb2 jb3 a b :
  jobs_grow jb1 jb2 a -> jobs_grow jb2 jb3 b -> jobs_grow jb1 jb3 (a ++ b).
Proof.
  intros (Hj & Hc & Ht & Hu & Hra & Hrd) (Hj' & Hc' & Ht' & Hu' & Hra' & Hrd').
  unfold jobs_grow. rewrite Hj', Hj, Hc', Hc, Ht', Ht, Hu', Hu, Hra', Hra, Hrd', Hrd.
  rewrite app_assoc, length_app. repeat split; try done. lia.
Qed.

Lemma jobs_grow_append jb res : jobs_grow jb (jobs_append jb res) [res].
Proof. unfold jobs_grow, jobs_append. simpl. repeat split; try done; lia. Qed.

Lemma jobs_grow_schedule p s chain jb :
  jobs_grow jb (fold_left (schedule_delete p s) chain jb)
            (map (delete_record p) (List.filter (kept_del p s) chain)).
Proof.
  pose proof (schedule_delete_fold p s chain jb) as (Hj & Hc & Ht & Hu & Hra & Hrd).
  unfold jobs_grow. rewrite length_map. by repeat split.
Qed.

Lemma filter_nil_andb {A} (f g : A -> bool) l :
  List.filter f l = [] -> List.filter (fun x => f x && g x) l = [].
Proof. intros H. by rewrite filter_andb, H. Qed.

Lemma filter_andb_true {A} (f g : A -> bool) l :
  (forall x, g x = true) -> List.filter (fun x => f x && g x) l = List.filter f l.
Proof.
  intros Hg. apply List.filter_ext. intros x. by rewrite Hg, andb_true_r.
Qed.

(** X13: the emission for a chain without an upgrade.  A chain with no
    package to add and none to delete changes nothing; a chain with one
    package to add and none to delete gets one record, a fetch for a fetch
    job and an installation otherwise; a chain with no package to add gets
    one deletion for every installed member that is not to install, in the
    order of the chain.  [count] grows by the number of records and the
    variables are not written. *)
Theorem pkg_solve_insert_res_job_cases (p : pkg_solve_problem) (head : nat) :
  (List.filter (add_at p) (chain_from p (Some head)) = [] ->
   List.filter (del_at p) (chain_from p (Some head)) = [] ->
   pkg_solve_insert_res_job head p = (p, []))
  /\ (forall a,
        List.filter (add_at p) (chain_from p (Some head)) = [a] ->
        List.filter (del_at p) (chain_from p (Some head)) = [] ->
        exists p',
          pkg_solve_insert_res_job head p = (p', [])
          /\ variables p' = variables p
          /\ jobs_grow (j p) (j p')
               [mk_solved (if pkg_jobs_t_eqb (jobs_type (j p)) PKG_JOBS_FETCH
                           then PKG_SOLVED_FETCH else PKG_SOLVED_INSTALL)
                          (unit_of p (Some a)) None])
  /\ (List.filter (add_at p) (chain_from p (Some head)) = [] ->
      List.filter (del_at p) (chain_from p (Some head)) <> [] ->
      exists p',
        pkg_solve_insert_res_job head p = (p', [])
        /\ variables p' = variables p
        /\ jobs_grow (j p) (j p')
             (map (delete_record p)
                  (List.filter (del_at p) (chain_from p (Some head))))).
Proof.
  unfold pkg_solve_insert_res_job.
  pose proof (classify_fold p (chain_from p (Some head)) (mk_seen None 0 None 0))
    as (Ha & Hd & Hav & Hdv).
  simpl in Ha, Hd, Hav, Hdv.
  set (s := fold_left (classify p) (chain_from p (Some head)) (mk_seen None 0 None 0)) in *.
  clearbody s. split; [|split].
  - intros Hadd Hdel. rewrite Hadd in Ha. rewrite Hdel in Hd. simpl in Ha, Hd.
    by rewrite Ha, Hd.
  - intros a Hadd Hdel. rewrite Hadd in Ha, Hav. rewrite Hdel in Hd.
    simpl in Ha, Hd, Hav. rewrite Ha, Hd, Hav. simpl.
    eexists. split; [reflexivity|]. split; [done|].
    cbn [j with_j].
    eapply (jobs_grow_trans _ _ _ [_] []); [apply jobs_grow_append|].
    pose proof (jobs_grow_schedule p s (chain_from p (Some head))
                  (jobs_append (j p)
                     (mk_solved (if pkg_jobs_t_eqb (jobs_type (j p)) PKG_JOBS_FETCH
                                 then PKG_SOLVED_FETCH else PKG_SOLVED_INSTALL)
                                (unit_of p (Some a)) None))) as Hg.
    unfold kept_del in Hg. rewrite (filter_nil_andb _ _ _ Hdel) in Hg. exact Hg.
  - intros Hadd Hdel. rewrite Hadd in Ha. simpl in Ha. rewrite Ha, Hd.
    destruct (List.filter (del_at p) (chain_from p (Some head))) as [|d ds] eqn:Edel;
      [done|].
    replace (Z.of_nat (length (d :: ds)) =? 0) with false
      by (symmetry; apply Z.eqb_neq; simpl length; lia).
    simpl. eexists. split; [reflexivity|]. split; [done|].
    cbn [j with_j].
    pose proof (jobs_grow_schedule p s (chain_from p (Some head)) (j p)) as Hg.
    unfold kept_del in Hg. rewrite Ha in Hg. simpl in Hg.
    rewrite (filter_andb_true (del_at p)) in Hg by done. by rewrite Edel in Hg.
Qed.

Lemma pkg_solve_insert_res_job_cases_witness :
  pkg_solve_insert_res_job 0 (assign_var (Scenario.build Scenario.independent) 0 true)
  = (assign_var (Scenario.build Scenario.independent) 0 true, [])
  /\ (exists p',
        pkg_solve_insert_res_job 0 (pr_problem (Requested.propagated Requested.depends))
        = (p', [])
        /\ map solved_type (jobs (j p')) = [PKG_SOLVED_INSTALL])
  /\ (exists p',
        pkg_solve_insert_res_job 0 (assign_var (Scenario.build Scenario.independent) 0 false)
        = (p', [])
        /\ map solved_type (jobs (j p')) = [PKG_SOLVED_DELETE]).
Proof.
  split; [|split].
  - apply (proj1 (pkg_solve_insert_res_job_cases _ 0%nat)); reflexivity.
  - destruct (proj1 (proj2 (pkg_solve_insert_res_job_cases
                              (pr_problem (Requested.propagated Requested.depends)) 0%nat))
                0%nat) as (p' & He & _ & Hj & _);
      [vm_compute; reflexivity|vm_compute; reflexivity|].
    exists p'. split; [exact He|]. rewrite Hj. vm_compute. reflexivity.
  - destruct (proj2 (proj2 (pkg_solve_insert_res_job_cases
                              (assign_var (Scenario.build Scenario.independent) 0 false)
                              0%nat)))
      as (p' & He & _ & Hj & _); [vm_compute; reflexivity|vm_compute; discriminate|].
    exists p'. split; [exact He|]. rewrite Hj. vm_compute. reflexivity.
Defined.

Lemma insert_res_job_grow var p :
  (exists added, jobs_grow (j p) (j (fst (pkg_solve_insert_res_job var p))) added)
  /\ variables (fst (pkg_solve_insert_res_job var p)) = variables p
  /\ rules (fst (pkg_solve_insert_res_job var p)) = rules p
  /\ variables_by_uid (fst (pkg_solve_insert_res_job var p)) = variables_by_uid p
  /\ rules_count (fst (pkg_solve_insert_res_job var p)) = rules_count p.
Proof.
  unfold pkg_solve_insert_res_job.
  set (s := fold_left _ _ _). clearbody s.
  destruct (1 <? seen_add s); [split; [|done]; eexists; apply jobs_grow_refl|].
  destruct (_ || _); [|split; [|done]; eexists; apply jobs_grow_refl].
  cbn [fst j with_j variables rules variables_by_uid rules_count].
  split; [|done].
  destruct (0 <? seen_add s).
  - destruct (seen_del s =? 0); eexists;
      (eapply jobs_grow_trans; [apply jobs_grow_append|apply jobs_grow_schedule]).
  - eexists. apply jobs_grow_schedule.
Qed.

Lemma sat_to_jobs_iter_grow heads : forall p log e p' log',
  sat_to_jobs_iter heads p log = (e, p', log') ->
  (exists added, jobs_grow (j p) (j p') added)
  /\ variables p' = variables p /\ rules p' = rules p
  /\ variables_by_uid p' = variables_by_uid p /\ rules_count p' = rules_count p.
Proof.
  induction heads as [|h heads IH]; intros p log e p' log' Hr.
  - injection Hr as <- <- <-. split; [|done]. eexists. apply jobs_grow_refl.
  - simpl in Hr. destruct (negb _).
    + injection Hr as <- <- <-. split; [|done]. eexists. apply jobs_grow_refl.
    + pose proof (insert_res_job_grow h p) as ([a Ha] & Hv & Hrs & Hi & Hc).
      destruct (pkg_solve_insert_res_job h p) as [p1 ev]. simpl in *.
      destruct (IH _ _ _ _ _ Hr) as ([b Hb] & Hv' & Hrs' & Hi' & Hc').
      split; [eexists; by eapply jobs_grow_trans|].
      repeat split; congruence.
Qed.

(** X14: whether it fails or not, the emitter only appends records to the
    job list of the problem, and [count] grows by the number of records
    appended; the job type, the universe and the requests, the variables,
    the clauses and the index are left as they were. *)
Theorem pkg_solve_sat_to_jobs_appends (p p' : pkg_solve_problem) (e : epkg)
    (log : list event) :
  pkg_solve_sat_to_jobs p = (e, p', log) ->
  (exists added, jobs_grow (j p) (j p') added)
  /\ variables p' = variables p /\ rules p' = rules p
  /\ variables_by_uid p' = variables_by_uid p /\ rules_count p' = rules_count p.
Proof. apply sat_to_jobs_iter_grow. Qed.

Lemma pkg_solve_sat_to_jobs_appends_witness :
  exists p' added,
    pkg_solve_sat_to_jobs (pr_problem (Requested.propagated Requested.depends))
    = (EPKG_OK, p', [])
    /\ jobs_grow (j (pr_problem (Requested.propagated Requested.depends))) (j p') added
    /\ length added = 2%nat.
Proof.
  assert (He : exists p',
             pkg_solve_sat_to_jobs (pr_problem (Requested.propagated Requested.depends))
             = (EPKG_OK, p', []) /\ length (jobs (j p')) = 2%nat).
  { eexists. split; vm_compute; reflexivity. }
  destruct He as (p' & He & Hlen).
  destruct (pkg_solve_sat_to_jobs_appends _ _ _ _ He) as ([added Hg] & _).
  exists p', added. split; [exact He|]. split; [exact Hg|].
  destruct Hg as (Hj & _). rewrite Hj in Hlen. exact Hlen.
Defined.

(** ** Undoing a level *)

Lemma lookup_fold_unresolve (g : list nat) : forall (vs : list pkg_solve_variable) i,
  fold_left (fun vs cur => alter (set_resolved false) cur vs) g vs !! i
  = (if existsb (Nat.eqb i) g then set_resolved false else id) <$> vs !! i.
Proof.
  induction g as [|x g IH]; intros vs i.
  - simpl. by destruct (vs !! i).
  - cbn [fold_left existsb]. rewrite IH. rewrite list_lookup_alter.
    destruct (Nat.eqb_spec i x) as [->|Hne].
    + rewrite decide_True by done. simpl.
      destruct (vs !! x) as [v|]; [|done]. simpl. by destruct (existsb _ g).
    + rewrite decide_False by done. done.
Qed.

(** X15: [pkg_solve_undo_guess] on the graph of a level clears [resolved]
    of exactly the variables of the graph, keeps [to_install] of every
    variable and every other field of the problem, and cuts the graph back
    to its head; on an empty graph it writes through the null pointer. *)
Theorem pkg_solve_undo_guess_effect (p : pkg_solve_problem) (graph : list nat) :
  match graph with
  | [] => pkg_solve_undo_guess p graph = Abort
  | head :: _ =>
      exists p',
        pkg_solve_undo_guess p graph = Ret (p', [head])
        /\ frame p' = frame p
        /\ rules p' = rules p
        /\ map var_to_install (variables p') = map var_to_install (variables p)
        /\ forall i v,
             variables p !! i = Some v ->
             variables p' !! i
             = Some (if existsb (Nat.eqb i) graph then set_resolved false v else v)
  end.
Proof.
  destruct graph as [|head g]; [done|].
  eexists. split; [reflexivity|].
  cbn [rules variables with_variables].
  split; [|split; [done|split]].
  - assert (Hk : forall q i, frame q = frame p ->
                frame (with_variables (alter (set_resolved false) i (variables q)) q)
                = frame p).
    { intros q i Hq. rewrite <- Hq. by apply frame_alter_var. }
    exact (kept_undo_guess (fun q => frame q = frame p) Hk p (head :: g) _ _
             eq_refl eq_refl).
  - apply list_eq. intros i. rewrite !list_lookup_fmap, lookup_fold_unresolve.
    destruct (variables p !! i) as [v|]; [|done]. simpl.
    by destruct (_ || _).
  - intros i v Hv. rewrite lookup_fold_unresolve, Hv. simpl.
    by destruct (_ || _).
Qed.

(** ** The clauses of a dependency and of a declared conflict *)

(** X16: a dependency on a unique id that has no variable adds nothing and
    is reported with [EPKG_END]; otherwise one clause is added, of the
    negated variable and of every member of the chain of the dependency,
    and it is referenced, with its arity added to [nrules], from every
    member of that chain and from the variable. *)
Theorem pkg_solve_add_depend_rule_clause (p : pkg_solve_problem) (var : nat)
    (dep : string) :
  (hash_find_str (variables_by_uid p) dep = None ->
   pkg_solve_add_depend_rule p var dep = (EPKG_END, p))
  /\ (forall depvar,
        hash_find_str (variables_by_uid p) dep = Some depvar ->
        exists c p',
          pkg_solve_add_depend_rule p var dep = (EPKG_OK, p')
          /\ rules p' = rules p ++ [c]
          /\ rules_count p' = rules_count p + 1
          /\ literals c
             = rev (map (fun x => (x, false)) (chain_from p (Some depvar)))
               ++ [(var, true)]
          /\ rule_nitems c = 1 + Z.of_nat (length (chain_from p (Some depvar)))
          /\ rule_nresolved c = 0
          /\ variables p'
             = fold_left
                 (fun vs t =>
                    alter (attach_rule (length (rules p))
                             (1 + Z.of_nat (length (chain_from p (Some depvar))))) t vs)
                 (chain_from p (Some depvar) ++ [var]) (variables p)).
Proof.
  unfold pkg_solve_add_depend_rule. split.
  - by intros ->.
  - intros depvar ->. eexists _, _. split; [reflexivity|].
    split; [reflexivity|]. split; [reflexivity|].
    split; [by rewrite prepend_chain_literals|].
    split; [rewrite prepend_chain_nitems; simpl; lia|].
    split; [by apply prepend_chain_nresolved|].
    unfold problem_add_rule, pkg_solve_add_var_rules.
    cbn [variables with_variables]. by rewrite fold_left_app.
Qed.

Lemma pkg_solve_add_depend_rule_clause_witness :
  pkg_solve_add_depend_rule (add_universe_variables Scenario.depends) 0 "C"
  = (EPKG_END, add_universe_variables Scenario.depends)
  /\ exists c p',
       pkg_solve_add_depend_rule (add_universe_variables Scenario.depends) 0 "B"
       = (EPKG_OK, p')
       /\ rules p' = [c]
       /\ literals c = [(1, false); (0, true)]%nat
       /\ map var_nrules (variables p') = [2; 2].
Proof.
  split.
  - apply (proj1 (pkg_solve_add_depend_rule_clause _ 0%nat "C")). reflexivity.
  - destruct (proj2 (pkg_solve_add_depend_rule_clause
                       (add_universe_variables Scenario.depends) 0%nat "B") 1%nat)
      as (c & p' & He & Hr & _ & Hl & _ & _ & Hv); [vm_compute; reflexivity|].
    exists c, p'. split; [exact He|]. split; [exact Hr|].
    split; [rewrite Hl; reflexivity|]. rewrite Hv. reflexivity.
Defined.

Lemma table_lookup p q i :
  table q = table p ->
  match variables q !! i with
  | Some cv => exists cv0, variables p !! i = Some cv0
                           /\ is_installed cv = is_installed cv0
  | None => variables p !! i = None
  end.
Proof.
  intros [= Hv _ _].
  assert (H : set_rules [] 0 <$> variables q !! i = set_rules [] 0 <$> variables p !! i).
  { rewrite <- !list_lookup_fmap.
    change (map (set_rules [] 0) (variables q) !! i
            = map (set_rules [] 0) (variables p) !! i).
    by rewrite Hv. }
  destruct (variables q !! i) as [cv|], (variables p !! i) as [cv0|]; try done.
  exists cv0. split; [done|]. simpl in H. injection H as Hu _.
  unfold is_installed. by rewrite Hu.
Qed.

Lemma conflict_fold p pk var conflict chain : forall q,
  table q = table p ->
  table (fold_left (conflict_step pk var conflict) chain q) = table p
  /\ map literals (rules (fold_left (conflict_step pk var conflict) chain q))
     = map literals (rules q)
       ++ map (fun cur => [(cur, true); (var, true)])
              (List.filter (conflict_kept p pk conflict) chain)
  /\ rules_count (fold_left (conflict_step pk var conflict) chain q)
     = rules_count q
       + Z.of_nat (length (List.filter (conflict_kept p pk conflict) chain)).
Proof.
  induction chain as [|cur chain IH]; intros q Hq.
  - simpl. rewrite app_nil_r. split; [done|]. split; [done|]. lia.
  - cbn [fold_left List.filter].
    pose proof (table_lookup p q cur Hq) as Hl.
    assert (Hk : conflict_kept p pk conflict cur
                 = match variables q !! cur with
                   | Some cv =>
                       negb (conflict_skips (conflict_type conflict)
                               (pkg_t_eqb (pkg_type pk) PKG_INSTALLED) (is_installed cv))
                   | None => false
                   end).
    { unfold conflict_kept. destruct (variables q !! cur) as [cv|].
      - destruct Hl as (cv0 & -> & ->). done.
      - by rewrite Hl. }
    rewrite Hk. clear Hk Hl. unfold conflict_step at 2 4 6.
    destruct (variables q !! cur) as [cv|]; [|by apply IH].
    destruct (conflict_skips _ _ _); cbn [negb]; [by apply IH|].
    destruct (IH (add_binary_conflict q var cur)) as (Ht & Hr & Hc).
    { by rewrite table_add_binary_conflict. }
    split; [done|]. rewrite Hr, Hc. split.
    + unfold add_binary_conflict, problem_add_rule, pkg_solve_add_var_rules.
      cbn [rules with_variables]. rewrite map_app, <- app_assoc. done.
    + unfold add_binary_conflict, problem_add_rule, pkg_solve_add_var_rules.
      cbn [rules_count with_variables length]. lia.
Qed.

(** X17: a declared conflict with a unique id that has no variable adds
    nothing and is reported with [EPKG_END]; otherwise every member of the
    chain of that unique id that the filter of the conflict type lets
    through gives one clause of the two negated variables, in the order of
    the chain, and nothing but clauses and rule references is written. *)
Theorem pkg_solve_add_conflict_rule_clauses (p : pkg_solve_problem) (pk : pkg)
    (var : nat) (conflict : pkg_conflict) :
  (hash_find_str (variables_by_uid p) (conflict_uniqueid conflict) = None ->
   pkg_solve_add_conflict_rule p pk var conflict = (EPKG_END, p))
  /\ (forall confvar,
        hash_find_str (variables_by_uid p) (conflict_uniqueid conflict) = Some confvar ->
        exists p',
          pkg_solve_add_conflict_rule p pk var conflict = (EPKG_OK, p')
          /\ map literals (rules p')
             = map literals (rules p)
               ++ map (fun cur => [(cur, true); (var, true)])
                      (List.filter (conflict_kept p pk conflict)
                                   (chain_from p (Some confvar)))
          /\ rules_count p'
             = rules_count p
               + Z.of_nat (length (List.filter (conflict_kept p pk conflict)
                                               (chain_from p (Some confvar))))
          /\ table p' = table p).
Proof.
  unfold pkg_solve_add_conflict_rule. split.
  - by intros ->.
  - intros confvar ->. eexists. split; [reflexivity|].
    destruct (conflict_fold p pk var conflict (chain_from p (Some confvar)) p eq_refl)
      as (Ht & Hr & Hc).
    by repeat split.
Qed.

Lemma pkg_solve_add_conflict_rule_clauses_witness :
  pkg_solve_add_conflict_rule (add_universe_variables Conflicting.jb)
    Conflicting.A 0 (mk_conflict "C" PKG_CONFLICT_ALL)
  = (EPKG_END, add_universe_variables Conflicting.jb)
  /\ exists p',
       pkg_solve_add_conflict_rule (add_universe_variables Conflicting.jb)
         Conflicting.A 0 (mk_conflict "B" PKG_CONFLICT_REMOTE_LOCAL)
       = (EPKG_OK, p')
       /\ map literals (rules p') = [[(1, true); (0, true)]]%nat.
Proof.
  split.
  - apply (proj1 (pkg_solve_add_conflict_rule_clauses _ _ 0%nat
                    (mk_conflict "C" PKG_CONFLICT_ALL))). reflexivity.
  - destruct (proj2 (pkg_solve_add_conflict_rule_clauses
                       (add_universe_variables Conflicting.jb) Conflicting.A 0%nat
                       (mk_conflict "B" PKG_CONFLICT_REMOTE_LOCAL)) 1%nat)
      as (p' & He & Hr & _); [vm_compute; reflexivity|].
    exists p'. split; [exact He|]. rewrite Hr. reflexivity.
Defined.

(** ** The clauses of the requests *)

Lemma unary_of_weaken rs c v :
  Forall (fun r => (r < length rs)%nat) (var_rules v) ->
  unary_of (rs ++ [c]) v = unary_of rs v.
Proof.
  intros Hr. unfold unary_of.
  replace (map (fun r => default [] ((rs ++ [c]) !! r)) (var_rules v))
    with (map (fun r => default [] (rs !! r)) (var_rules v)); [done|].
  apply map_ext_in. intros r Hin. rewrite Forall_forall in Hr.
  rewrite lookup_app_l; [done|]. apply Hr. by apply list_elem_of_In.
Qed.

Lemma unary_of_attach rs c n v :
  rule_nitems c <> 1 ->
  unary_of (rs ++ [c]) (attach_rule (length rs) n v) = unary_of (rs ++ [c]) v.
Proof.
  intros Hc. unfold unary_of. cbn [attach_rule set_rules var_rules map List.find].
  rewrite lookup_app_at. cbn [lookup list_lookup default from_option id].
  by rewrite (proj2 (Z.eqb_neq _ _) Hc).
Qed.

Lemma unary_of_attach_unary rs var inverse v :
  unary_of (rs ++ [RULE_ITEM_PREPEND [] (item_inverse inverse (pkg_solve_item_new var))])
           (attach_rule (length rs) 1 v)
  = Some inverse.
Proof.
  unfold unary_of. cbn [attach_rule set_rules var_rules map List.find].
  by rewrite lookup_app_at.
Qed.

(** A clause of more than one literal added to the problem and referenced
    from the variables [ts]. *)
Lemma unary_is_attach F p c n ts :
  counted p -> unary_is F p -> rule_nitems c <> 1 ->
  unary_is F
    (mk_problem (j p) (rules_count p + 1) (rules p ++ [c]) (variables_by_uid p)
       (fold_left (fun l t => alter (attach_rule (length (rules p)) n) t l) ts
                  (variables p))).
Proof.
  intros Hcnt HF Hc. unfold unary_is. cbn [rules variables].
  apply (lookup_fold_alter
           (fun i v => unary_of (rules p ++ [c]) v = F i (var_unit v))).
  - intros t v _ Hv. by rewrite unary_of_attach.
  - intros i v Hv. rewrite unary_of_weaken; [by apply HF|].
    unfold counted in Hcnt. rewrite Forall_forall in Hcnt.
    destruct (Hcnt v) as [_ Hr]; [by eapply list_elem_of_lookup_2|]. exact Hr.
Qed.

Lemma unary_is_ext F G p :
  (forall i v, variables p !! i = Some v -> F i (var_unit v) = G i (var_unit v)) ->
  unary_is F p -> unary_is G p.
Proof. intros Heq HF i v Hv. rewrite <- (Heq i v Hv). by apply HF. Qed.

Lemma hash_find_str_In {A} (h : list (string * A)) uid x :
  hash_find_str h uid = Some x -> In (uid, x) h.
Proof.
  induction h as [|[k v] h IH]; [done|]. simpl.
  destruct (String.eqb_spec k uid) as [->|Hne].
  - intros [= ->]. by left.
  - intros H. right. by apply IH.
Qed.

Lemma chain_from_nonempty p i : (i < nvars p)%nat -> chain_from p (Some i) <> [].
Proof.
  intros Hi. unfold chain_from. destruct (nvars p) as [|n] eqn:En; [lia|].
  cbn [var_chain]. destruct (variables p !! i) as [v|] eqn:E; [done|].
  apply lookup_ge_None in E. unfold nvars in En. lia.
Qed.

(** The invariant of the second walk of [pkg_solve_jobs_to_sat]. *)
Section Requests.
Variable F : nat -> pkg_job_universe_item -> option bool.

Lemma index_valid_table p q : table p = table q -> index_valid q -> index_valid p.
Proof.
  intros Ht Hq. unfold index_valid. rewrite (nvars_table p q Ht).
  injection Ht as _ Hi _. by rewrite Hi.
Qed.

Lemma unary_is_add_depend p var dep :
  index_valid p -> counted p -> unary_is F p ->
  unary_is F (snd (pkg_solve_add_depend_rule p var dep)).
Proof.
  intros Hi Hc HF. unfold pkg_solve_add_depend_rule.
  destruct (hash_find_str _ _) as [depvar|] eqn:Ed; [|done].
  unfold problem_add_rule, pkg_solve_add_var_rules.
  cbn [snd rules variables with_variables j rules_count variables_by_uid].
  rewrite <- fold_left_app. apply unary_is_attach; [done|done|].
  rewrite prepend_chain_nitems, RULE_ITEM_PREPEND_nitems. simpl.
  apply hash_find_str_In in Ed. unfold index_valid in Hi. rewrite Forall_forall in Hi.
  specialize (Hi _ (proj2 (list_elem_of_In _ _) Ed)). simpl in Hi.
  pose proof (chain_from_nonempty p depvar Hi).
  destruct (chain_from p (Some depvar)); [done|]. simpl length. lia.
Qed.

Lemma unary_is_add_binary_conflict p var curvar :
  counted p -> unary_is F p -> unary_is F (add_binary_conflict p var curvar).
Proof.
  intros Hc HF. unfold add_binary_conflict, problem_add_rule, pkg_solve_add_var_rules.
  cbn [rules variables with_variables j rules_count variables_by_uid].
  rewrite <- fold_left_app. by apply unary_is_attach.
Qed.

Lemma unary_is_fold {A} (f : pkg_solve_problem -> A -> pkg_solve_problem) xs :
  (forall q x, counted q /\ unary_is F q -> counted (f q x) /\ unary_is F (f q x)) ->
  forall p, counted p /\ unary_is F p ->
            counted (fold_left f xs p) /\ unary_is F (fold_left f xs p).
Proof.
  intros Hf. induction xs as [|x xs IH]; intros p Hp; [done|].
  simpl. apply IH. by apply Hf.
Qed.

Lemma unary_is_add_conflict p pk var conflict :
  counted p /\ unary_is F p ->
  counted (snd (pkg_solve_add_conflict_rule p pk var conflict))
  /\ unary_is F (snd (pkg_solve_add_conflict_rule p pk var conflict)).
Proof.
  intros Hp. unfold pkg_solve_add_conflict_rule.
  destruct (hash_find_str _ _) as [confvar|]; [|done]. cbn [snd].
  apply unary_is_fold; [|done]. intros q x [Hc HF].
  destruct (variables q !! x); [|done].
  destruct (conflict_skips _ _ _); [done|].
  split; [by apply counted_add_binary_conflict|by apply unary_is_add_binary_conflict].
Qed.

Lemma unary_is_add_require p var shlib :
  counted p -> unary_is F p -> unary_is F (pkg_solve_add_require_rule p var shlib).
Proof.
  intros Hc HF. unfold pkg_solve_add_require_rule.
  destruct (hash_find_str _ _) as [prhead|]; [|done].
  rewrite handle_provide_fold.
  destruct (1 <? _) eqn:Ecnt; [|done]. apply Z.ltb_lt in Ecnt.
  unfold problem_add_rule, pkg_solve_add_var_rules.
  cbn [rules variables with_variables j rules_count variables_by_uid].
  apply (unary_is_attach F p _ _ [var]); [done|done|].
  rewrite prepend_chain_nitems, RULE_ITEM_PREPEND_nitems. simpl. lia.
Qed.

Lemma unary_is_add_chain p var :
  counted p /\ unary_is F p ->
  counted (pkg_solve_add_chain_rule p var) /\ unary_is F (pkg_solve_add_chain_rule p var).
Proof.
  intros Hp. unfold pkg_solve_add_chain_rule.
  destruct (variables p !! var); [|done].
  apply unary_is_fold; [|done]. intros q x [Hc HF].
  split; [by apply counted_add_binary_conflict|by apply unary_is_add_binary_conflict].
Qed.

Lemma unary_is_add_unary p var inverse :
  counted p -> unary_is F p ->
  unary_is (fun i u => if Nat.eqb i var then Some inverse else F i u)
           (pkg_solve_add_unary_rule p var inverse).
Proof.
  intros Hc HF i v. unfold pkg_solve_add_unary_rule, problem_add_rule,
    pkg_solve_add_var_rules.
  cbn [rules variables with_variables fold_left].
  assert (Hw : forall x, variables p !! i = Some x ->
                         unary_of (rules p ++ [RULE_ITEM_PREPEND []
                                     (item_inverse inverse (pkg_solve_item_new var))]) x
                         = F i (var_unit x)).
  { intros x Hx. rewrite unary_of_weaken; [by apply HF|].
    unfold counted in Hc. rewrite Forall_forall in Hc.
    destruct (Hc x) as [_ Hr]; [by eapply list_elem_of_lookup_2|]. exact Hr. }
  destruct (Nat.eqb_spec i var) as [->|Hne].
  - rewrite list_lookup_alter_eq. destruct (variables p !! var) as [x|]; [|done].
    intros [= <-]. apply unary_of_attach_unary.
  - rewrite list_lookup_alter_ne by done. apply Hw.
Qed.
End Requests.

Lemma table_unit p q i v v' :
  table p = table q -> variables p !! i = Some v -> variables q !! i = Some v' ->
  var_unit v = var_unit v'.
Proof.
  intros [= Hv _ _] Hp Hq.
  assert (H : set_rules [] 0 <$> variables p !! i = set_rules [] 0 <$> variables q !! i).
  { rewrite <- !list_lookup_fmap.
    change (map (set_rules [] 0) (variables p) !! i
            = map (set_rules [] 0) (variables q) !! i).
    by rewrite Hv. }
  rewrite Hp, Hq in H. simpl in H. by injection H.
Qed.

Section Building.
Variable T : list pkg_solve_variable * list (string * nat) * pkg_jobs.

Lemma building_fold {A} F (f : pkg_solve_problem -> A -> pkg_solve_problem) xs :
  (forall q x, building T F q -> building T F (f q x)) ->
  forall p, building T F p -> building T F (fold_left f xs p).
Proof.
  intros Hf. induction xs as [|x xs IH]; intros p Hp; [done|].
  simpl. apply IH. by apply Hf.
Qed.

Lemma building_add_depend F p var dep :
  building T F p -> building T F (snd (pkg_solve_add_depend_rule p var dep)).
Proof.
  intros (Ht & Hi & Hc & HF).
  split; [by rewrite table_add_depend|].
  split; [eapply index_valid_table; [apply table_add_depend|done]|].
  split; [by apply counted_add_depend|by apply unary_is_add_depend].
Qed.

Lemma building_add_conflict F p pk var conflict :
  building T F p -> building T F (snd (pkg_solve_add_conflict_rule p pk var conflict)).
Proof.
  intros (Ht & Hi & Hc & HF).
  split; [by rewrite table_add_conflict|].
  split; [eapply index_valid_table; [apply table_add_conflict|done]|].
  by apply unary_is_add_conflict.
Qed.

Lemma building_add_require F p var shlib :
  building T F p -> building T F (pkg_solve_add_require_rule p var shlib).
Proof.
  intros (Ht & Hi & Hc & HF).
  split; [by rewrite table_add_require|].
  split; [eapply index_valid_table; [apply table_add_require|done]|].
  split; [by apply counted_add_require|by apply unary_is_add_require].
Qed.

Lemma building_add_chain F p var :
  building T F p -> building T F (pkg_solve_add_chain_rule p var).
Proof.
  intros (Ht & Hi & Hc & HF).
  split; [by rewrite table_add_chain|].
  split; [eapply index_valid_table; [apply table_add_chain|done]|].
  by apply unary_is_add_chain.
Qed.

Lemma building_add_unary F p var inverse :
  building T F p ->
  building T (fun i u => if Nat.eqb i var then Some inverse else F i u)
           (pkg_solve_add_unary_rule p var inverse).
Proof.
  intros (Ht & Hi & Hc & HF).
  split; [by rewrite table_add_unary|].
  split; [eapply index_valid_table; [apply table_add_unary|done]|].
  split; [by apply counted_add_unary|by apply unary_is_add_unary].
Qed.

Lemma building_ext F G p :
  (forall i v, variables p !! i = Some v -> F i (var_unit v) = G i (var_unit v)) ->
  building T F p -> building T G p.
Proof.
  intros Heq (Ht & Hi & Hc & HF). repeat split; try done. by eapply unary_is_ext.
Qed.

Lemma building_process_cur_var seen s cur_var :
  building T (fun i u => unary_known seen i u (snd T)) (fst s) ->
  building T (fun i u => unary_known (cur_var :: seen) i u (snd T))
           (fst (process_cur_var s cur_var)).
Proof.
  destruct s as [p added]. cbn [fst]. intros Hp.
  unfold process_cur_var.
  destruct (variables p !! cur_var) as [v|] eqn:Ev.
  2: { cbn [fst]. eapply building_ext; [|exact Hp]. intros i x Hx.
       unfold unary_known. cbn [existsb].
       destruct (Nat.eqb_spec i cur_var) as [->|]; [congruence|done]. }
  set (F := fun i u => unary_known seen i u (snd T)) in *.
  set (p1 := fold_left _ (pkg_deps _) p).
  assert (H1 : building T F p1).
  { apply building_fold; [|done]. intros q x Hq. by apply building_add_depend. }
  clearbody p1.
  set (p2 := fold_left _ (pkg_conflicts _) p1).
  assert (H2 : building T F p2).
  { apply building_fold; [|done]. intros q x Hq. by apply building_add_conflict. }
  clearbody p2.
  set (p3 := if pkg_t_eqb _ _ then p2 else _).
  assert (H3 : building T F p3).
  { subst p3. destruct (pkg_t_eqb _ _); [done|].
    apply building_fold; [|done]. intros q x Hq. by apply building_add_require. }
  clearbody p3.
  assert (Hj3 : j p3 = snd T) by (destruct H3 as [<- _]; done).
  set (p4 := if hash_find_ptr (request_add _) _ then _ else p3).
  set (F4 := fun i u => if hash_find_ptr (request_add (snd T)) (var_unit v)
                               && Nat.eqb i cur_var
                        then Some false else F i u).
  assert (H4 : building T F4 p4).
  { subst p4 F4. rewrite Hj3. destruct (hash_find_ptr _ _); [|done].
    by apply building_add_unary. }
  clearbody p4.
  assert (Hj4 : j p4 = snd T) by (destruct H4 as [<- _]; done).
  set (p5 := if hash_find_ptr (request_delete _) _ then _ else p4).
  set (F5 := fun i u => if hash_find_ptr (request_delete (snd T)) (var_unit v)
                               && Nat.eqb i cur_var
                        then Some true else F4 i u).
  assert (H5 : building T F5 p5).
  { subst p5 F5. rewrite Hj4. destruct (hash_find_ptr (request_delete _) _); [|done].
    by apply building_add_unary. }
  clearbody p5.
  assert (Hfin : forall q, building T F5 q ->
            building T (fun i u => unary_known (cur_var :: seen) i u (snd T)) q).
  { intros q Hq. eapply building_ext; [|exact Hq]. intros i x Hx.
    subst F5 F4 F. unfold unary_known. cbn [existsb].
    destruct (Nat.eqb_spec i cur_var) as [->|Hne].
    - assert (Hu : var_unit x = var_unit v).
      { destruct Hq as (Htq & _). destruct Hp as (Htp & _).
        apply (table_unit q p cur_var x v); [congruence|done|done]. }
      rewrite Hu, !andb_true_r. cbn [orb]. unfold requested.
      destruct (hash_find_ptr (request_delete (snd T)) (var_unit v)); [done|].
      destruct (hash_find_ptr (request_add (snd T)) (var_unit v)); [done|].
      by destruct (existsb _ seen).
    - by rewrite !andb_false_r. }
  destruct (_ && _); cbn [fst]; apply Hfin; [|done].
  by apply building_add_chain.
Qed.

Lemma building_process_universe_variable seen p var :
  building T (fun i u => unary_known seen i u (snd T)) p ->
  building T (fun i u => unary_known (rev (chain_from p (Some var)) ++ seen) i u (snd T))
           (pkg_solve_process_universe_variable p var).
Proof.
  unfold pkg_solve_process_universe_variable.
  generalize (chain_from p (Some var)). intros chain.
  assert (H : forall s, building T (fun i u => unary_known seen i u (snd T)) (fst s) ->
            building T (fun i u => unary_known (rev chain ++ seen) i u (snd T))
                     (fst (fold_left process_cur_var chain s))).
  { revert seen. induction chain as [|x chain IH]; intros seen s Hs; [done|].
    simpl. rewrite <- app_assoc. apply IH. by apply building_process_cur_var. }
  intros Hp. by apply (H (p, false)).
Qed.
End Building.

Lemma hash_find_str_nodup {A} (h : list (string * A)) uid x :
  NoDup (map fst h) -> In (uid, x) h -> hash_find_str h uid = Some x.
Proof.
  induction h as [|[k v] h IH]; [done|]. simpl. intros Hnd Hin.
  apply NoDup_cons in Hnd as [Hk Hnd].
  destruct (String.eqb_spec k uid) as [->|Hne].
  - destruct Hin as [[= ->]|Hin]; [done|].
    exfalso. apply Hk. apply list_elem_of_In, in_map_iff. by exists (uid, x).
  - destruct Hin as [[= ? ?]|Hin]; [done|]. by apply IH.
Qed.

Lemma index_keys l : forall base,
  map fst (concat (map index_entry (universe_chains base l)))
  = map (fun c => pkg_uniqueid (fst c)) l.
Proof.
  induction l as [|c l IH]; intros base; [done|].
  cbn [universe_chains map concat]. rewrite map_app, IH.
  destruct (chain_of_head base c) as (u & rest & -> & _ & Hu). simpl. by rewrite Hu.
Qed.

Lemma slots_covered l : forall base i,
  (base <= i < base + length (concat (universe_chains base l)))%nat ->
  exists un rest,
    In (un :: rest) (universe_chains base l)
    /\ In i (seq (un_addr un) (S (length rest))).
Proof.
  induction l as [|c l IH]; intros base i Hi; [simpl in Hi; lia|].
  cbn [universe_chains concat] in *. rewrite length_app, chain_of_length in Hi.
  destruct (chain_of_head base c) as (u & rest & E & Ha & _).
  assert (Hlen : length rest = length (snd c)).
  { apply (f_equal length) in E. rewrite chain_of_length in E. simpl in E. lia. }
  destruct (decide (i < base + S (length (snd c)))%nat) as [Hlt|Hge].
  - exists u, rest. split; [left; done|]. apply in_seq. lia.
  - destruct (IH (base + S (length (snd c)))%nat i) as (un & r & Hin & Hs); [lia|].
    exists un, r. split; [by right|done].
Qed.

Section Walk.
Variable jb : pkg_jobs.
Hypothesis Hnodup : NoDup (map (fun c => pkg_uniqueid (fst c)) (items (universe jb))).

Lemma building_add_universe_rules uni : forall p p' seen,
  (forall un rest, In (un :: rest) uni ->
                   In (un :: rest) (universe_chains 0 (items (universe jb)))) ->
  building (map var_of_unit (concat (universe_chains 0 (items (universe jb)))),
            concat (map index_entry (universe_chains 0 (items (universe jb)))), jb)
           (fun i u => unary_known seen i u jb) p ->
  add_universe_rules p uni = Some p' ->
  exists seen',
    building (map var_of_unit (concat (universe_chains 0 (items (universe jb)))),
              concat (map index_entry (universe_chains 0 (items (universe jb)))), jb)
             (fun i u => unary_known seen' i u jb) p'
    /\ (forall i, In i seen -> In i seen')
    /\ (forall un rest i, In (un :: rest) uni ->
          In i (seq (un_addr un) (S (length rest))) -> In i seen').
Proof.
  induction uni as [|[|un c] uni IH]; intros p p' seen Hsub Hp Hr; simpl in Hr.
  - injection Hr as <-. exists seen. split; [done|]. split; [done|]. by intros ? ? ? [].
  - destruct (IH p p' seen) as (seen' & Hb & Hs & Hc); try done.
    { intros un rest Hin. apply Hsub. by right. }
    exists seen'. split; [done|]. split; [done|].
    intros un rest i [?|Hin]; [done|]. by apply Hc.
  - pose proof Hp as (Ht & _).
    assert (Hidx : variables_by_uid p
                   = concat (map index_entry (universe_chains 0 (items (universe jb)))))
      by by injection Ht.
    assert (Hfind : hash_find_str (variables_by_uid p) (pkg_uniqueid (un_pkg un))
                    = Some (un_addr un)).
    { rewrite Hidx. apply hash_find_str_nodup.
      - by rewrite index_keys.
      - apply index_entry_In with (c := c). apply Hsub. by left. }
    rewrite Hfind in Hr.
    pose proof (building_process_universe_variable _ seen p (un_addr un) Hp) as Hp1.
    cbn [snd] in Hp1.
    destruct (chain_from_slots jb p un c Ht) as [Hch _]; [apply Hsub; by left|].
    rewrite Hch in Hp1.
    destruct (IH _ p' _ ltac:(intros u r Hin; apply Hsub; by right) Hp1 Hr)
      as (seen' & Hb & Hs & Hc).
    exists seen'. split; [done|]. split.
    + intros i Hi. apply Hs. apply in_or_app. by right.
    + intros u r i [[= -> ->]|Hin] Hi; [|by eapply Hc].
      apply Hs. apply in_or_app. left. by apply in_rev in Hi.
Qed.

Lemma unary_of_jobs_to_sat p i v :
  pkg_solve_jobs_to_sat jb = Some p -> variables p !! i = Some v ->
  unary_of (rules p) v = requested jb (var_unit v).
Proof.
  intros Hb Hv. unfold pkg_solve_jobs_to_sat in Hb.
  destruct (building_add_universe_rules _ (add_universe_variables jb) p [] (fun _ _ H => H))
    as (seen & (Ht & _ & _ & HF) & _ & Hcov); [|done|].
  { rewrite add_universe_variables_table. split; [apply table_of_units|].
    split; [|split].
    - unfold index_valid, nvars. cbn [variables variables_by_uid].
      rewrite length_map. apply Forall_forall. intros [k a] Hin.
      pose proof (index_slots_valid (items (universe jb)) 0) as Hval.
      rewrite Forall_forall in Hval. simpl.
      apply (Hval a). apply list_elem_of_In, in_map_iff. exists (k, a).
      split; [done|]. by apply list_elem_of_In.
    - unfold counted. cbn [variables rules]. apply Forall_forall.
      intros x Hx. apply list_elem_of_In, in_map_iff in Hx as (u & <- & _).
      split; [done|]. constructor.
    - intros k x Hx. cbn [variables] in Hx. rewrite list_lookup_fmap in Hx.
      destruct (_ !! k); [|done]. by injection Hx as <-. }
  rewrite (HF i v Hv). unfold unary_known.
  assert (Hi : (i < length (concat (universe_chains 0 (items (universe jb)))))%nat).
  { apply lookup_lt_Some in Hv. injection Ht as Hvs _ _.
    apply (f_equal length) in Hvs. rewrite !length_map in Hvs. lia. }
  destruct (slots_covered (items (universe jb)) 0 i) as (un & rest & Hin & Hs); [lia|].
  assert (He : existsb (Nat.eqb i) seen = true).
  { apply existsb_exists. exists i. split; [by eapply Hcov|apply Nat.eqb_refl]. }
  by rewrite He.
Qed.
End Walk.

(** X18: in a problem built from jobs whose chains have distinct unique
    ids, the clauses of one literal are exactly the requests: the first one
    in the rule list of a variable is that of the deletion of its unit if
    the deletion is requested, else that of its addition if the addition is
    requested, and a variable whose unit is in neither request has none. *)
Theorem pkg_solve_jobs_to_sat_requests (jb : pkg_jobs) (p : pkg_solve_problem)
    (i : nat) (v : pkg_solve_variable) :
  NoDup (map (fun c => pkg_uniqueid (fst c)) (items (universe jb))) ->
  pkg_solve_jobs_to_sat jb = Some p ->
  variables p !! i = Some v ->
  unary_of (rules p) v = requested jb (var_unit v).
Proof. intros Hnd. by apply unary_of_jobs_to_sat. Qed.

Lemma pkg_solve_jobs_to_sat_requests_witness :
  exists v,
    variables (Scenario.build Requested.both) !! 0%nat = Some v
    /\ unary_of (rules (Scenario.build Requested.both)) v = Some true
    /\ length (var_rules v) = 2%nat.
Proof.
  assert (Hb : pkg_solve_jobs_to_sat Requested.both
               = Some (Scenario.build Requested.both))
    by (vm_compute; reflexivity).
  assert (Hnd : NoDup (map (fun c => pkg_uniqueid (fst c))
                           (items (universe Requested.both))))
    by (simpl; apply NoDup_singleton).
  eexists. split; [vm_compute; reflexivity|]. split; [|vm_compute; reflexivity].
  rewrite (pkg_solve_jobs_to_sat_requests _ _ 0%nat _ Hnd Hb); [reflexivity|].
  vm_compute. reflexivity.
Defined.

(** X19: on such a problem the propagation of pure clauses resolves the
    unit of a deletion request not to install (even when its addition is
    requested too), the unit of an addition request to install, a variable
    without rules to its installed state, and leaves every other variable
    as it was. *)
Theorem pkg_solve_propagate_pure_requests (jb : pkg_jobs) (p : pkg_solve_problem) :
  NoDup (map (fun c => pkg_uniqueid (fst c)) (items (universe jb))) ->
  pkg_solve_jobs_to_sat jb = Some p ->
  exists p',
    pkg_solve_propagate_pure p = Ret p'
    /\ forall i v,
         variables p !! i = Some v ->
         variables p' !! i
         = Some (match requested jb (var_unit v) with
                 | Some inverse => assign (negb inverse) v
                 | None => if var_nrules v =? 0 then assign (is_installed v) v else v
                 end).
Proof.
  intros Hnd Hb.
  pose proof (clauses_built_jobs_to_sat jb p Hb) as Hcb.
  pose proof (counted_jobs_to_sat jb p Hb) as Hc.
  destruct (pure_before_loop p Hcb Hc (nvars p) 0 p) as (p' & Hr & _ & _ & Hlt & _);
    [done|by apply pure_before_start|].
  exists p'. split; [done|]. intros i v Hv.
  rewrite Hlt by by eapply lookup_lt_Some. rewrite Hv. simpl. f_equal.
  unfold pure_seed. rewrite (unary_of_jobs_to_sat jb Hnd p i v Hb Hv).
  destruct (requested jb (var_unit v)) as [inverse|] eqn:Ereq; [|done].
  destruct (Z.eqb_spec (var_nrules v) 0) as [H0|]; [|done].
  apply (nrules_zero p i v Hc Hcb Hv) in H0.
  pose proof (unary_of_jobs_to_sat jb Hnd p i v Hb Hv) as Hu.
  unfold unary_of in Hu. rewrite H0, Ereq in Hu. done.
Qed.

Lemma pkg_solve_propagate_pure_requests_witness :
  exists p',
    pkg_solve_propagate_pure (Scenario.build Requested.both) = Ret p'
    /\ map (fun v => (var_resolved v, var_to_install v)) (variables p') = [(true, false)].
Proof.
  assert (Hb : pkg_solve_jobs_to_sat Requested.both
               = Some (Scenario.build Requested.both))
    by (vm_compute; reflexivity).
  assert (Hnd : NoDup (map (fun c => pkg_uniqueid (fst c))
                           (items (universe Requested.both))))
    by (simpl; apply NoDup_singleton).
  destruct (pkg_solve_propagate_pure_requests _ _ Hnd Hb) as (p' & Hr & Hv).
  exists p'. split; [exact Hr|].
  assert (Hl : length (variables p') = 1%nat).
  { eapply (kept_pure_loop (fun q => length (variables q) = 1%nat)); [| |exact Hr|done].
    - intros q i b Hq. unfold assign_var. cbn [variables with_variables].
      by rewrite length_alter.
    - intros q i Hq. by rewrite variables_update_var_resolved. }
  specialize (Hv 0%nat _ eq_refl).
  destruct (variables p') as [|x [|y l]]; try done.
  injection Hv as ->. reflexivity.
Defined.

(** ** Propagating twice *)

(** X21: a propagation of units that succeeds leaves nothing to propagate:
    called again on its result, with or without a counter and a graph, the
    propagation succeeds at once, assigns nothing and counts nothing. *)
Theorem pkg_solve_propagate_units_fixpoint (p : pkg_solve_problem)
    (propagated propagated' : option Z) (graph graph' : option (list nat))
    (top_level top_level' : bool) (s' : propagation) :
  pkg_solve_propagate_units p propagated graph top_level = Ret (true, s') ->
  pkg_solve_propagate_units (pr_problem s') propagated' graph' top_level'
  = Ret (true, mk_propagation (pr_problem s') propagated' graph' 0).
Proof.
  intros Hr. apply propagate_units_quiet.
  by eapply propagate_units_leaves_quiet.
Qed.

Lemma pkg_solve_propagate_units_fixpoint_witness :
  pkg_solve_propagate_units (pr_problem (Requested.propagated Requested.depends))
    None (Some [1%nat]) false
  = Ret (true, mk_propagation (pr_problem (Requested.propagated Requested.depends))
                 None (Some [1%nat]) 0).
Proof.
  assert (Hr : pkg_solve_propagate_units (Requested.seeded Requested.depends)
                 (Some 0) None true
               = Ret (true, Requested.propagated Requested.depends))
    by (vm_compute; reflexivity).
  exact (pkg_solve_propagate_units_fixpoint _ _ _ _ _ _ _ _ Hr).
Defined.

(** ** The clauses of a chain *)

Lemma chain_fold var chain : forall q,
  table (fold_left (fun q curvar => add_binary_conflict q var curvar) chain q) = table q
  /\ map literals
         (rules (fold_left (fun q curvar => add_binary_conflict q var curvar) chain q))
     = map literals (rules q) ++ map (fun cur => [(cur, true); (var, true)]) chain
  /\ rules_count (fold_left (fun q curvar => add_binary_conflict q var curvar) chain q)
     = rules_count q + Z.of_nat (length chain).
Proof.
  induction chain as [|cur chain IH]; intros q.
  - simpl. rewrite app_nil_r. split; [done|]. split; [done|]. lia.
  - cbn [fold_left]. destruct (IH (add_binary_conflict q var cur)) as (Ht & Hr & Hc).
    rewrite Ht, Hr, Hc. split; [apply table_add_binary_conflict|]. split.
    + unfold add_binary_conflict, problem_add_rule, pkg_solve_add_var_rules.
      cbn [rules with_variables]. rewrite map_app, <- app_assoc. done.
    + unfold add_binary_conflict, problem_add_rule, pkg_solve_add_var_rules.
      cbn [rules_count with_variables length]. lia.
Qed.

(** X22: the chain rule of a variable adds, for every member that follows
    it in its chain and in the order of the chain, one clause of the two
    negated variables; a variable that is the last of its chain gets none.
    Nothing but clauses and rule references is written. *)
Theorem pkg_solve_add_chain_rule_clauses (p : pkg_solve_problem) (var : nat)
    (v : pkg_solve_variable) :
  variables p !! var = Some v ->
  map literals (rules (pkg_solve_add_chain_rule p var))
  = map literals (rules p)
    ++ map (fun cur => [(cur, true); (var, true)]) (chain_from p (var_next v))
  /\ rules_count (pkg_solve_add_chain_rule p var)
     = rules_count p + Z.of_nat (length (chain_from p (var_next v)))
  /\ table (pkg_solve_add_chain_rule p var) = table p
  /\ (var_next v = None -> pkg_solve_add_chain_rule p var = p).
Proof.
  intros Hv. unfold pkg_solve_add_chain_rule. rewrite Hv.
  destruct (chain_fold var (chain_from p (var_next v)) p) as (Ht & Hr & Hc).
  split; [done|]. split; [done|]. split; [done|].
  intros ->. unfold chain_from. by destruct (nvars p).
Qed.

Lemma pkg_solve_add_chain_rule_clauses_witness :
  map literals (rules (pkg_solve_add_chain_rule
                         (add_universe_variables Scenario.upgrade_two) 0))
  = [[(1, true); (0, true)]; [(2, true); (0, true)]]%nat
  /\ pkg_solve_add_chain_rule (add_universe_variables Scenario.upgrade_two) 2
     = add_universe_variables Scenario.upgrade_two.
Proof.
  split.
  - destruct (pkg_solve_add_chain_rule_clauses
                (add_universe_variables Scenario.upgrade_two) 0%nat _ eq_refl)
      as (Hr & _). rewrite Hr. reflexivity.
  - destruct (pkg_solve_add_chain_rule_clauses
                (add_universe_variables Scenario.upgrade_two) 2%nat _ eq_refl)
      as (_ & _ & _ & Hn). apply Hn. reflexivity.
Defined.

(** ** The counters of resolved literals *)

(** X24: [pkg_solve_update_var_resolved] adds to [nresolved] of every
    clause the number of times that the rule list of the variable
    references it; the clauses that the variable does not reference, the
    arities, the literals and the variables are left as they were. *)
Theorem pkg_solve_update_var_resolved_counts (p : pkg_solve_problem) (var : nat)
    (v : pkg_solve_variable) (r : nat) :
  variables p !! var = Some v ->
  variables (pkg_solve_update_var_resolved p var) = variables p
  /\ frame (pkg_solve_update_var_resolved p var) = frame p
  /\ rule_nitems (rule_at (pkg_solve_update_var_resolved p var) r)
     = rule_nitems (rule_at p r)
  /\ (rule_at p r <> [] ->
      rule_nresolved (rule_at (pkg_solve_update_var_resolved p var) r)
      = rule_nresolved (rule_at p r)
        + Z.of_nat (count_occ Nat.eq_dec (var_rules v) r))
  /\ (~ In r (var_rules v) ->
      rule_at (pkg_solve_update_var_resolved p var) r = rule_at p r).
Proof.
  intros Hv. split; [apply variables_update_var_resolved|].
  split; [apply frame_update_var_resolved|].
  assert (Hat : rule_at (pkg_solve_update_var_resolved p var) r
                = match rule_at p r with
                  | [] => []
                  | it :: c =>
                      mk_item (it_nitems it)
                        (it_nresolved it + Z.of_nat (count_occ Nat.eq_dec (var_rules v) r))
                        (it_var it) (it_inverse it) :: c
                  end).
  { unfold rule_at, pkg_solve_update_var_resolved. rewrite Hv.
    cbn [rules with_rules]. apply incr_fold_head. }
  rewrite Hat. split; [by destruct (rule_at p r)|]. split.
  - by destruct (rule_at p r).
  - intros Hnin. rewrite (proj1 (count_occ_not_In Nat.eq_dec _ _) Hnin).
    destruct (rule_at p r) as [|[] c]; [done|]. simpl. by rewrite Z.add_0_r.
Qed.

Lemma pkg_solve_update_var_resolved_counts_witness :
  rule_nresolved
    (rule_at (pkg_solve_update_var_resolved (Scenario.build Requested.depends) 0) 0) = 1
  /\ rule_nresolved
       (rule_at (pkg_solve_update_var_resolved (Scenario.build Requested.depends) 0) 1) = 1.
Proof.
  assert (Hv : exists v, variables (Scenario.build Requested.depends) !! 0%nat = Some v
                         /\ var_rules v = [1; 0]%nat).
  { eexists. split; reflexivity. }
  destruct Hv as (v & Hv & Hr).
  pose proof (pkg_solve_update_var_resolved_counts _ 0%nat v 0%nat Hv) as (_ & _ & _ & H0 & _).
  pose proof (pkg_solve_update_var_resolved_counts _ 0%nat v 1%nat Hv) as (_ & _ & _ & H1 & _).
  rewrite Hr in H0, H1.
  split.
  - rewrite H0 by (vm_compute; discriminate). reflexivity.
  - rewrite H1 by (vm_compute; discriminate). reflexivity.
Defined.

(** ** The counters of resolved literals under the first propagation *)

Lemma lit_count_frame (c c' : list pkg_solve_item) i :
  map item_frame c = map item_frame c' -> lit_count c i = lit_count c' i.
Proof.
  revert c'. induction c as [|it c IH]; intros [|it' c'] Heq; try done.
  injection Heq as _ Hv _ Hr. unfold lit_count in *. simpl. rewrite Hv.
  destruct (Nat.eqb (it_var it') i); simpl; by rewrite (IH c').
Qed.

Lemma count_resolved_frame q (c c' : list pkg_solve_item) :
  map item_frame c = map item_frame c' -> count_resolved q c = count_resolved q c'.
Proof.
  revert c'. induction c as [|it c IH]; intros [|it' c'] Heq; try done.
  injection Heq as _ Hv _ Hr. specialize (IH c' Hr).
  unfold count_resolved, item_resolved in *. simpl. rewrite Hv.
  destruct (variables q !! it_var it') as [w|]; [|done].
  destruct (var_resolved w); simpl; [|done]. lia.
Qed.

Lemma forallb_pointwise {A} (f g : A -> bool) l :
  (forall x, f x = g x) -> forallb f l = forallb g l.
Proof. intros H. induction l as [|x l IH]; [done|]. simpl. by rewrite H, IH. Qed.

Lemma rule_complete_frame p q r :
  frame p = frame q -> rule_complete p r = rule_complete q r.
Proof.
  intros Hf. unfold rule_complete. rewrite (frame_nvars p q Hf).
  apply forallb_pointwise. intros i.
  rewrite (lit_count_frame _ _ i (frame_rule_at p q r Hf)).
  destruct (variables p !! i) as [v|] eqn:Ep.
  - destruct (frame_var p q i v Hf Ep) as (v' & -> & Hv').
    assert (Hr : var_rules v' = var_rules v).
    { apply (f_equal var_rules) in Hv'. exact Hv'. }
    by rewrite Hr.
  - destruct (variables q !! i) as [v'|] eqn:Eq; [|done].
    destruct (frame_var q p i v' (eq_sym Hf) Eq) as (v & Hv & _). congruence.
Qed.

Lemma rule_complete_at p r i v :
  rule_complete p r = true -> variables p !! i = Some v ->
  count_occ Nat.eq_dec (var_rules v) r = lit_count (rule_at p r) i.
Proof.
  unfold rule_complete. rewrite forallb_forall. intros H Hv.
  specialize (H i). rewrite Hv in H. apply Nat.eqb_eq, H, in_seq.
  apply lookup_lt_Some in Hv. unfold nvars. lia.
Qed.

Lemma item_resolved_assign p i v b it :
  variables p !! i = Some v ->
  item_resolved (assign_var p i b) it = Nat.eqb (it_var it) i || item_resolved p it.
Proof.
  intros Hv. unfold item_resolved, assign_var. cbn [variables with_variables].
  destruct (Nat.eqb_spec (it_var it) i) as [->|Hne].
  - by rewrite list_lookup_alter_eq, Hv.
  - by rewrite list_lookup_alter_ne.
Qed.

Lemma item_resolved_assign_ne p i b it :
  it_var it <> i -> item_resolved (assign_var p i b) it = item_resolved p it.
Proof.
  intros Hne. unfold item_resolved, assign_var. cbn [variables with_variables].
  by rewrite list_lookup_alter_ne.
Qed.

Lemma count_resolved_assign p i v b c :
  variables p !! i = Some v -> var_resolved v = false ->
  count_resolved (assign_var p i b) c = count_resolved p c + Z.of_nat (lit_count c i).
Proof.
  intros Hv Hu. unfold count_resolved, lit_count.
  induction c as [|it c IH]; [done|].
  cbn [List.filter]. rewrite (item_resolved_assign p i v b it Hv).
  destruct (Nat.eqb_spec (it_var it) i) as [Heq|Hne].
  - assert (Hi : item_resolved p it = false).
    { unfold item_resolved. by rewrite Heq, Hv. }
    rewrite Hi. cbn [orb length]. lia.
  - cbn [orb]. destruct (item_resolved p it); cbn [length]; lia.
Qed.

Lemma count_resolved_absent p i b c :
  lit_count c i = 0%nat -> count_resolved (assign_var p i b) c = count_resolved p c.
Proof.
  unfold count_resolved, lit_count. induction c as [|it c IH]; [done|].
  cbn [List.filter]. destruct (Nat.eqb_spec (it_var it) i) as [Heq|Hne]; [done|].
  intros H0. specialize (IH H0).
  rewrite (item_resolved_assign_ne p i b it Hne).
  destruct (item_resolved p it); cbn [length]; lia.
Qed.

Lemma rule_at_update p i v r :
  variables p !! i = Some v ->
  rule_at (pkg_solve_update_var_resolved p i) r
  = match rule_at p r with
    | [] => []
    | it :: c =>
        mk_item (it_nitems it)
          (it_nresolved it + Z.of_nat (count_occ Nat.eq_dec (var_rules v) r))
          (it_var it) (it_inverse it) :: c
    end.
Proof.
  intros Hv. unfold rule_at, pkg_solve_update_var_resolved. rewrite Hv.
  cbn [rules with_rules]. apply incr_fold_head.
Qed.

(** The assignment of a variable that was not resolved, followed by the
    update of its clauses. *)
Lemma nresolved_exact_step p i v b :
  variables p !! i = Some v -> var_resolved v = false ->
  nresolved_exact p ->
  nresolved_exact (pkg_solve_update_var_resolved (assign_var p i b) i).
Proof.
  intros Hv Hu He r Hc.
  assert (Hf : frame (pkg_solve_update_var_resolved (assign_var p i b) i) = frame p).
  { by rewrite frame_update_var_resolved, frame_assign_var. }
  rewrite (rule_complete_frame _ _ r Hf) in Hc.
  assert (Hv' : variables (assign_var p i b) !! i = Some (assign b v)).
  { unfold assign_var. cbn [variables with_variables].
    by rewrite list_lookup_alter_eq, Hv. }
  rewrite (rule_at_update _ i _ r Hv').
  change (rule_at (assign_var p i b) r) with (rule_at p r).
  cbn [assign set_resolved set_to_install var_rules].
  pose proof (He r Hc) as Her. pose proof (rule_complete_at p r i v Hc Hv) as Hocc.
  destruct (rule_at p r) as [|it c] eqn:Er; [done|].
  cbn [rule_nresolved it_nresolved].
  assert (Hcr : count_resolved (pkg_solve_update_var_resolved (assign_var p i b) i)
                  (mk_item (it_nitems it)
                     (it_nresolved it + Z.of_nat (count_occ Nat.eq_dec (var_rules v) r))
                     (it_var it) (it_inverse it) :: c)
                = count_resolved (assign_var p i b) (it :: c)).
  { rewrite (count_resolved_frame _ _ (it :: c)) by reflexivity.
    unfold count_resolved, item_resolved.
    by rewrite variables_update_var_resolved. }
  rewrite Hcr, (count_resolved_assign p i v b _ Hv Hu), <- Her, Hocc. done.
Qed.

(** The assignment of a variable that has no rule. *)
Lemma nresolved_exact_independent p i v b :
  variables p !! i = Some v -> var_rules v = [] ->
  nresolved_exact p -> nresolved_exact (assign_var p i b).
Proof.
  intros Hv Hr He r Hc.
  rewrite (rule_complete_frame _ _ r (frame_assign_var p i b)) in Hc.
  change (rule_at (assign_var p i b) r) with (rule_at p r).
  rewrite count_resolved_absent; [by apply He|].
  rewrite <- (rule_complete_at p r i v Hc Hv), Hr. done.
Qed.

(** A property that the assignment of an unresolved variable with the
    update of its clauses keeps is kept by the propagation of units. *)
Section Steps.
Variable I : pkg_solve_problem -> Prop.
Hypothesis I_step : forall p i v b,
  variables p !! i = Some v -> var_resolved v = false ->
  I p -> I (pkg_solve_update_var_resolved (assign_var p i b) i).

Lemma step_check_again fuel : forall s var b s',
  pkg_solve_check_again fuel s var = Ret (b, s') ->
  I (pr_problem s) -> I (pr_problem s').
Proof.
  induction fuel as [|fuel IH]; intros s var b s' Hr Hp; [done|].
  simpl in Hr.
  destruct (variables (pr_problem s) !! var) as [v|]; [|done].
  destruct (var_has_conflict _ _); [by injection Hr as <- <-|].
  destruct (var_find_unit _ _) as [c|]; [|by injection Hr as <- <-].
  destruct (List.find _ c) as [it|] eqn:Ef; [|done].
  destruct (pr_propagated s) as [n|]; [|done].
  apply IH in Hr; [done|]. cbn [pr_problem].
  apply find_some in Ef as [_ Hu]. apply negb_true_iff in Hu.
  unfold item_resolved in Hu.
  destruct (variables (pr_problem s) !! it_var it) as [w|] eqn:Ew.
  - by apply (I_step _ _ w).
  - assert (Hsame : pkg_solve_update_var_resolved
                      (assign_var (pr_problem s) (it_var it) (negb (it_inverse it)))
                      (it_var it) = pr_problem s).
    { unfold pkg_solve_update_var_resolved, assign_var. cbn [variables with_variables].
      rewrite list_lookup_alter_eq, Ew. cbn [fmap option_fmap option_map].
      assert (Hl : alter (assign (negb (it_inverse it))) (it_var it)
                         (variables (pr_problem s)) = variables (pr_problem s)).
      { apply list_eq. intros k. rewrite list_lookup_alter.
        case_decide; [subst; by rewrite Ew|done]. }
      rewrite Hl. by destruct (pr_problem s). }
    by rewrite Hsame.
Qed.

Lemma step_propagate_pass fuel slots : forall s b s',
  pkg_solve_propagate_pass fuel s slots = Ret (b, s') ->
  I (pr_problem s) -> I (pr_problem s').
Proof.
  induction slots as [|i slots IH]; intros s b s' Hr Hp.
  - by injection Hr as <- <-.
  - simpl in Hr.
    destruct (pkg_solve_check_again fuel s i) as [[[] s1]| |] eqn:E; try done;
      simpl in Hr; apply step_check_again in E; try done.
    + by eapply IH.
    + by injection Hr as <- <-.
Qed.

Lemma step_propagate_loop fuel : forall s b s',
  pkg_solve_propagate_loop fuel s = Ret (b, s') ->
  I (pr_problem s) -> I (pr_problem s').
Proof.
  induction fuel as [|fuel IH]; intros s b s' Hr Hp; [done|].
  simpl in Hr.
  destruct (pkg_solve_propagate_pass _ _ _) as [[[] s1]| |] eqn:E; try done;
    simpl in Hr; apply step_propagate_pass in E; try done.
  - destruct (0 <? pr_solved_vars s1).
    + by eapply IH.
    + by injection Hr as <- <-.
  - by injection Hr as <- <-.
Qed.
End Steps.

Lemma built_unresolved jb p i v :
  pkg_solve_jobs_to_sat jb = Some p -> variables p !! i = Some v ->
  var_resolved v = false.
Proof.
  intros Hb Hv. pose proof (table_jobs_to_sat jb p Hb) as Ht.
  injection Ht as Hvs _ _.
  assert (H : set_rules [] 0 <$> variables p !! i
              = var_of_unit <$> concat (universe_chains 0 (items (universe jb))) !! i).
  { rewrite <- !list_lookup_fmap.
    change (map (set_rules [] 0) (variables p) !! i
            = map var_of_unit (concat (universe_chains 0 (items (universe jb)))) !! i).
    by rewrite Hvs. }
  rewrite Hv in H. destruct (concat _ !! i) as [u|]; [|done].
  simpl in H. injection H as _ _ _ _ _ Hr _ _. exact Hr.
Qed.

Lemma count_resolved_none p c :
  (forall i v, variables p !! i = Some v -> var_resolved v = false) ->
  count_resolved p c = 0.
Proof.
  intros Hun. unfold count_resolved.
  replace (List.filter (item_resolved p) c) with (@nil pkg_solve_item); [done|].
  symmetry. induction c as [|it c IH]; [done|]. simpl.
  unfold item_resolved at 1.
  destruct (variables p !! it_var it) as [w|] eqn:Ew; [|exact IH].
  by rewrite (Hun _ w Ew).
Qed.

Lemma pure_exact_loop p0 m :
  clauses_built p0 -> counted p0 ->
  (forall i v, variables p0 !! i = Some v -> var_resolved v = false) ->
  forall k q,
    (k + m = nvars p0)%nat -> pure_before p0 k q -> nresolved_exact q ->
    exists q', pkg_solve_pure_loop q (seq k m) = Ret q'
               /\ pure_before p0 (nvars p0) q' /\ nresolved_exact q'.
Proof.
  intros Hcb Hc Hun. induction m as [|m IH]; intros k q Hk Hq He.
  - exists q. split; [done|]. split; [|done]. by replace (nvars p0) with k by lia.
  - destruct (pure_before_step p0 Hcb Hc k q) as (q1 & E1 & H1); [lia|done|].
    assert (He1 : nresolved_exact q1).
    { destruct Hq as (Hf & Hge & _ & Hd).
      destruct (lookup_lt_is_Some_2 (variables p0) k ltac:(unfold nvars in Hk; lia))
        as [v Hv0].
      assert (Hv : variables q !! k = Some v) by by rewrite Hge.
      unfold pkg_solve_pure_var in E1. rewrite Hv in E1.
      destruct (var_nrules v =? 0) eqn:En.
      - apply Z.eqb_eq in En.
        pose proof (proj1 (nrules_zero p0 k v Hc Hcb Hv0) En) as Hnil.
        rewrite Hnil in E1. injection E1 as <-.
        by apply (nresolved_exact_independent q k v).
      - injection E1 as <-.
        rewrite (pure_rules_fold p0 Hcb q k v (var_rules v)); try done.
        destruct (List.find _ _) as [[|it c]|]; try done.
        apply (nresolved_exact_step q k v); [done| |done]. by eapply Hun. }
    destruct (IH (S k) q1) as (q' & E' & H' & He'); [lia|done|done|].
    exists q'. split; [|done]. simpl. by rewrite E1.
Qed.

(** X25: after the propagation of pure clauses and a first propagation
    of units that succeeds on a problem built from jobs, no clause that
    every one of its variables references (a dependency, a conflict, a
    chain or a request clause) is violated or left as a unit: [nresolved]
    of such a clause is the number of its literals whose variable is
    resolved, and the clause either holds by a resolved literal or has at
    least two literals whose variable is not resolved. *)
Theorem pkg_solve_first_propagation_sound (jb : pkg_jobs) (p p1 : pkg_solve_problem)
    (s : propagation) (i r : nat) (v : pkg_solve_variable) :
  pkg_solve_jobs_to_sat jb = Some p ->
  pkg_solve_propagate_pure p = Ret p1 ->
  pkg_solve_propagate_units p1 (Some 0) None true = Ret (true, s) ->
  variables (pr_problem s) !! i = Some v ->
  In r (var_rules v) ->
  rule_complete (pr_problem s) r = true ->
  rule_nresolved (rule_at (pr_problem s) r)
  = count_resolved (pr_problem s) (rule_at (pr_problem s) r)
  /\ (rule_has_true_item (pr_problem s) (rule_at (pr_problem s) r) = true
      \/ count_resolved (pr_problem s) (rule_at (pr_problem s) r) + 2
         <= rule_nitems (rule_at (pr_problem s) r)).
Proof.
  intros Hb Hp Hu Hv Hr Hc.
  pose proof (clauses_built_jobs_to_sat jb p Hb) as Hcb.
  pose proof (counted_jobs_to_sat jb p Hb) as Hcn.
  (* the counters are exact when the problem is built ... *)
  assert (He0 : nresolved_exact p).
  { intros r0 _. destruct Hcb as (Hrs & _ & _). unfold rule_at.
    destruct (rules p !! r0) as [c|] eqn:El; [|done]. simpl.
    rewrite Forall_forall in Hrs.
    destruct (Hrs c) as (_ & _ & Hit); [by eapply list_elem_of_lookup_2|].
    rewrite (count_resolved_none p c (fun k w => built_unresolved jb p k w Hb)). destruct c as [|it c]; [done|].
    inversion Hit as [|? ? [H0 _] _]. exact H0. }
  (* ... and stay so under both propagations *)
  destruct (pure_exact_loop p (nvars p) Hcb Hcn
              (fun k w => built_unresolved jb p k w Hb) 0%nat p)
    as (p1' & Hp' & _ & He1); [done|by apply pure_before_start|done|].
  unfold pkg_solve_propagate_pure in Hp. rewrite Hp in Hp'. injection Hp' as <-.
  assert (He : nresolved_exact (pr_problem s)).
  { apply (step_propagate_loop nresolved_exact
             (fun q k w b => nresolved_exact_step q k w b) _ _ _ _ Hu He1). }
  pose proof (He r Hc) as Hex. split; [exact Hex|].
  (* the result of the propagation is quiet *)
  pose proof (propagate_units_leaves_quiet _ _ _ _ _ Hu) as Hq.
  unfold quiet in Hq. rewrite Forall_forall in Hq.
  destruct (Hq v) as [Hconf Hunit]; [by eapply list_elem_of_lookup_2|].
  destruct (rule_has_true_item (pr_problem s) (rule_at (pr_problem s) r)) eqn:Et;
    [by left|right].
  assert (H1 : rule_nresolved (rule_at (pr_problem s) r)
               <> rule_nitems (rule_at (pr_problem s) r)).
  { intros Heq. apply not_true_iff_false in Hconf. apply Hconf.
    unfold var_has_conflict. apply existsb_exists. exists r. split; [done|]. cbn zeta.
    by rewrite (proj2 (Z.eqb_eq _ _) Heq), Et. }
  assert (H2 : rule_nresolved (rule_at (pr_problem s) r)
               <> rule_nitems (rule_at (pr_problem s) r) - 1).
  { intros Heq. unfold var_find_unit in Hunit.
    pose proof (find_none _ _ Hunit (rule_at (pr_problem s) r)) as Hn.
    simpl in Hn. rewrite (proj2 (Z.eqb_eq _ _) Heq), Et in Hn.
    assert (Hin : In (rule_at (pr_problem s) r)
                     (map (rule_at (pr_problem s)) (var_rules v))).
    { apply in_map_iff. by exists r. }
    by specialize (Hn Hin). }
  (* the arity of the clause bounds the number of its resolved literals *)
  assert (Hle : count_resolved (pr_problem s) (rule_at (pr_problem s) r)
                <= rule_nitems (rule_at (pr_problem s) r)).
  { assert (Hfr : frame (pr_problem s) = frame p).
    { transitivity (frame p1).
      - eapply (kept_propagate_units (fun q => frame q = frame p1)); [| |exact Hu|done].
        + intros q k c Hq'. by rewrite frame_assign_var.
        + intros q k Hq'. by rewrite frame_update_var_resolved.
      - eapply (kept_pure_loop (fun q => frame q = frame p)); [| |exact Hp|done].
        + intros q k c Hq'. by rewrite frame_assign_var.
        + intros q k Hq'. by rewrite frame_update_var_resolved. }
    pose proof (frame_rule_at (pr_problem s) p r Hfr) as Hm.
    assert (Hn : rule_nitems (rule_at p r) = Z.of_nat (length (rule_at p r))).
    { destruct Hcb as (Hrs & _ & _). unfold rule_at.
      destruct (rules p !! r) as [c|] eqn:El; [|done]. simpl.
      rewrite Forall_forall in Hrs.
      destruct (Hrs c) as (_ & Hnum & _); [by eapply list_elem_of_lookup_2|].
      by apply numbered_nitems. }
    assert (Hn' : rule_nitems (rule_at (pr_problem s) r)
                  = Z.of_nat (length (rule_at (pr_problem s) r))).
    { assert (Hl : length (rule_at (pr_problem s) r) = length (rule_at p r)).
      { by rewrite <- (length_map item_frame (rule_at (pr_problem s) r)), Hm, length_map. }
      rewrite Hl, <- Hn. clear Hl Hn Hex H1 H2 Et.
      destruct (rule_at (pr_problem s) r) as [|it c], (rule_at p r) as [|it' c'];
        try done. simpl. by injection Hm as H _ _ _. }
    rewrite Hn'. unfold count_resolved. apply inj_le, List.filter_length_le. }
  lia.
Qed.

Lemma pkg_solve_first_propagation_sound_witness :
  rule_has_true_item (pr_problem (Requested.propagated Requested.depends))
    (rule_at (pr_problem (Requested.propagated Requested.depends)) 0) = true
  \/ count_resolved (pr_problem (Requested.propagated Requested.depends))
       (rule_at (pr_problem (Requested.propagated Requested.depends)) 0) + 2
     <= rule_nitems (rule_at (pr_problem (Requested.propagated Requested.depends)) 0).
Proof.
  assert (Hb : pkg_solve_jobs_to_sat Requested.depends
               = Some (Scenario.build Requested.depends))
    by (vm_compute; reflexivity).
  assert (Hp : pkg_solve_propagate_pure (Scenario.build Requested.depends)
               = Ret (Requested.seeded Requested.depends))
    by (vm_compute; reflexivity).
  assert (Hu : pkg_solve_propagate_units (Requested.seeded Requested.depends)
                 (Some 0) None true
               = Ret (true, Requested.propagated Requested.depends))
    by (vm_compute; reflexivity).
  assert (Hv : exists v,
             variables (pr_problem (Requested.propagated Requested.depends)) !! 1%nat
             = Some v /\ In 0%nat (var_rules v)).
  { eexists. split; [vm_compute; reflexivity|]. left. reflexivity. }
  destruct Hv as (v & Hv & Hr).
  assert (Hc : rule_complete (pr_problem (Requested.propagated Requested.depends)) 0 = true)
    by (vm_compute; reflexivity).
  exact (proj2 (pkg_solve_first_propagation_sound _ _ _ _ 1%nat 0%nat v Hb Hp Hu Hv Hr Hc)).
Defined.
